(** * rubico container dispatch and execution engine

    A shallow embedding of the polymorphic operators of the library
    ([map], [filter], [reduce], [map.pool]) together with the helpers they
    are built from ([isPromise], [possiblePromiseThen], [possiblePromiseAll],
    the per-shape implementations), followed by the properties of the
    specification that are stated about them.

    Sources embedded:
    - [src/index.js]   the monolithic build (shape predicates, per-shape
                       implementations, front-ends, pool mapper, reduce);
    - [src/map.js], [src/filter.js]   the modular front-ends;
    - [src/unnamed/part_001]   [setMapPool] and [_setMapPoolAsync]. *)

From Stdlib Require Import ZArith List Ascii String Bool Lia Permutation DecimalString.
From stdpp Require Import base list strings gmap.
Import ListNotations.
Open Scope string_scope.
Open Scope nat_scope.
Open Scope list_scope.
Set Warnings "-register-all,-clear-no-such-hyp".

(** ** Values

    JavaScript values as far as the engine inspects them.  Function values
    are kept apart (see [Operand]); a [Val] is function-free data.

    - numbers are the integers ([NaN] and fractions are not modelled);
    - a string is held as its UTF-8: it is iterated by character (code
      point) and indexed by UTF-16 code unit, see [codePoints] and
      [codeUnits];
    - reference identity is structural: two objects are the same object iff
      they have the same content;
    - [VIter items] is a generator object (or a custom iterator that,
      like it, has [Symbol.iterator], [next] and a [return] that ends it)
      that yields [items] and then completes; [VAsyncIter items] is its
      asynchronous counterpart;
    - [VPromise delay fulfils v] is a native promise that settles [delay]
      scheduler turns after it was created, fulfilling with [v] when
      [fulfils] and rejecting with [v] otherwise;
    - [VSyncThenable v] is an instance of the library's [SyncThenable]. *)

Inductive ErrorKind := TypeError | RangeError | ReferenceError.

Inductive Val : Type :=
| VUndefined
| VNull
| VBool (b : bool)
| VNum (n : Z)
| VStr (s : string)
| VError (kind : ErrorKind) (msg : string)
| VArray (items : list Val)
| VTyped (items : list Val)
| VSet (items : list Val)
| VMap (entries : list (Val * Val))
| VObject (props : list (string * Val))
| VIter (items : list Val)
| VAsyncIter (items : list Val)
| VPromise (delay : nat) (fulfils : bool) (v : Val)
| VSyncThenable (v : Val).

Definition Val_eq_dec : forall a b : Val, {a = b} + {a <> b}.
Proof.
  fix IH 1.
  decide equality;
    try solve [ apply string_dec | apply Z.eq_dec | apply Bool.bool_dec
              | apply Nat.eq_dec | decide equality ].
  all: try (apply List.list_eq_dec; try apply IH).
  all: try (decide equality; try apply IH; apply string_dec).
Defined.

#[global] Instance Val_eq_decision : EqDecision Val := Val_eq_dec.

(** A JavaScript function, called with its argument list. *)
Definition Fn : Type := list Val -> Val.

(** What can be handed to an operator: data or a function. *)
Inductive Operand : Type :=
| Data (v : Val)
| Func (fn : Fn).

(** Abrupt and normal completion of library code. *)
Inductive Completion (A : Type) : Type :=
| Normal (a : A)
| Throw (e : Val).
Arguments Normal {A} a.
Arguments Throw {A} e.

Definition bindC {A B} (c : Completion A) (k : A -> Completion B) : Completion B :=
  match c with
  | Normal a => k a
  | Throw e => Throw e
  end.

(** ** What the shape predicates look at

    Every predicate of the library inspects a value through [typeof],
    [Array.isArray], [ArrayBuffer.isView], the [constructor] property and
    the presence of a few methods.  A [Profile] records the answers; it is
    defined for every JavaScript value, also for those outside [Val]
    (an array that was given a [Symbol.asyncIterator] method, say). *)

Inductive TypeOf :=
| TyUndefined | TyObject | TyBoolean | TyNumber | TyBigInt | TyString
| TySymbol | TyFunction.

Inductive Ctor := CtorObject | CtorSet | CtorMap | CtorString | CtorNumber | CtorOther.

#[global] Instance TypeOf_eq_dec : EqDecision TypeOf.
Proof. solve_decision. Defined.
#[global] Instance Ctor_eq_dec : EqDecision Ctor.
Proof. solve_decision. Defined.

Record Profile := mkProfile {
  nullish : bool;                 (* value == null *)
  typeOf : TypeOf;                (* typeof value *)
  arrayIsArray : bool;            (* Array.isArray(value) *)
  bufferIsView : bool;            (* ArrayBuffer.isView(value) *)
  constructorOf : Ctor;           (* value.constructor *)
  iteratorIsFn : bool;            (* typeof value[Symbol.iterator] == 'function' *)
  asyncIteratorIsFn : bool;       (* typeof value[Symbol.asyncIterator] == 'function' *)
  iteratorIn : bool;              (* Symbol.iterator in value *)
  nextIsFn : bool;                (* typeof value.next == 'function' *)
  mapIsFn : bool;                 (* typeof value.map == 'function' *)
  filterIsFn : bool;              (* typeof value.filter == 'function' *)
  generatorFunction : bool;       (* isGeneratorFunction(value) *)
  asyncGeneratorFunction : bool   (* isAsyncGeneratorFunction(value) *)
}.

Definition primitiveProfile (nl : bool) (t : TypeOf) (c : Ctor) (it : bool) : Profile :=
  mkProfile nl t false false c it false it false false false false false.

Definition objectProfile (c : Ctor) (it ait nxt : bool) : Profile :=
  mkProfile false TyObject false false c it ait it nxt false false false false.

Definition profileVal (v : Val) : Profile :=
  match v with
  | VUndefined => primitiveProfile true TyUndefined CtorOther false
  | VNull => primitiveProfile true TyObject CtorOther false
  | VBool _ => primitiveProfile false TyBoolean CtorOther false
  | VNum _ => primitiveProfile false TyNumber CtorNumber false
  | VStr _ => primitiveProfile false TyString CtorString true
  | VError _ _ => objectProfile CtorOther false false false
  | VArray _ =>
      mkProfile false TyObject true false CtorOther true false true false true true false false
  | VTyped _ =>
      mkProfile false TyObject false true CtorOther true false true false true true false false
  | VSet _ => objectProfile CtorSet true false false
  | VMap _ => objectProfile CtorMap true false false
  | VObject _ => objectProfile CtorObject false false false
  | VIter _ => objectProfile CtorOther true false true
  | VAsyncIter _ => objectProfile CtorOther false true true
  | VPromise _ _ _ => objectProfile CtorOther false false false
  | VSyncThenable _ => objectProfile CtorOther false false false
  end.

Definition profile (x : Operand) : Profile :=
  match x with
  | Data v => profileVal v
  | Func _ =>
      mkProfile false TyFunction false false CtorOther false false false false false false
        false false
  end.

(** ** Shape predicates ([src/index.js], lines 42-80) *)

Definition isDefined (x : Profile) : bool := negb (nullish x).

Definition isIterable (x : Profile) : bool := negb (nullish x) && iteratorIsFn x.

Definition isAsyncIterable (x : Profile) : bool := negb (nullish x) && asyncIteratorIsFn x.

Definition isFunction (x : Profile) : bool := bool_decide (typeOf x = TyFunction).

Definition isArray (x : Profile) : bool := arrayIsArray x.

Definition isObject (x : Profile) : bool :=
  negb (nullish x) && bool_decide (constructorOf x = CtorObject).

Definition isSet (x : Profile) : bool :=
  negb (nullish x) && bool_decide (constructorOf x = CtorSet).

Definition isMap (x : Profile) : bool :=
  negb (nullish x) && bool_decide (constructorOf x = CtorMap).

Definition isTypedArray (x : Profile) : bool := bufferIsView x.

Definition isString (x : Profile) : bool :=
  bool_decide (typeOf x = TyString)
  || (negb (nullish x) && bool_decide (constructorOf x = CtorString)).

(** [isUndefined] and [isPromise] are only ever applied to data. *)
Definition isUndefined (v : Val) : bool :=
  match v with VUndefined => true | _ => false end.

Definition isPromise (v : Val) : bool :=
  match v with
  | VPromise _ _ _ | VSyncThenable _ => true
  | _ => false
  end.

(** JavaScript truthiness (the test of [if (ok)] and [res ? a : b]). *)
Definition truthy (v : Val) : bool :=
  match v with
  | VUndefined | VNull => false
  | VBool b => b
  | VNum n => negb (n =? 0)%Z
  | VStr s => negb (bool_decide (s = ""))
  | _ => true
  end.

(** ** The shapes and the routes of the front-ends *)

Inductive Shape :=
| AsyncIterable | Array | String_ | Set_ | Map_ | TypedArray | Iterable
| Object | Reducer.

Inductive Route :=
| To (s : Shape)
| NoMatch.

(** The predicate that recognises a shape. *)
Definition recognises (s : Shape) : Profile -> bool :=
  match s with
  | AsyncIterable => isAsyncIterable
  | Array => isArray
  | String_ => isString
  | Set_ => isSet
  | Map_ => isMap
  | TypedArray => isTypedArray
  | Iterable => isIterable
  | Object => isObject
  | Reducer => isFunction
  end.

(** The precedence order as the specification words it:
    asynchronous-iterable > array > string > Set > Map > typed array >
    synchronous-iterable > plain object > plain function. *)
Definition precedence : list Shape :=
  [AsyncIterable; Array; String_; Set_; Map_; TypedArray; Iterable; Object; Reducer].

(** First match wins. *)
Fixpoint firstMatch (order : list Shape) (x : Profile) : Route :=
  match order with
  | [] => NoMatch
  | s :: rest => if recognises s x then To s else firstMatch rest x
  end.

(** ** Promises

    [settled v] is the value a promise delivers when it settles (a value
    that is not a promise delivers itself); [delayOf v] is when. *)

Definition settled (v : Val) : Val :=
  match v with
  | VPromise _ _ w => w
  | VSyncThenable w => w
  | _ => v
  end.

Definition delayOf (v : Val) : nat :=
  match v with
  | VPromise t _ _ => t
  | _ => 0
  end.

Definition rejects (v : Val) : bool :=
  match v with
  | VPromise _ false _ => true
  | _ => false
  end.

(** The promise that [promise.then(func)] returns when the callback
    completed with [r], the receiver having settled after [t] turns. *)
Definition resolveWith (t : nat) (r : Completion Val) : Val :=
  match r with
  | Throw e => VPromise t false e
  | Normal (VPromise t' ok w) => VPromise (t + t') ok w
  | Normal (VSyncThenable w) => VPromise t true w
  | Normal w => VPromise t true w
  end.

(** [value.then(func)]: a native promise runs [func] once it has fulfilled
    and passes a rejection on; [SyncThenable.prototype.then] (index.js,
    line 118) is [function (func) { return func(this.value) }]. *)
Definition callThen (value : Val) (func : Val -> Completion Val) : Completion Val :=
  match value with
  | VPromise t true v => Normal (resolveWith t (func v))
  | VPromise t false e => Normal (VPromise t false e)
  | VSyncThenable v => func v
  | _ => Throw (VError TypeError "value.then is not a function")
  end.

(** index.js, lines 101-102. *)
Definition possiblePromiseThen (value : Val) (func : Val -> Completion Val)
  : Completion Val :=
  if isPromise value then callThen value func else func value.

(** [Promise.all(values)]: rejects with the rejection that comes first in
    time (the leftmost of those that come together), otherwise fulfils,
    once the slowest element has settled, with the array of the delivered
    values. *)
Fixpoint firstRejection (values : list Val) : option Val :=
  match values with
  | [] => None
  | v :: rest =>
      match firstRejection rest with
      | None => if rejects v then Some v else None
      | Some r => if rejects v && (delayOf v <=? delayOf r)%nat then Some v else Some r
      end
  end.

Definition maxDelay (values : list Val) : nat :=
  fold_right (fun v t => Nat.max (delayOf v) t) 0 values.

Definition promiseAll (values : list Val) : Val :=
  match firstRejection values with
  | Some r => VPromise (delayOf r) false (settled r)
  | None => VPromise (maxDelay values) true (VArray (List.map settled values))
  end.

(** index.js, lines 128-130:
    [values.some(isPromise) ? promiseAll(values) : new SyncThenable(values)]. *)
Definition possiblePromiseAll (values : list Val) : Val :=
  if existsb isPromise values then promiseAll values
  else VSyncThenable (VArray values).

(** ** Iteration *)

(** ** Strings

    JavaScript iterates a string by code point and measures and indexes
    it ([x.length], [x[i]]) by UTF-16 code unit: a character outside the
    Basic Multilingual Plane is one item of the iteration and two code
    units, its surrogates.  A [string] holds the UTF-8 of the JavaScript
    string, so that a character is a lead byte with its continuation
    bytes. *)

Definition isContinuation (c : ascii) : bool :=
  (128 <=? N_of_ascii c)%N && (N_of_ascii c <? 192)%N.

(** How many bytes the sequence has that [c] leads. *)
Definition sequenceLength (c : ascii) : nat :=
  let n := N_of_ascii c in
  if (n <? 192)%N then 1 else if (n <? 224)%N then 2 else if (n <? 240)%N then 3 else 4.

(** The sequences of [current ++ s], of the first of which [current] has
    been read and [pending] bytes are yet to come. *)
Fixpoint sequences (pending : nat) (current : string) (s : string) : list string :=
  match s with
  | EmptyString => [current]
  | String c rest =>
      match pending with
      | S pending' =>
          if isContinuation c
          then sequences pending' (String.append current (String c EmptyString)) rest
          else current :: sequences (sequenceLength c - 1) (String c EmptyString) rest
      | 0 => current :: sequences (sequenceLength c - 1) (String c EmptyString) rest
      end
  end.

(** The characters [for (const xi of x)] visits. *)
Definition codePoints (s : string) : list string :=
  match s with
  | EmptyString => []
  | String c rest => sequences (sequenceLength c - 1) (String c EmptyString) rest
  end.

(** A character outside the Basic Multilingual Plane, and its code. *)
Definition isAstral (g : string) : bool :=
  match g with
  | String a (String _ (String _ (String _ EmptyString))) => (240 <=? N_of_ascii a)%N
  | _ => false
  end.

Definition codePointOf (g : string) : N :=
  match g with
  | String a (String b (String c (String d EmptyString))) =>
      (N.land (N_of_ascii a) 7 * 262144 + N.land (N_of_ascii b) 63 * 4096
       + N.land (N_of_ascii c) 63 * 64 + N.land (N_of_ascii d) 63)%N
  | _ => 0%N
  end.

Definition highSurrogate (code : N) : N := (55296 + (code - 65536) / 1024)%N.
Definition lowSurrogate (code : N) : N := (56320 + (code - 65536) mod 1024)%N.

(** A surrogate on its own is held as the three bytes of its code. *)
Definition surrogateString (u : N) : string :=
  String (ascii_of_N (224 + u / 4096))
    (String (ascii_of_N (128 + (u / 64) mod 64))
       (String (ascii_of_N (128 + u mod 64)) EmptyString)).

Definition surrogateOf (u : string) : option N :=
  match u with
  | String a (String b (String c EmptyString)) =>
      if (N_of_ascii a =? 237)%N && (160 <=? N_of_ascii b)%N && (N_of_ascii b <? 192)%N
      then Some (53248 + N.land (N_of_ascii b) 63 * 64 + N.land (N_of_ascii c) 63)%N
      else None
  | _ => None
  end.

Definition astralString (code : N) : string :=
  String (ascii_of_N (240 + code / 262144))
    (String (ascii_of_N (128 + (code / 4096) mod 64))
       (String (ascii_of_N (128 + (code / 64) mod 64))
          (String (ascii_of_N (128 + code mod 64)) EmptyString))).

(** The code units [x[0]], ..., [x[x.length - 1]], each as the string
    [x[i]] is. *)
Definition unitsOf (g : string) : list string :=
  if isAstral g
  then [surrogateString (highSurrogate (codePointOf g));
        surrogateString (lowSurrogate (codePointOf g))]
  else [g].

Definition codeUnits (s : string) : list string := flat_map unitsOf (codePoints s).

(** The string that a sequence of code units is: a high surrogate that a
    low one follows makes one character with it. *)
Fixpoint joinUnits (units : list string) : string :=
  match units with
  | [] => EmptyString
  | u :: rest =>
      match rest with
      | next :: rest' =>
          match surrogateOf u, surrogateOf next with
          | Some high, Some low =>
              if (high <? 56320)%N && (56320 <=? low)%N
              then String.append
                     (astralString (65536 + (high - 55296) * 1024 + (low - 56320)))
                     (joinUnits rest')
              else String.append u (joinUnits rest)
          | _, _ => String.append u (joinUnits rest)
          end
      | [] => u
      end
  end.

(** The items of the iteration of a string, in order. *)
Definition chars (s : string) : list Val := List.map VStr (codePoints s).

(** The items [for (const xi of x)] visits. *)
Definition iterate (x : Val) : list Val :=
  match x with
  | VArray items | VTyped items | VSet items | VIter items => items
  | VStr s => chars s
  | VMap entries => List.map (fun kv => VArray [fst kv; snd kv]) entries
  | _ => []
  end.

(** The items [for await (const xi of x)] visits. *)
Definition iterateAsync (x : Val) : list Val :=
  match x with
  | VAsyncIter items => items
  | _ => iterate x
  end.

Definition operandVal (x : Operand) : Val :=
  match x with
  | Data v => v
  | Func _ => VUndefined
  end.

Definition operandFn (x : Operand) : Fn :=
  match x with
  | Func fn => fn
  | Data _ => fun _ => VUndefined
  end.

(** ** Containers *)

(** [set.add(v)]. *)
Definition setAdd (v : Val) (y : list Val) : list Val :=
  if bool_decide (v ∈ y) then y else y ++ [v].

(** [object[k]] and [object[k] = v] on the own properties. *)
Fixpoint objGet (k : string) (props : list (string * Val)) : Val :=
  match props with
  | [] => VUndefined
  | (k', v) :: rest => if bool_decide (k = k') then v else objGet k rest
  end.

Fixpoint objSet (k : string) (v : Val) (props : list (string * Val))
  : list (string * Val) :=
  match props with
  | [] => [(k, v)]
  | (k', v') :: rest =>
      if bool_decide (k = k') then (k, v) :: rest else (k', v') :: objSet k v rest
  end.

(** [map.set(k, v)]. *)
Fixpoint mapPut (k v : Val) (entries : list (Val * Val)) : list (Val * Val) :=
  match entries with
  | [] => [(k, v)]
  | (k', v') :: rest =>
      if bool_decide (k = k') then (k, v) :: rest else (k', v') :: mapPut k v rest
  end.

(** The arguments that [...value] spreads into a call; a value that is not
    iterable cannot be spread. *)
Definition spread (value : Val) : Completion (list Val) :=
  match value with
  | VArray _ | VTyped _ | VSet _ | VIter _ | VStr _ | VMap _ => Normal (iterate value)
  | _ => Throw (VError TypeError "value is not iterable")
  end.

Definition arg (i : nat) (args : list Val) : Val := nth i args VUndefined.

(** ** Lazy sequences

    A generator object: [resume] runs the generator body from where it was
    suspended, over the rest of its source, up to the next [yield]. *)

Inductive Pull :=
| Yield (v : Val)
| Done
| Raise (e : Val).

Inductive GenState :=
| Suspended (rest : list Val)
| Finished.

Record Generator := mkGenerator {
  resume : list Val -> Pull * GenState;
  state : GenState
}.

(** [generator.next()]. *)
Definition next (g : Generator) : Pull * Generator :=
  match state g with
  | Finished => (Done, g)
  | Suspended rest =>
      let '(r, st) := resume g rest in (r, mkGenerator (resume g) st)
  end.

(** Pulling [k] times: the results, in order, and the generator left. *)
Fixpoint pulls (k : nat) (g : Generator) : list Pull * Generator :=
  match k with
  | O => ([], g)
  | S k' =>
      let '(r, g') := next g in
      let '(rs, g'') := pulls k' g' in (r :: rs, g'')
  end.

(** What a front-end hands back. *)
Inductive Out :=
| Returned (v : Val)
| ReturnedReducer (r : Fn)
| ReturnedGenerator (g : Generator)
| ReturnedAsyncGenerator (g : Generator)
| Thrown (e : Val).

Definition ofCompletion (c : Completion Val) : Out :=
  match c with
  | Normal v => Returned v
  | Throw e => Thrown e
  end.

(** Whether what was handed back is a pending result. *)
Definition isPending (o : Out) : bool :=
  match o with
  | Returned v => isPromise v
  | _ => false
  end.

(** The value a completion carries. *)
Definition valueOf (c : Completion Val) : Val :=
  match c with
  | Normal v => v
  | Throw e => e
  end.

(** ** Single-pass insertion with deferred continuations

    [mapSet], [mapMap], [mapObject], [filterSet], [filterMap] and
    [filterObject] are one loop: visit every key, and either commit the
    result to the output container [y] at once, or push
    [point.then(res => commit)] on [promises]; at the end
    [promises.length > 0 ? Promise.all(promises).then(() => y) : y].

    The continuations run when their promises settle, that is in the order
    of their delays, those of equal delay in the order of registration. *)

Section SinglePass.
Context {K Y : Type}.
Variable commit : K -> Val -> Y -> Completion Y.
Variable wrap : Y -> Val.
Variable visit : K -> Val.

(** What settles: a continuation that commits [res] under key [k], a
    promise that rejects, or a value that was no native promise. *)
Inductive Event :=
| Commit (k : K) (res : Val)
| Fail (e : Val)
| Skip.

Definition passStep (st : Completion (Y * list (nat * Event))) (k : K)
  : Completion (Y * list (nat * Event)) :=
  bindC st (fun '(y, promises) =>
    match visit k with
    | VPromise t true res => Normal (y, promises ++ [(t, Commit k res)])
    | VPromise t false e => Normal (y, promises ++ [(t, Fail e)])
    | VSyncThenable res =>
        bindC (commit k res y) (fun y' => Normal (y', promises ++ [(0, Skip)]))
    | point => bindC (commit k point y) (fun y' => Normal (y', promises))
    end).

Fixpoint insertEvent (e : nat * Event) (l : list (nat * Event)) : list (nat * Event) :=
  match l with
  | [] => [e]
  | h :: rest =>
      if (fst e <? fst h)%nat then e :: h :: rest else h :: insertEvent e rest
  end.

Definition inSettleOrder (l : list (nat * Event)) : list (nat * Event) :=
  fold_left (fun acc e => insertEvent e acc) l [].

(** [Promise.all(promises).then(() => y)], the continuations having run
    in settle order; [t] is the time reached. *)
Fixpoint settleAll (t : nat) (y : Y) (events : list (nat * Event)) : Val :=
  match events with
  | [] => VPromise t true (wrap y)
  | (t', Commit k res) :: rest =>
      match commit k res y with
      | Normal y' => settleAll t' y' rest
      | Throw e => VPromise t' false e
      end
  | (t', Fail e) :: _ => VPromise t' false e
  | (t', Skip) :: rest => settleAll t' y rest
  end.

Definition singlePass (keys : list K) (y0 : Y) : Completion Val :=
  bindC (fold_left passStep keys (Normal (y0, []))) (fun '(y, promises) =>
    Normal (match promises with
            | [] => wrap y
            | _ :: _ => settleAll 0 y (inSettleOrder promises)
            end)).
End SinglePass.

Arguments Commit {K} k res.
Arguments Fail {K} e.
Arguments Skip {K}.

(** * The monolithic build: [src/index.js] *)

Module Index.

(** ** Front-end dispatch *)

(** The chain of tests of [map] (lines 767-778) and of [filter]
    (lines 1097-1108): which per-shape implementation is called. *)
Definition map_route (x : Profile) : Route :=
  if isAsyncIterable x then To AsyncIterable
  else if isArray x then To Array
  else if isString x then To String_
  else if isSet x then To Set_
  else if isMap x then To Map_
  else if isTypedArray x then To TypedArray
  else if isIterable x then To Iterable
  else if isObject x then To Object
  else if isFunction x then To Reducer
  else NoMatch.

Definition filter_route (x : Profile) : Route :=
  if isAsyncIterable x then To AsyncIterable
  else if isArray x then To Array
  else if isString x then To String_
  else if isSet x then To Set_
  else if isMap x then To Map_
  else if isTypedArray x then To TypedArray
  else if isIterable x then To Iterable
  else if isObject x then To Object
  else if isFunction x then To Reducer
  else NoMatch.

Section Engine.

(** Built-ins of the host that the engine calls: [array.join('')] and the
    elements of [new x.constructor(array)] for the typed array [x]. *)
Variable join : list Val -> string.
Variable typedFrom : list Val -> list Val.

(** ** Per-shape map *)

(** The loop shared by [x.map(xi => ...)] in [mapArray], by
    [mapIterableToArray] and by [createFilterIndex]: the results and
    whether one of them is a promise. *)
Definition collect (fn : Fn) (x : list Val) : bool * list Val :=
  fold_left
    (fun '(isAsync, y) xi =>
       let point := fn [xi] in
       ((if isPromise point then true else isAsync), y ++ [point]))
    x (false, []).

(** lines 613-615 *)
Definition mapAsyncIterable (fn : Fn) (x : Val) : Generator :=
  mkGenerator
    (fun rest =>
       match rest with
       | [] => (Done, Finished)
       | xi :: rest' =>
           let point := fn [xi] in
           if rejects point then (Raise (settled point), Finished)
           else (Yield (settled point), Suspended rest')
       end)
    (Suspended (iterateAsync x)).

(** lines 623-627 *)
Definition mapIterable (fn : Fn) (x : Val) : Generator :=
  mkGenerator
    (fun rest =>
       match rest with
       | [] => (Done, Finished)
       | xi :: rest' => (Yield (fn [xi]), Suspended rest')
       end)
    (Suspended (iterate x)).

(** lines 653-661 *)
Definition mapArray (f : Fn) (x : Val) : Val :=
  let '(isAsync, y) := collect f (iterate x) in
  if isAsync then promiseAll y else VArray y.

(** lines 668-677 *)
Definition mapIterableToArray (fn : Fn) (x : Val) : Val :=
  let '(isAsync, y) := collect fn (iterate x) in
  if isAsync then promiseAll y else VArray y.

(** lines 683-686 *)
Definition mapString (f : Fn) (x : Val) : Completion Val :=
  possiblePromiseThen (mapIterableToArray f x)
    (fun res => Normal (VStr (join (iterate res)))).

(** lines 692-695 *)
Definition mapTypedArray (f : Fn) (x : Val) : Completion Val :=
  possiblePromiseThen (mapIterableToArray f x)
    (fun res => Normal (VTyped (typedFrom (iterate res)))).

(** lines 701-712 *)
Definition mapSet (f : Fn) (x : Val) : Completion Val :=
  singlePass (fun _ res y => Normal (setAdd res y)) VSet
    (fun xi => f [xi]) (iterate x) [].

(** lines 718-729 *)
Definition mapMap (fn : Fn) (x : Val) : Completion Val :=
  singlePass
    (fun _ res y =>
       bindC (spread res) (fun args => Normal (mapPut (arg 0 args) (arg 1 args) y)))
    VMap (fun entry => fn [entry]) (iterate x) [].

Definition ownKeys (x : Val) : list string :=
  match x with
  | VObject props => List.map fst props
  | _ => []
  end.

Definition getProp (x : Val) (k : string) : Val :=
  match x with
  | VObject props => objGet k props
  | _ => VUndefined
  end.

(** lines 735-746 *)
Definition mapObject (fn : Fn) (x : Val) : Completion Val :=
  singlePass (fun k res y => Normal (objSet k res y)) VObject
    (fun k => fn [getProp x k]) (ownKeys x) [].

(** lines 753-754 *)
Definition mapReducer (f reducer : Fn) : Fn :=
  fun args =>
    let y := arg 0 args in
    let xi := arg 1 args in
    valueOf (possiblePromiseThen (f [xi]) (fun res => Normal (reducer [y; res]))).

(** lines 763-779 *)
Definition map (f : Operand) : Completion (Operand -> Out) :=
  if negb (isFunction (profile f))
  then Throw (VError TypeError "map(f); f is not a function")
  else
    let f := operandFn f in
    Normal (fun x =>
      match map_route (profile x) with
      | To AsyncIterable => ReturnedAsyncGenerator (mapAsyncIterable f (operandVal x))
      | To Array => Returned (mapArray f (operandVal x))
      | To String_ => ofCompletion (mapString f (operandVal x))
      | To Set_ => ofCompletion (mapSet f (operandVal x))
      | To Map_ => ofCompletion (mapMap f (operandVal x))
      | To TypedArray => ofCompletion (mapTypedArray f (operandVal x))
      | To Iterable => ReturnedGenerator (mapIterable f (operandVal x))
      | To Object => ofCompletion (mapObject f (operandVal x))
      | To Reducer => ReturnedReducer (mapReducer f (operandFn x))
      | NoMatch => Thrown (VError TypeError "map(...)(x); x invalid")
      end).

(** ** Per-shape filter *)

(** lines 952-954 *)
Fixpoint filterAsyncIterable_resume (predicate : Fn) (rest : list Val) : Pull * GenState :=
  match rest with
  | [] => (Done, Finished)
  | xi :: rest' =>
      let ok := predicate [xi] in
      if rejects ok then (Raise (settled ok), Finished)
      else if truthy (settled ok) then (Yield xi, Suspended rest')
      else filterAsyncIterable_resume predicate rest'
  end.

Definition filterAsyncIterable (predicate : Fn) (x : Val) : Generator :=
  mkGenerator (filterAsyncIterable_resume predicate) (Suspended (iterateAsync x)).

Definition filterIterable_message : string :=
  "filter(f)(x); xi is an element of x; if x if the resulting iterator of a sync generator, f(xi) cannot return a Promise".

(** lines 962-974: the body of the generator, from the loop head to the
    next [yield], [throw] or the end of the source. *)
Fixpoint filterIterable_resume (predicate : Fn) (rest : list Val) : Pull * GenState :=
  match rest with
  | [] => (Done, Finished)
  | xi :: rest' =>
      let ok := predicate [xi] in
      if isPromise ok then (Raise (VError TypeError filterIterable_message), Finished)
      else if truthy ok then (Yield xi, Suspended rest')
      else filterIterable_resume predicate rest'
  end.

(** Calling the generator function runs none of its body. *)
Definition filterIterable (predicate : Fn) (x : Val) : Generator :=
  mkGenerator (filterIterable_resume predicate) (Suspended (iterate x)).

(** lines 981-990 *)
Definition createFilterIndex (predicate : Fn) (x : Val) : Val :=
  let '(isAsync, filterIndex) := collect predicate (iterate x) in
  if isAsync then promiseAll filterIndex else VArray filterIndex.

(** [x.filter((_, i) => res[i])] *)
Fixpoint keepWhere (res x : list Val) : list Val :=
  match x with
  | [] => []
  | xi :: x' =>
      if truthy (arg 0 res) then xi :: keepWhere (tl res) x'
      else keepWhere (tl res) x'
  end.

(** lines 997-1000 *)
Definition filterArray (predicate : Fn) (x : Val) : Completion Val :=
  possiblePromiseThen (createFilterIndex predicate x)
    (fun res => Normal (VArray (keepWhere (iterate res) (iterate x)))).

(** lines 1006-1010: [for (let i = 0; i < x.length; i++) { if (index[i])
    y += x[i] }], over the code units of [x]; [y] is kept as the code
    units it is made of. *)
Definition filterStringFromIndex (index : list Val) (x : string) : string :=
  joinUnits
    (fold_left
       (fun y i => if truthy (nth i index VUndefined) then y ++ [nth i (codeUnits x) ""] else y)
       (seq 0 (length (codeUnits x))) []).

Definition stringOf (x : Val) : string :=
  match x with
  | VStr s => s
  | _ => EmptyString
  end.

(** lines 1016-1019 *)
Definition filterString (predicate : Fn) (x : Val) : Completion Val :=
  possiblePromiseThen (createFilterIndex predicate x)
    (fun res => Normal (VStr (filterStringFromIndex (iterate res) (stringOf x)))).

(** lines 1025-1034 *)
Definition filterSet (predicate : Fn) (x : Val) : Completion Val :=
  singlePass (fun xi res y => Normal (if truthy res then setAdd xi y else y)) VSet
    (fun xi => predicate [xi]) (iterate x) [].

(** lines 1041-1050 *)
Definition filterMap (predicate : Fn) (x : Val) : Completion Val :=
  singlePass
    (fun xi res y =>
       if truthy res
       then bindC (spread xi) (fun args => Normal (mapPut (arg 0 args) (arg 1 args) y))
       else Normal y)
    VMap (fun xi => predicate [xi]) (iterate x) [].

(** lines 1056-1059 *)
Definition filterTypedArray (predicate : Fn) (x : Val) : Completion Val :=
  bindC (filterArray predicate x) (fun filtered =>
    possiblePromiseThen filtered
      (fun res => Normal (VTyped (typedFrom (iterate res))))).

(** lines 1065-1074 *)
Definition filterObject (predicate : Fn) (x : Val) : Completion Val :=
  singlePass
    (fun k res y => Normal (if truthy res then objSet k (getProp x k) y else y))
    VObject (fun k => predicate [getProp x k]) (ownKeys x) [].

(** lines 1083-1084 *)
Definition filterReducer (predicate reducer : Fn) : Fn :=
  fun args =>
    let y := arg 0 args in
    let xi := arg 1 args in
    valueOf (possiblePromiseThen (predicate [xi])
               (fun res => Normal (if truthy res then reducer [y; xi] else y))).

(** lines 1093-1109 *)
Definition filter (predicate : Operand) : Completion (Operand -> Out) :=
  if negb (isFunction (profile predicate))
  then Throw (VError TypeError "filter(predicate); predicate is not a function")
  else
    let predicate := operandFn predicate in
    Normal (fun x =>
      match filter_route (profile x) with
      | To AsyncIterable =>
          ReturnedAsyncGenerator (filterAsyncIterable predicate (operandVal x))
      | To Array => ofCompletion (filterArray predicate (operandVal x))
      | To String_ => ofCompletion (filterString predicate (operandVal x))
      | To Set_ => ofCompletion (filterSet predicate (operandVal x))
      | To Map_ => ofCompletion (filterMap predicate (operandVal x))
      | To TypedArray => ofCompletion (filterTypedArray predicate (operandVal x))
      | To Iterable => ReturnedGenerator (filterIterable predicate (operandVal x))
      | To Object => ofCompletion (filterObject predicate (operandVal x))
      | To Reducer => ReturnedReducer (filterReducer predicate (operandFn x))
      | NoMatch => Thrown (VError TypeError "filter(...)(x); x invalid")
      end).

(** ** Reduce *)

(** lines 1168-1174: the promise an [async] fold returns; every
    [await f(y, xi)] takes as long as what [f] returned. *)
Fixpoint asyncFold (f : Fn) (t : nat) (y : Val) (iter : list Val) : Val :=
  match iter with
  | [] => VPromise t true y
  | xi :: rest =>
      let r := f [y; xi] in
      if rejects r then VPromise (t + delayOf r) false (settled r)
      else asyncFold f (t + delayOf r) (settled r) rest
  end.

Definition asyncReduceIterator (f : Fn) (x0 : Val) (iter : list Val) : Val :=
  asyncFold f 0 x0 iter.

Definition emptyReduction : Val :=
  VError TypeError "reduce(...)(x); x cannot be empty".

(** [iterator.next().value] *)
Definition nextValue (iter : list Val) : Val :=
  match iter with
  | [] => VUndefined
  | value :: _ => value
  end.

(** Leaving [for (const xi of iter)] by [return] calls [iter.return()]
    when there is such a method.  A generator object has one, and it ends
    the generator; the iterators of arrays, strings, typed arrays, Sets
    and Maps have none and go on from where they were. *)
Definition closesOnReturn (x : Val) : bool :=
  match x with
  | VIter _ => true
  | _ => false
  end.

(** lines 1197-1203; [closes] tells whether the [return] of line 1200 ends
    the iterator, so that [asyncReduceIterator] finds nothing left. *)
Fixpoint reduceIterable_loop (closes : bool) (fn : Fn) (y : Val) (iter : list Val)
  : Completion Val :=
  match iter with
  | [] => Normal y
  | xi :: rest =>
      let y := fn [y; xi] in
      if isPromise y
      then callThen y
             (fun res =>
                Normal (asyncReduceIterator fn res (if closes then [] else rest)))
      else reduceIterable_loop closes fn y rest
  end.

(** lines 1185-1204.  The [return] of line 1195 is outside the loop and
    leaves the iterator as it is. *)
Definition reduceIterable (fn : Fn) (possiblyX0 : Val) (x : Val) : Completion Val :=
  let iter := iterate x in
  let '(y0, iter) :=
    if isUndefined possiblyX0 then (nextValue iter, tl iter) else (possiblyX0, iter) in
  if isUndefined y0 then Throw emptyReduction
  else
    match iter with
    | [] => Normal y0
    | value :: iter =>
        let y := fn [y0; value] in
        if isPromise y
        then callThen y (fun res => Normal (asyncReduceIterator fn res iter))
        else reduceIterable_loop (closesOnReturn x) fn y iter
    end.

(** lines 1211-1224: an [async] function, so a throw is a rejection. *)
Definition reduceAsyncIterable (fn : Fn) (possiblyY0 : Val) (x : Val) : Val :=
  let iter := iterateAsync x in
  let '(y0, iter) :=
    if isUndefined possiblyY0 then (nextValue iter, tl iter) else (possiblyY0, iter) in
  if isUndefined y0 then VPromise 0 false emptyReduction
  else asyncFold fn 0 y0 iter.

(** lines 1230-1234 *)
Definition reduceObject (fn : Fn) (x0 : Val) (x : Val) : Completion Val :=
  reduceIterable fn x0 (VIter (List.map (getProp x) (ownKeys x))).

(** lines 1249-1278.  The promise handed back for an asynchronous iterable
    is raced against a cancel token; as long as [cancel] is not called it
    settles as the fold does. *)
Definition reduce (fn : Operand) (init : Operand) : Completion (Operand -> Out) :=
  if negb (isFunction (profile fn))
  then Throw (VError TypeError "reduce(x, y); x is not a function")
  else
    let fn := operandFn fn in
    Normal (fun x =>
      let x0 :=
        if isFunction (profile init) then operandFn init [operandVal x]
        else operandVal init in
      if isIterable (profile x)
      then ofCompletion
             (possiblePromiseThen x0 (fun res => reduceIterable fn res (operandVal x)))
      else if isAsyncIterable (profile x)
      then ofCompletion
             (possiblePromiseThen x0
                (fun res => Normal (reduceAsyncIterable fn res (operandVal x))))
      else if isObject (profile x)
      then ofCompletion
             (possiblePromiseThen x0 (fun res => reduceObject fn res (operandVal x)))
      else Thrown (VError TypeError "reduce(...)(x); x invalid")).

End Engine.
End Index.

(** * The modular front-ends: [src/map.js] and [src/filter.js]

    The per-shape implementations they call live in [./_internal], outside
    the sources at hand; what each front-end decides itself is which one it
    calls, and the two cases in which it answers without calling any. *)

Inductive Outcome :=
| Delegates (impl : string)
| Returns (v : Val).

Module MapJs.

(** src/map.js, lines 144-179 *)
Definition map_route (value : Profile) : string :=
  if arrayIsArray value then "arrayMap"
  else if bool_decide (typeOf value = TyFunction) then
    if generatorFunction value then "generatorFunctionMap"
    else if asyncGeneratorFunction value then "asyncGeneratorFunctionMap"
    else "reducerMap"
  else if nullish value then "return value"
  else if nextIsFn value then
    if iteratorIn value then "MappingIterator" else "MappingAsyncIterator"
  else if bool_decide (typeOf value = TyString)
          || bool_decide (constructorOf value = CtorString) then "stringMap"
  else if bool_decide (constructorOf value = CtorSet) then "setMap"
  else if bool_decide (constructorOf value = CtorMap) then "mapMap"
  else if bool_decide (constructorOf value = CtorObject) then "objectMap"
  else if mapIsFn value then "value.map(mapper)"
  else "mapper(value)".

Definition map (mapper : Fn) (value : Operand) : Outcome :=
  let route := map_route (profile value) in
  if bool_decide (route = "return value") then Returns (operandVal value)
  else if bool_decide (route = "mapper(value)") then Returns (mapper [operandVal value])
  else Delegates route.

(** The shape whose implementation a route of [map.js] is. *)
Definition shapeOf (route : string) : Route :=
  if bool_decide (route = "arrayMap") then To Array
  else if bool_decide (route = "reducerMap") then To Reducer
  else if bool_decide (route = "MappingIterator") then To Iterable
  else if bool_decide (route = "MappingAsyncIterator") then To AsyncIterable
  else if bool_decide (route = "stringMap") then To String_
  else if bool_decide (route = "setMap") then To Set_
  else if bool_decide (route = "mapMap") then To Map_
  else if bool_decide (route = "objectMap") then To Object
  else NoMatch.

End MapJs.

Module FilterJs.

(** src/filter.js, lines 132-170 *)
Definition filter_route (value : Profile) : string :=
  if arrayIsArray value then "arrayFilter"
  else if bool_decide (typeOf value = TyFunction) then
    if generatorFunction value then "generatorFunctionFilter"
    else if asyncGeneratorFunction value then "asyncGeneratorFunctionFilter"
    else "reducerFilter"
  else if nullish value then "return value"
  else if nextIsFn value then
    if iteratorIn value then "FilteringIterator" else "FilteringAsyncIterator"
  else if bool_decide (typeOf value = TyString)
          || bool_decide (constructorOf value = CtorString) then "stringFilter"
  else if bool_decide (constructorOf value = CtorSet) then "setFilter"
  else if bool_decide (constructorOf value = CtorMap) then "mapFilter"
  else if filterIsFn value then "value.filter(predicate)"
  else if bool_decide (constructorOf value = CtorObject) then "objectFilter"
  else "return value".

Definition filter (predicate : Fn) (value : Operand) : Outcome :=
  let route := filter_route (profile value) in
  if bool_decide (route = "return value") then Returns (operandVal value)
  else Delegates route.

End FilterJs.

(** * The pool mapper: [mapPoolArray] and [map.pool] of [src/index.js]

    [mapPoolArray] is an [async] function: it runs until its first
    [await], is resumed when what it awaits has settled, and in between the
    continuations of the promises that settle are run.  Which promise
    settles when is not in the hands of the function; the machine below
    leaves it open, so that a property of all its runs holds for every
    order in which the pending results resolve. *)

Module Pool.

(** An element of the output array [y]: a result that was there at once,
    or the promise [p = yi.then(res => { promises.delete(p); return res })],
    numbered in the order of creation, with what [yi] settles to. *)
Inductive Slot :=
| Direct (yi : Val)
| Deferred (p : nat) (fulfils : bool) (res : Val).

Definition slotValue (slot : Slot) : Val :=
  match slot with
  | Direct yi => yi
  | Deferred _ _ res => res
  end.

(** Where the function is: in the loop, suspended at
    [await Promise.race(promises)] (and whether the race has been won),
    returned with [Promise.all(y)] not yet settled, or settled. *)
Inductive Control :=
| Running
| Racing (won : bool)
| Joining
| Fulfilled (result : list Val)
| Failed (e : Val).

Record State := mkState {
  todo : list Val;          (* what the iterator of [x] has yet to yield *)
  y : list Slot;            (* const y = [] *)
  promises : gset nat;      (* const promises = new Set() *)
  rejected : gset nat;      (* the members of [promises] that have rejected *)
  removed : list nat;       (* the calls [promises.delete(p)] so far, in order *)
  issued : nat;             (* how many promises [p] were created *)
  ctl : Control
}.

Definition temporalDeadZone : Val :=
  VError ReferenceError "Cannot access 'p' before initialization".

Definition awaiting (c : Control) : bool :=
  match c with
  | Racing _ | Joining => true
  | _ => false
  end.

Section Machine.

(** The concurrency limit and the mapper. *)
Variable poolSize : nat.
Variable f : Fn.

(** lines 820-821 *)
Definition start (x : Val) : State :=
  mkState (iterate x) [] ∅ ∅ [] 0 Running.

(** lines 826-836: apply the mapper to [xi] and record the result.  A
    [SyncThenable] runs the continuation within [then], before [p] is
    initialised. *)
Definition dispatch (s : State) (xi : Val) (rest : list Val) : State :=
  match f [xi] with
  | VPromise _ fulfils res =>
      mkState rest (y s ++ [Deferred (issued s) fulfils res])
        (promises s ∪ {[issued s]}) (rejected s) (removed s) (S (issued s)) Running
  | VSyncThenable _ =>
      mkState rest (y s) (promises s) (rejected s) (removed s) (issued s)
        (Failed temporalDeadZone)
  | yi =>
      mkState rest (y s ++ [Direct yi]) (promises s) (rejected s) (removed s)
        (issued s) Running
  end.

Inductive step : State -> State -> Prop :=
| step_dispatch s xi rest :
    (* promises.size < size: no await *)
    ctl s = Running -> todo s = xi :: rest -> size (promises s) < poolSize ->
    step s (dispatch s xi rest)
| step_suspend s xi rest :
    (* promises.size >= size: await Promise.race(promises) *)
    ctl s = Running -> todo s = xi :: rest -> poolSize <= size (promises s) ->
    rejected s = ∅ ->
    step s (mkState (todo s) (y s) (promises s) (rejected s) (removed s) (issued s)
              (Racing false))
| step_suspend_rejected s xi rest p e :
    (* a member of the race has rejected already *)
    ctl s = Running -> todo s = xi :: rest -> poolSize <= size (promises s) ->
    p ∈ rejected s -> Deferred p false e ∈ y s ->
    step s (mkState (todo s) (y s) (promises s) (rejected s) (removed s) (issued s)
              (Failed e))
| step_fulfil s p res :
    (* the continuation of [p]: promises.delete(p); return res *)
    awaiting (ctl s) = true -> p ∈ promises s -> p ∉ rejected s ->
    Deferred p true res ∈ y s ->
    step s (mkState (todo s) (y s) (promises s ∖ {[p]}) (rejected s)
              (removed s ++ [p]) (issued s)
              (match ctl s with Racing _ => Racing true | c => c end))
| step_reject s p e :
    (* [yi] rejects, and [p] with it: the continuation is not run *)
    awaiting (ctl s) = true -> p ∈ promises s -> p ∉ rejected s ->
    Deferred p false e ∈ y s ->
    step s (mkState (todo s) (y s) (promises s) (rejected s ∪ {[p]}) (removed s)
              (issued s)
              (match ctl s with Racing true => Racing true | _ => Failed e end))
| step_resume s xi rest :
    (* the race was won: on with the loop body, no second test *)
    ctl s = Racing true -> todo s = xi :: rest ->
    step s (dispatch s xi rest)
| step_join s :
    (* return Promise.all(y) *)
    ctl s = Running -> todo s = [] -> rejected s = ∅ ->
    step s (mkState [] (y s) (promises s) (rejected s) (removed s) (issued s) Joining)
| step_join_rejected s p e :
    ctl s = Running -> todo s = [] -> p ∈ rejected s -> Deferred p false e ∈ y s ->
    step s (mkState [] (y s) (promises s) (rejected s) (removed s) (issued s)
              (Failed e))
| step_done s :
    (* every element of [y] has settled *)
    ctl s = Joining ->
    (forall p ok res, Deferred p ok res ∈ y s -> p ∈ removed s) ->
    step s (mkState (todo s) (y s) (promises s) (rejected s) (removed s) (issued s)
              (Fulfilled (List.map slotValue (y s)))).

(** The states a run from [start x] goes through. *)
Definition reachable (x : Val) (s : State) : Prop := rtc step (start x) s.

End Machine.

(** [new Set(res)] and [new Map(res)] of [mapPoolSet] and [mapPoolMap]
    (lines 845-854); an element of [res] that is no object is no entry. *)
Definition newSet (res : list Val) : list Val :=
  fold_left (fun acc v => setAdd v acc) res [].

Definition entryObject (v : Val) : Completion (Val * Val) :=
  match v with
  | VUndefined | VNull | VBool _ | VNum _ | VStr _ =>
      Throw (VError TypeError "Iterator value is not an entry object")
  | VArray items | VTyped items => Normal (arg 0 items, arg 1 items)
  | VObject props => Normal (objGet "0" props, objGet "1" props)
  | _ => Normal (VUndefined, VUndefined)
  end.

Definition newMap (res : list Val) : Completion (list (Val * Val)) :=
  fold_left
    (fun acc v =>
       bindC acc (fun entries =>
         bindC (entryObject v) (fun kv => Normal (mapPut (fst kv) (snd kv) entries))))
    res (Normal []).

(** What the promise handed back fulfils with, once the run has fulfilled
    with [result]. *)
Definition poolResult (shape : Shape) (result : list Val) : Completion Val :=
  match shape with
  | Set_ => Normal (VSet (newSet result))
  | Map_ => bindC (newMap result) (fun entries => Normal (VMap entries))
  | _ => Normal (VArray result)
  end.

(** lines 862-878: the shape of the output and the run that was started,
    or the error thrown. *)
Inductive Started :=
| Pooling (shape : Shape) (poolSize : nat) (f : Fn) (s : State)
| PoolThrown (e : Val).

Definition pool (size : Val) (fn : Operand) : Completion (Operand -> Started) :=
  match size with
  | VNum n =>
      if (n <? 1)%Z
      then Throw (VError RangeError "map.pool(size, f); size must be 1 or more")
      else if negb (isFunction (profile fn))
      then Throw (VError TypeError "map.pool(size, f); f is not a function")
      else
        Normal (fun x =>
          if isArray (profile x)
          then Pooling Array (Z.to_nat n) (operandFn fn) (start (operandVal x))
          else if isSet (profile x)
          then Pooling Set_ (Z.to_nat n) (operandFn fn) (start (operandVal x))
          else if isMap (profile x)
          then Pooling Map_ (Z.to_nat n) (operandFn fn) (start (operandVal x))
          else PoolThrown (VError TypeError "map.pool(...)(x); x invalid"))
  | _ => Throw (VError TypeError "map.pool(size, f); invalid size")
  end.

End Pool.

(** * The pool mapper of the modular build: [src/unnamed/part_001]

    [setMapPool] maps the items of a Set one by one for as long as the
    mapper answers at once; with the first promise it hands over to the
    [async] function [_setMapPoolAsync], which is modelled like
    [mapPoolArray] above.  The results are added to the output Set as they
    arrive. *)

Module SetPool.

Inductive Control :=
| Running
| Racing (won : bool)
| Joining (awaited : gset nat)
| Fulfilled (result : list Val)
| Failed (e : Val).

Record State := mkState {
  todo : list Val;                  (* what [iterator] has yet to yield *)
  result : list Val;                (* the items of the Set [result] *)
  fates : gmap nat (bool * Val);    (* what each [resultItem] settles to *)
  promises : gset nat;              (* the Set [promises] *)
  rejected : gset nat;
  removed : list nat;               (* the calls [promises.delete] so far *)
  issued : nat;
  ctl : Control
}.

Definition awaiting (c : Control) : bool :=
  match c with
  | Racing _ | Joining _ => true
  | _ => false
  end.

Inductive Started :=
| ReturnsSet (result : list Val)
| Async (s : State)
| Throws (e : Val).

Section Machine.

Variable concurrency : nat.
Variable f : Fn.
(** The Set [s] that is being mapped. *)
Variable source : Val.

(** lines 29-39 *)
Definition dispatch (s : State) (xi : Val) (rest : list Val) : State :=
  match f [xi; xi; source] with
  | VPromise _ fulfils res =>
      mkState rest (result s) (<[issued s := (fulfils, res)]> (fates s))
        (promises s ∪ {[issued s]}) (rejected s) (removed s) (S (issued s)) Running
  | VSyncThenable _ =>
      mkState rest (result s) (fates s) (promises s) (rejected s) (removed s)
        (issued s) (Failed Pool.temporalDeadZone)
  | resultItem =>
      mkState rest (setAdd resultItem (result s)) (fates s) (promises s)
        (rejected s) (removed s) (issued s) Running
  end.

Inductive step : State -> State -> Prop :=
| step_dispatch s xi rest :
    ctl s = Running -> todo s = xi :: rest -> size (promises s) < concurrency ->
    step s (dispatch s xi rest)
| step_suspend s xi rest :
    (* promises.size >= concurrency: await promiseRace(promises) *)
    ctl s = Running -> todo s = xi :: rest -> concurrency <= size (promises s) ->
    rejected s = ∅ ->
    step s (mkState (todo s) (result s) (fates s) (promises s) (rejected s)
              (removed s) (issued s) (Racing false))
| step_suspend_rejected s xi rest p e :
    ctl s = Running -> todo s = xi :: rest -> concurrency <= size (promises s) ->
    p ∈ rejected s -> fates s !! p = Some (false, e) ->
    step s (mkState (todo s) (result s) (fates s) (promises s) (rejected s)
              (removed s) (issued s) (Failed e))
| step_fulfil s p res :
    (* promises.delete(selfDeletingPromise); result.add(resolvedValue) *)
    awaiting (ctl s) = true -> p ∈ promises s -> p ∉ rejected s ->
    fates s !! p = Some (true, res) ->
    step s (mkState (todo s) (setAdd res (result s)) (fates s) (promises s ∖ {[p]})
              (rejected s) (removed s ++ [p]) (issued s)
              (match ctl s with Racing _ => Racing true | c => c end))
| step_reject s p e :
    awaiting (ctl s) = true -> p ∈ promises s -> p ∉ rejected s ->
    fates s !! p = Some (false, e) ->
    step s (mkState (todo s) (result s) (fates s) (promises s) (rejected s ∪ {[p]})
              (removed s) (issued s)
              (match ctl s with Racing true => Racing true | _ => Failed e end))
| step_resume s xi rest :
    ctl s = Racing true -> todo s = xi :: rest ->
    step s (dispatch s xi rest)
| step_return s :
    (* promises.size > 0 is false: return result *)
    ctl s = Running -> todo s = [] -> promises s = ∅ ->
    step s (mkState [] (result s) (fates s) (promises s) (rejected s) (removed s)
              (issued s) (Fulfilled (result s)))
| step_join s :
    (* await promiseAll(promises) *)
    ctl s = Running -> todo s = [] -> promises s <> ∅ -> rejected s = ∅ ->
    step s (mkState [] (result s) (fates s) (promises s) (rejected s) (removed s)
              (issued s) (Joining (promises s)))
| step_join_rejected s p e :
    ctl s = Running -> todo s = [] -> p ∈ rejected s ->
    fates s !! p = Some (false, e) ->
    step s (mkState [] (result s) (fates s) (promises s) (rejected s) (removed s)
              (issued s) (Failed e))
| step_done s awaited :
    ctl s = Joining awaited -> (forall p, p ∈ awaited -> p ∈ removed s) ->
    step s (mkState (todo s) (result s) (fates s) (promises s) (rejected s)
              (removed s) (issued s) (Fulfilled (result s))).

(** lines 59-78: [setMapPool], up to the call of [_setMapPoolAsync]. *)
Fixpoint setMapPool_from (items : list Val) (result : list Val) : Started :=
  match items with
  | [] => ReturnsSet result
  | xi :: rest =>
      match f [xi; xi; source] with
      | VPromise _ fulfils res =>
          Async (mkState rest result {[0 := (fulfils, res)]} {[0]} ∅ [] 1 Running)
      | VSyncThenable _ => Throws Pool.temporalDeadZone
      | resultItem => setMapPool_from rest (setAdd resultItem result)
      end
  end.

Definition setMapPool : Started := setMapPool_from (iterate source) [].

End Machine.

End SetPool.

(** * The function combinators of [src/index.js]

    [pipe], [fork], [fork.series], [assign], [tap], [tryCatch] and
    [switchCase] (lines 140-605). *)

Module Flow.

(** ** [pipe]

    The functions of a pipe are handed either data (and hand data on) or,
    in transducer position, a reducer (and hand a reducer on).  [Flows V]
    says how the combinators look at the values [V] that flow. *)
Class Flows (V : Type) := {
  flowsIsPromise : V -> bool;       (* isPromise(v) *)
  flowsThen : V -> (V -> V) -> V;   (* v.then(func) *)
  flowsIsReducer : V -> bool        (* isFunction(v) && !isGeneratorFunction(v) *)
}.

(** Data: [then] is that of the promise. *)
#[global] Instance flows_data : Flows Val := {
  flowsIsPromise := isPromise;
  flowsThen := fun v func => valueOf (callThen v (fun res => Normal (func res)));
  flowsIsReducer := fun _ => false
}.

(** Reducers: a reducer is a function that is no generator function, and
    it has no [then]. *)
#[global] Instance flows_reducers : Flows Fn := {
  flowsIsPromise := fun _ => false;
  flowsThen := fun r func => func r;
  flowsIsReducer := fun _ => true
}.

Section Pipe.
Context {V : Type} `{Flows V}.

(** lines 140-145 *)
Definition funcConcat (funcAB funcBC : list V -> V) : list V -> V :=
  fun args =>
    let callAB := funcAB args in
    if flowsIsPromise callAB
    then flowsThen callAB (fun res => funcBC [res])
    else funcBC [callAB].

Definition emptyReduce : Val :=
  VError TypeError "Reduce of empty array with no initial value".

(** [funcs.reduce(funcConcat)] and [funcs.reduceRight(funcConcat)]: with
    no initial value the first (the last) element seeds the fold, and an
    empty array is a [TypeError]. *)
Definition reduceFuncs (funcs : list (list V -> V)) : Completion (list V -> V) :=
  match funcs with
  | [] => Throw emptyReduce
  | first :: rest => Normal (fold_left funcConcat rest first)
  end.

Definition reduceRightFuncs (funcs : list (list V -> V)) : Completion (list V -> V) :=
  match rev funcs with
  | [] => Throw emptyReduce
  | last :: before => Normal (fold_left funcConcat before last)
  end.

(** lines 244-254 *)
Definition pipe (funcs : list (list V -> V)) : Completion (list V -> V) :=
  bindC (reduceFuncs funcs) (fun functionPipeline =>
  bindC (reduceRightFuncs funcs) (fun functionComposition =>
    Normal (fun arguments =>
      match arguments with
      | firstArg :: _ =>
          if flowsIsReducer firstArg then functionComposition arguments
          else functionPipeline arguments
      | [] => functionPipeline arguments
      end))).

End Pipe.

(** ** [fork] *)

(** The operand of [fork]: an array or an object of functions. *)
Inductive Funcs :=
| ArrayOfFuncs (funcs : list Fn)
| ObjectOfFuncs (funcs : list (string * Fn)).

(** lines 264-277: the single-pass loop over the keys of [funcs]. *)
Definition funcObjectAll (funcs : list (string * Fn)) (args : list Val)
  : Completion Val :=
  singlePass (fun kf res output => Normal (objSet (fst kf) res output)) VObject
    (fun kf => snd kf args) funcs [].

(** lines 289-297 *)
Definition funcAll (funcs : list Fn) (args : list Val) : Val :=
  let '(isAsync, output) :=
    fold_left
      (fun '(isAsync, output) func =>
         let outputItem := func args in
         ((if isPromise outputItem then true else isAsync), output ++ [outputItem]))
      funcs (false, []) in
  if isAsync then promiseAll output else VArray output.

(** line 334 *)
Definition fork (funcs : Funcs) (args : list Val) : Completion Val :=
  match funcs with
  | ArrayOfFuncs funcs => Normal (funcAll funcs args)
  | ObjectOfFuncs funcs => funcObjectAll funcs args
  end.

(** lines 347-353: the promise the [async] function returns; [funcs] are
    the functions from [funcsIndex + 1] on, [t] the time reached. *)
Fixpoint asyncFuncAllSeries (funcs : list Fn) (args : list Val) (t : nat)
  (output : list Val) : Val :=
  match funcs with
  | [] => VPromise t true (VArray output)
  | func :: rest =>
      let outputItem := func args in
      if rejects outputItem then VPromise (t + delayOf outputItem) false (settled outputItem)
      else asyncFuncAllSeries rest args (t + delayOf outputItem)
             (output ++ [settled outputItem])
  end.

(** lines 365-379; [funcs] are the functions from [funcsIndex + 1] on. *)
Fixpoint funcAllSeries_from (funcs : list Fn) (args : list Val) (output : list Val)
  : Val :=
  match funcs with
  | [] => VArray output
  | func :: rest =>
      let outputItem := func args in
      if isPromise outputItem
      then valueOf (callThen outputItem (fun res =>
                      Normal (asyncFuncAllSeries rest args 0 (output ++ [res]))))
      else funcAllSeries_from rest args (output ++ [outputItem])
  end.

Definition funcAllSeries (funcs : list Fn) (args : list Val) : Val :=
  funcAllSeries_from funcs args [].

(** ** [assign] *)

(** The own enumerable properties that [{ ...value }] copies: those of an
    object, the indices of an array, of a typed array or of a string, the
    field of a [SyncThenable]; a Set, a Map, an error, a generator object,
    a promise and the primitives have none. *)
Definition indexKey (i : nat) : string := NilZero.string_of_uint (Nat.to_uint i).

Definition indexed (items : list Val) : list (string * Val) :=
  imap (fun i v => (indexKey i, v)) items.

Definition ownEnumerable (value : Val) : list (string * Val) :=
  match value with
  | VObject props => props
  | VArray items | VTyped items => indexed items
  | VStr s => indexed (List.map VStr (codeUnits s))
  | VSyncThenable v => [("value", v)]
  | _ => []
  end.

Definition copyInto (y : list (string * Val)) (value : Val) : list (string * Val) :=
  fold_left (fun y kv => objSet (fst kv) (snd kv) y) (ownEnumerable value) y.

(** [{ ...input, ...output }] *)
Definition objectSpread (input output : Val) : Val :=
  VObject (copyInto (copyInto [] input) output).

(** lines 442-450 *)
Definition assign (funcs : list (string * Fn)) (args : list Val) : Completion Val :=
  let input := arg 0 args in
  bindC (funcObjectAll funcs [input]) (fun output =>
    if isPromise output
    then callThen output (fun res => Normal (objectSpread input res))
    else Normal (objectSpread input output)).

(** ** [tap] *)

(** lines 473-476 *)
Definition tap (func : Fn) (args : list Val) : Val :=
  let input := arg 0 args in
  let call := func [input] in
  if isPromise call then valueOf (callThen call (fun _ => Normal input)) else input.

(** ** [tryCatch] *)

(** A user function that may throw. *)
Definition Throwing : Type := list Val -> Completion Val.

Definition noCatch : Val := VError TypeError "output.catch is not a function".

(** lines 542-550.  [output.catch(handler)] hands a fulfilment on; a
    [SyncThenable] has no [catch], and calling it throws inside the
    [try]. *)
Definition tryCatch (tryer catcher : Throwing) (args : list Val) : Completion Val :=
  match tryer args with
  | Normal output =>
      if isPromise output
      then match output with
           | VPromise t false err => Normal (resolveWith t (catcher (err :: args)))
           | VPromise _ true _ => Normal output
           | _ => catcher (noCatch :: args)
           end
      else Normal output
  | Throw err => catcher (err :: args)
  end.

(** ** [switchCase] *)

Definition notAFunction : Val :=
  VError TypeError "funcs[funcsIndex] is not a function".

(** lines 562-570: the promise the [async] function returns; [funcs] are
    the functions from [funcsIndex + 2] on. *)
Fixpoint asyncFuncSwitch (funcs : list Fn) (args : list Val) (t : nat) : Val :=
  match funcs with
  | [] => VPromise t false notAFunction
  | [last] => resolveWith t (Normal (last args))
  | cond :: next :: rest =>
      let shouldReturnNext := cond args in
      if rejects shouldReturnNext
      then VPromise (t + delayOf shouldReturnNext) false (settled shouldReturnNext)
      else if truthy (settled shouldReturnNext)
      then resolveWith (t + delayOf shouldReturnNext) (Normal (next args))
      else asyncFuncSwitch rest args (t + delayOf shouldReturnNext)
  end.

(** lines 580-596; [funcs] are the functions from [funcsIndex + 2] on.
    Past the end of the array [funcs[funcsIndex]] is [undefined], and
    calling it throws. *)
Fixpoint funcConditional (funcs : list Fn) (args : list Val) : Completion Val :=
  match funcs with
  | [] => Throw notAFunction
  | [last] => Normal (last args)
  | cond :: next :: rest =>
      let shouldReturnNext := cond args in
      if isPromise shouldReturnNext
      then callThen shouldReturnNext (fun res =>
             Normal (if truthy res then next args else asyncFuncSwitch rest args 0))
      else if truthy shouldReturnNext then Normal (next args)
      else funcConditional rest args
  end.

(** line 605 *)
Definition switchCase : list Fn -> list Val -> Completion Val := funcConditional.

End Flow.

(** * The variants of [map] and [filter] of [src/index.js]

    [map.series], [map.withIndex] and [filter.withIndex]. *)

Module Variants.

(** [y.concat(res)]: an array argument is spread, anything else is
    appended. *)
Definition concat (y : list Val) (res : Val) : list Val :=
  match res with
  | VArray items => y ++ items
  | _ => y ++ [res]
  end.

(** lines 789-795; [x] are the elements from index [i] on. *)
Fixpoint mapSeriesArray (f : Fn) (x : list Val) (y : list Val) : Val :=
  match x with
  | [] => VArray y
  | xi :: rest =>
      valueOf (possiblePromiseThen (f [xi])
                 (fun res => Normal (mapSeriesArray f rest (concat y res))))
  end.

(** lines 801-809 *)
Definition series (f : Operand) : Completion (Operand -> Out) :=
  if negb (isFunction (profile f))
  then Throw (VError TypeError "map.series(f); f is not a function")
  else
    Normal (fun x =>
      if isArray (profile x)
      then Returned (mapSeriesArray (operandFn f) (iterate (operandVal x)) [])
      else Thrown (VError TypeError "map.series(...)(x); x invalid")).

(** The loop shared by [mapArrayWithIndex], [mapIterableWithIndexToArray]
    (lines 887-915) and [createFilterWithIndexIndex] (lines 1118-1128):
    the results of [fn(xi, i, x)], and whether one of them is a promise. *)
Definition collectWithIndex (fn : Fn) (x : Val) : bool * list Val :=
  let '(isAsync, y, _) :=
    fold_left
      (fun '(isAsync, y, i) xi =>
         let point := fn [xi; VNum i; x] in
         ((if isPromise point then true else isAsync), y ++ [point], (i + 1)%Z))
      (iterate x) (false, [], 0%Z) in
  (isAsync, y).

(** lines 887-895 *)
Definition mapArrayWithIndex (fn : Fn) (x : Val) : Val :=
  let '(isAsync, y) := collectWithIndex fn x in
  if isAsync then promiseAll y else VArray y.

(** lines 904-915 *)
Definition mapIterableWithIndexToArray (fn : Fn) (x : Val) : Val :=
  let '(isAsync, primer) := collectWithIndex fn x in
  if isAsync then promiseAll primer else VArray primer.

Section WithIndex.
Variable join : list Val -> string.

(** lines 921-924 *)
Definition mapStringWithIndex (f : Fn) (x : Val) : Completion Val :=
  possiblePromiseThen (mapIterableWithIndexToArray f x)
    (fun res => Normal (VStr (join (iterate res)))).

(** lines 934-943 *)
Definition mapWithIndex (fn : Operand) : Completion (Operand -> Out) :=
  if negb (isFunction (profile fn))
  then Throw (VError TypeError "map.withIndex(x); x is not a function")
  else
    Normal (fun x =>
      if isArray (profile x)
      then Returned (mapArrayWithIndex (operandFn fn) (operandVal x))
      else if isString (profile x)
      then ofCompletion (mapStringWithIndex (operandFn fn) (operandVal x))
      else Thrown (VError TypeError "map.withIndex(...)(x); x invalid")).

End WithIndex.

(** lines 1118-1128 *)
Definition createFilterWithIndexIndex (predicate : Fn) (x : Val) : Val :=
  let '(isAsync, filterIndex) := collectWithIndex predicate x in
  if isAsync then promiseAll filterIndex else VArray filterIndex.

(** lines 1134-1137 *)
Definition filterArrayWithIndex (predicate : Fn) (x : Val) : Completion Val :=
  possiblePromiseThen (createFilterWithIndexIndex predicate x)
    (fun res => Normal (VArray (Index.keepWhere (iterate res) (iterate x)))).

(** lines 1143-1146 *)
Definition filterStringWithIndex (predicate : Fn) (x : Val) : Completion Val :=
  possiblePromiseThen (createFilterWithIndexIndex predicate x)
    (fun res =>
       Normal (VStr (Index.filterStringFromIndex (iterate res) (Index.stringOf x)))).

(** lines 1153-1162 *)
Definition filterWithIndex (fn : Operand) : Completion (Operand -> Out) :=
  if negb (isFunction (profile fn))
  then Throw (VError TypeError "filter.withIndex(f); f is not a function")
  else
    Normal (fun x =>
      if isArray (profile x)
      then ofCompletion (filterArrayWithIndex (operandFn fn) (operandVal x))
      else if isString (profile x)
      then ofCompletion (filterStringWithIndex (operandFn fn) (operandVal x))
      else Thrown (VError TypeError "filter.withIndex(...)(x); x invalid")).

End Variants.

(** * [flatMap] of [src/index.js] *)

Module FlatMap.

(** lines 1485-1492: the elements of an array and the items of an iterable
    are pushed one by one, anything else is pushed as it is. *)
Definition arrayFlatten (x : list Val) : list Val :=
  fold_left
    (fun y xi =>
       if isArray (profileVal xi) then y ++ iterate xi
       else if isIterable (profileVal xi) then y ++ iterate xi
       else y ++ [xi])
    x [].

(** lines 1504-1514, for [method] the [add] of a Set *)
Definition genericFlatten_add (y : list Val) (x : list Val) : list Val :=
  fold_left
    (fun y xi =>
       if isIterable (profileVal xi)
       then fold_left (fun y v => setAdd v y) (iterate xi) y
       else setAdd xi y)
    x y.

(** lines 1525-1526 *)
Definition flatMapArray (func : Fn) (arr : Val) : Completion Val :=
  possiblePromiseThen (Index.mapArray func arr)
    (fun res => Normal (VArray (arrayFlatten (iterate res)))).

(** lines 1537-1540 *)
Definition flatMapSet (func : Fn) (set : Val) : Completion Val :=
  bindC (Index.mapSet func set) (fun mapped =>
    possiblePromiseThen mapped
      (fun res => Normal (VSet (genericFlatten_add [] (iterate res))))).

(** lines 1551-1552: [reduce(reducer, aggregate)] is what the result of
    [func] is handed to; it may throw. *)
Definition flatMapReducer (func reducer : Fn) : list Val -> Completion Val :=
  fun args =>
    let aggregate := arg 0 args in
    let value := arg 1 args in
    bindC (Index.reduce (Func reducer) (Data aggregate)) (fun reducing =>
      possiblePromiseThen (func [value])
        (fun res =>
           match reducing (Data res) with
           | Returned v => Normal v
           | Thrown e => Throw e
           | _ => Normal VUndefined
           end)).

(** What [flatMap(func)] hands back. *)
Inductive Flat :=
| FlatCompleted (c : Completion Val)
| FlatReducer (r : list Val -> Completion Val).

(** lines 1587-1597 *)
Definition flatMap (func : Operand) : Completion (Operand -> Flat) :=
  if negb (isFunction (profile func))
  then Throw (VError TypeError "flatMap(func); func is not a function")
  else
    Normal (fun value =>
      if isArray (profile value)
      then FlatCompleted (flatMapArray (operandFn func) (operandVal value))
      else if isSet (profile value)
      then FlatCompleted (flatMapSet (operandFn func) (operandVal value))
      else if isFunction (profile value)
      then FlatReducer (flatMapReducer (operandFn func) (operandFn value))
      else FlatCompleted (Throw (VError TypeError "flatMap(...)(value); invalid value"))).

End FlatMap.

(** * The quantifiers and connectives of [src/index.js]

    [any], [all], [and], [or] and [not] (lines 1716-1877). *)

Module Logical.

(** [Promise.all(promises).then(res => finish(res))] *)
Definition allThen (promises : list Val) (finish : list Val -> Val) : Val :=
  valueOf (callThen (promiseAll promises) (fun res => Normal (finish (iterate res)))).

Definition every (res : list Val) : Val := VBool (forallb truthy res).


(** lines 1758-1770 and 1800-1812 *)
Fixpoint allPoints (points : list Val) (promises : list Val) : Val :=
  match points with
  | [] =>
      match promises with
      | [] => VBool true
      | _ :: _ => allThen promises every
      end
  | point :: rest =>
      if isPromise point then allPoints rest (promises ++ [point])
      else if negb (truthy point)
      then match promises with
           | [] => VBool false
           | _ :: _ => allThen promises (fun _ => VBool false)
           end
      else allPoints rest promises
  end.


Definition allIterable (fn : Fn) (x : Val) : Val :=
  allPoints (List.map (fun xi => fn [xi]) (iterate x)) [].


Definition allObject (fn : Fn) (x : Val) : Val :=
  allIterable fn (VIter (List.map (Index.getProp x) (Index.ownKeys x))).


(** lines 1785-1794 *)
Definition all (fn : Operand) : Completion (Operand -> Out) :=
  if negb (isFunction (profile fn))
  then Throw (VError TypeError "all(x); x is not a function")
  else
    Normal (fun x =>
      if isIterable (profile x) then Returned (allIterable (operandFn fn) (operandVal x))
      else if isObject (profile x) then Returned (allObject (operandFn fn) (operandVal x))
      else Thrown (VError TypeError "all(...)(x); x invalid")).






End Logical.

(** * The vocabulary of the properties *)

(** ** Applying operators *)

(** [operator(x)] for a configured operator, and what it handed back used
    as the operand of the next operator. *)
Definition applyOp (configured : Completion (Operand -> Out)) (x : Operand) : Out :=
  match configured with
  | Normal unary => unary x
  | Throw e => Thrown e
  end.

Definition asOperand (o : Out) : Operand :=
  match o with
  | Returned v => Data v
  | ReturnedReducer r => Func r
  | _ => Data VUndefined
  end.

(** No initial value supplied: the parameter [init] is [undefined]. *)
Definition noInit : Operand := Data VUndefined.

(** ** Functions and values of the examples *)

(** [x => x], also [(y, xi) => y] *)
Definition identity : Fn := fun args => arg 0 args.

(** [() => v] *)
Definition always (v : Val) : Fn := fun _ => v.

(** [n => n * 2] *)
Definition double : Fn :=
  fun args => match arg 0 args with VNum n => VNum (2 * n) | _ => VNull end.

(** [n => n % 2 == 1] *)
Definition isOdd : Fn :=
  fun args => match arg 0 args with VNum n => VBool (Z.odd n) | _ => VBool false end.

(** [(a, b) => a + b] *)
Definition add : Fn :=
  fun args =>
    match arg 0 args, arg 1 args with
    | VNum a, VNum b => VNum (a + b)
    | _, _ => VNull
    end.


(** A predicate that answers with a promise for 3 and with [true] otherwise. *)
Definition pendingOnThree : Fn :=
  fun args =>
    if bool_decide (arg 0 args = VNum 3) then VPromise 1 true (VBool true)
    else VBool true.

(** An asynchronous doubling: [n] is doubled after [n] turns. *)
Definition pendingDouble : Fn :=
  fun args =>
    match arg 0 args with
    | VNum n => VPromise (Z.to_nat n) true (VNum (2 * n))
    | _ => VNull
    end.

(** An asynchronous identity that takes the longer the smaller its argument. *)
Definition delayed : Fn :=
  fun args =>
    match arg 0 args with
    | VNum k => VPromise (Z.to_nat (10 - k)) true (VNum k)
    | _ => VNull
    end.

Definition oneToFive : Val := VArray [VNum 1; VNum 2; VNum 3; VNum 4; VNum 5].

(** A plain object literal that carries a [Symbol.iterator] method and no
    [next]: [{ [Symbol.iterator]: function* () { yield 1 } }]. *)
Definition customIterable : Profile :=
  mkProfile false TyObject false false CtorObject true false true false false false
    false false.

(** ** Operands *)


(** The empty containers [reduce] accepts. *)
Inductive EmptyContainer : Val -> Prop :=
| empty_array : EmptyContainer (VArray [])
| empty_string : EmptyContainer (VStr "")
| empty_typed : EmptyContainer (VTyped [])
| empty_set : EmptyContainer (VSet [])
| empty_map : EmptyContainer (VMap [])
| empty_iterator : EmptyContainer (VIter [])
| empty_object : EmptyContainer (VObject []).


(** The generator [filterIterable] returns, suspended over [rest]. *)
Definition filtering (predicate : Fn) (rest : list Val) : Generator :=
  mkGenerator (Index.filterIterable_resume predicate) (Suspended rest).

(** ** Transducers *)

(** A function that never answers with a pending result. *)
Definition synchronous (f : Fn) : Prop :=
  forall args, isPromise (f args) = false.

(** A reducer that answers at once as long as its accumulator is no
    pending result. *)
Definition synchronousReducer (r : Fn) : Prop :=
  forall y xi, isPromise y = false -> isPromise (r [y; xi]) = false.

(** The reducer that appends: [(y, xi) => { y.push(xi); return y }]
    (index.js, line 1294). *)
Definition pushReducer : Fn :=
  fun args =>
    match arg 0 args with
    | VArray items => VArray (items ++ [arg 1 args])
    | y => y
    end.

(** A reducer that appends its element to the accumulator, at once or
    through a promise that fulfils. *)
Definition appends (r : Fn) : Prop :=
  forall acc v,
    settled (r [VArray acc; v]) = VArray (acc ++ [v])
    /\ rejects (r [VArray acc; v]) = false.

Section TransducerTerms.
Variable join : list Val -> string.
Variable typedFrom : list Val -> list Val.

(** [reduce(filter(p)(map(f)(r)), [])(x)] *)
Definition transduced (f p r : Fn) (x : Val) : Out :=
  applyOp
    (Index.reduce
       (asOperand
          (applyOp (Index.filter typedFrom (Func p))
             (asOperand (applyOp (Index.map join typedFrom (Func f)) (Func r)))))
       (Data (VArray [])))
    (Data x).

(** [map(f)(filter(p)(x))] *)
Definition containerLevel (f p : Fn) (x : Val) : Out :=
  applyOp (Index.map join typedFrom (Func f))
    (asOperand (applyOp (Index.filter typedFrom (Func p)) (Data x))).

End TransducerTerms.

(** ** Duality *)




(** The entry [map.set(...res)] writes. *)
Definition entryOf (res : Val) : Val * Val :=
  (arg 0 (iterate res), arg 1 (iterate res)).


(** [v] is the container of the shape of [c] that holds what the
    applications of [f] deliver: position by position for the ordered
    shapes, element for element for a Set, entry for entry for a Map, and
    property for property for an object. *)
Definition resolvedImage
  (join : list Val -> string) (typedFrom : list Val -> list Val)
  (f : Fn) (c v : Val) : Prop :=
  match c with
  | VArray items => v = VArray (List.map (fun xi => settled (f [xi])) items)
  | VStr s => v = VStr (join (List.map (fun xi => settled (f [xi])) (chars s)))
  | VTyped items =>
      v = VTyped (typedFrom (List.map (fun xi => settled (f [xi])) items))
  | VSet items =>
      exists ys, v = VSet ys /\ NoDup ys
        /\ forall y, y ∈ ys <-> exists xi, xi ∈ items /\ y = settled (f [xi])
  | VMap _ =>
      exists entries, v = VMap entries
        /\ (forall kv, kv ∈ entries ->
              exists e, e ∈ iterate c /\ kv = entryOf (settled (f [e])))
        /\ (forall e, e ∈ iterate c ->
              fst (entryOf (settled (f [e]))) ∈ List.map fst entries)
  | VObject props =>
      exists props', v = VObject props'
        /\ (forall k, k ∈ List.map fst props' <-> k ∈ List.map fst props)
        /\ (forall k, k ∈ List.map fst props ->
              objGet k props' = settled (f [objGet k props]))
  | _ => False
  end.

(** What the duality of an operator says of one application: handed back
    at once when no point is pending, as a promise when one is, which
    fulfils with the image when no point rejects. *)
Definition dual (out : Out) (points : list Val) (image : Val -> Prop) : Prop :=
  (Forall (fun pt => isPromise pt = false) points ->
     isPending out = false /\ exists v, out = Returned v /\ image v)
  /\ (Exists (fun pt => isPromise pt = true) points ->
      exists t ok v,
        out = Returned (VPromise t ok v)
        /\ (Forall (fun pt => rejects pt = false) points -> ok = true /\ image v)).

(** ** The single-pass loop, taken apart *)

Section SinglePassTerms.
Context {K Y : Type}.
Variable commit : K -> Val -> Y -> Completion Y.
Variable visit : K -> Val.
Variable c : K -> Val -> Y -> Y.

Definition commitPair (y : Y) (kr : K * Val) : Y := c (fst kr) (snd kr) y.

(** The commits the loop itself performs, and the entries it pushes. *)
Definition syncPairs (keys : list K) : list (K * Val) :=
  flat_map (fun k => match visit k with
                     | VPromise _ _ _ => []
                     | v => [(k, settled v)]
                     end) keys.

Definition eventsOf (keys : list K) : list (nat * Event (K := K)) :=
  flat_map (fun k => match visit k with
                     | VPromise t true res => [(t, Commit k res)]
                     | VPromise t false e => [(t, Fail e)]
                     | VSyncThenable _ => [(0, Skip)]
                     | _ => []
                     end) keys.

(** The commits that continuations perform. *)
Definition commitsOf (events : list (nat * Event (K := K))) : list (K * Val) :=
  flat_map (fun ev => match snd ev with
                      | Commit k res => [(k, res)]
                      | _ => []
                      end) events.

(** The commit of what key [k] delivers completes normally, as [c]. *)
Definition commits (k : K) : Prop :=
  forall y, commit k (settled (visit k)) y = Normal (c k (settled (visit k)) y).

(** An entry that does not make [Promise.all] reject. *)
Definition benign (ev : nat * Event (K := K)) : Prop :=
  match snd ev with
  | Commit k res => forall y, commit k res y = Normal (c k res y)
  | Fail _ => False
  | Skip => True
  end.

End SinglePassTerms.

(** ** Invariants of the runs of [mapPoolArray] *)

Section PoolInvariants.
Import Pool.
Variable poolSize : nat.
Variable f : Fn.

(** The in-flight set is never over the limit; when the race has been won
    there is room for one more, and while it has not the pool is full. *)
Record bounded (s : State) : Prop := {
  bound_size : size (promises s) <= poolSize;
  bound_won : ctl s = Racing true -> size (promises s) < poolSize;
  bound_full : ctl s = Racing false -> poolSize <= size (promises s)
}.

(** The promises created so far are those in the set and those removed;
    none was removed twice, none is both in the set and removed, each has
    its slot in [y]; and when the run has fulfilled all were removed. *)
Record bookkeeping (s : State) : Prop := {
  bk_in : forall p, p ∈ promises s -> p < issued s;
  bk_nodup : NoDup (removed s);
  bk_removed_lt : forall p, p ∈ removed s -> p < issued s;
  bk_removed_out : forall p, p ∈ removed s -> p ∉ promises s;
  bk_all : forall p, p < issued s -> p ∈ promises s \/ p ∈ removed s;
  bk_rejected : rejected s ⊆ promises s;
  bk_slot_lt : forall p ok res, Deferred p ok res ∈ y s -> p < issued s;
  bk_slot : forall p, p < issued s -> exists ok res, Deferred p ok res ∈ y s;
  bk_done : forall result, ctl s = Fulfilled result ->
                           forall p, p < issued s -> p ∈ removed s
}.

(** What [f(xi)] delivers. *)
Definition resolved (xi : Val) : Val := settled (f [xi]).

(** What [y] holds and what is yet to come make up the output, position by
    position. *)
Record output (x : Val) (s : State) : Prop := {
  out_values :
    (forall e, ctl s <> Failed e) ->
    List.map slotValue (y s) ++ List.map resolved (todo s)
    = List.map resolved (iterate x);
  out_racing : forall won, ctl s = Racing won -> todo s <> [];
  out_joining : ctl s = Joining -> todo s = [];
  out_fulfilled :
    forall result, ctl s = Fulfilled result ->
                   result = List.map slotValue (y s) /\ todo s = []
}.

(** The mapper answers with a value or with a native promise that fulfils. *)
Definition settlesWell (v : Val) : bool :=
  match v with
  | VPromise _ ok _ => ok
  | VSyncThenable _ => false
  | _ => true
  end.

(** Nothing has rejected and nothing will. *)
Record healthy (s : State) : Prop := {
  h_todo : Forall (fun xi => settlesWell (f [xi]) = true) (todo s);
  h_slots : forall p ok res, Deferred p ok res ∈ y s -> ok = true;
  h_rejected : rejected s = ∅;
  h_alive : forall e, ctl s <> Failed e
}.

(** How far a run is from its end. *)
Definition weight (c : Control) : nat :=
  match c with
  | Running => 3
  | Racing _ => 2
  | Joining => 1
  | _ => 0
  end.

Definition measure (s : State) : nat :=
  4 * length (todo s) + 2 * size (promises s ∖ rejected s) + weight (ctl s).

End PoolInvariants.

(** The containers [map.pool] of [index.js] accepts. *)
Definition poolable (x : Val) : Prop :=
  match x with
  | VArray _ | VSet _ | VMap _ => True
  | _ => False
  end.

Definition shapeOfPoolable (x : Val) : Shape :=
  match x with
  | VSet _ => Set_
  | VMap _ => Map_
  | _ => Array
  end.

(** ** Invariants of the runs of [_setMapPoolAsync] *)

Section SetPoolInvariants.
Import SetPool.
Variable concurrency : nat.

Record sbounded (s : State) : Prop := {
  sbound_size : size (promises s) <= concurrency;
  sbound_won : ctl s = Racing true -> size (promises s) < concurrency
}.

Record sbookkeeping (s : State) : Prop := {
  sbk_in : forall p, p ∈ promises s -> p < issued s;
  sbk_nodup : NoDup (removed s);
  sbk_removed_lt : forall p, p ∈ removed s -> p < issued s;
  sbk_removed_out : forall p, p ∈ removed s -> p ∉ promises s;
  sbk_all : forall p, p < issued s -> p ∈ promises s \/ p ∈ removed s;
  sbk_rejected : rejected s ⊆ promises s;
  sbk_joined : forall awaited, ctl s = Joining awaited -> promises s ⊆ awaited;
  sbk_done : forall result, ctl s = Fulfilled result ->
                            forall p, p < issued s -> p ∈ removed s
}.

End SetPoolInvariants.

(** ** Pipes *)

(** What each function of a pipe returns, the one before it having
    delivered [v]; and what the last one delivers. *)
Fixpoint stages (funcs : list Fn) (v : Val) : list Val :=
  match funcs with
  | [] => []
  | func :: rest => func [v] :: stages rest (settled (func [v]))
  end.

Definition chain (funcs : list Fn) (v : Val) : Val :=
  fold_left (fun acc func => settled (func [acc])) funcs v.

Definition totalDelay (results : list Val) : nat :=
  fold_right (fun r t => delayOf r + t) 0 results.

(** An operator of the library in transducer position. *)
Definition transducer (op : Completion (Operand -> Out)) : list Fn -> Fn :=
  fun reducers =>
    operandFn (asOperand (applyOp op (Func (nth 0 reducers (fun _ => VUndefined))))).

(** ** Forks *)

(** What the functions of a fork return, and the object that holds under
    every key what the function of that key delivers. *)
Definition forkPoints (funcs : list (string * Fn)) (args : list Val) : list Val :=
  List.map (fun kf => snd kf args) funcs.

Definition forkImage (funcs : list (string * Fn)) (args : list Val) (v : Val) : Prop :=
  exists props,
    v = VObject props
    /\ NoDup (List.map fst props)
    /\ (forall k, k ∈ List.map fst props <-> k ∈ List.map fst funcs)
    /\ (forall k func, (k, func) ∈ funcs -> objGet k props = settled (func args)).

(** ** [assign] *)

(** The object that has the properties of [props], those that [funcs]
    names holding what the function of that name delivers for the object,
    and the others as they were. *)
Definition assignImage (funcs : list (string * Fn)) (props : list (string * Val))
  (v : Val) : Prop :=
  exists props',
    v = VObject props'
    /\ (forall k, k ∈ List.map fst props'
                  <-> k ∈ List.map fst props \/ k ∈ List.map fst funcs)
    /\ (forall k func, (k, func) ∈ funcs ->
                       objGet k props' = settled (func [VObject props]))
    /\ (forall k, k ∉ List.map fst funcs -> objGet k props' = objGet k props).

(** ** [tryCatch] and [switchCase] *)

(** A completion that delivers what [v] delivers, and one that fails with
    [e]: thrown, or a promise that rejects. *)
Definition delivers (c : Completion Val) (v : Val) : Prop :=
  exists r, c = Normal r /\ settled r = settled v /\ rejects r = rejects v.

Definition fails (c : Completion Val) (e : Val) : Prop :=
  c = Throw e \/ exists t, c = Normal (VPromise t false e).

(** The conditions that are tried, in order, up to the first that delivers
    a truthy value; and what the function that is selected returns. *)
Fixpoint tried (funcs : list Fn) (args : list Val) : list Val :=
  match funcs with
  | cond :: _ :: rest =>
      cond args :: (if truthy (settled (cond args)) then [] else tried rest args)
  | _ => []
  end.

Fixpoint chosen (funcs : list Fn) (args : list Val) : option Val :=
  match funcs with
  | [] => None
  | [last] => Some (last args)
  | cond :: next :: rest =>
      if truthy (settled (cond args)) then Some (next args) else chosen rest args
  end.

(** [() => { throw e }] and [() => v] *)
Definition failing (e : Val) : Flow.Throwing := fun _ => Throw e.
Definition recovering (v : Val) : Flow.Throwing := fun _ => Normal v.

(** [x => x > n] and [() => v] as the functions of a [switchCase] *)
Definition greaterThan (n : Z) : Fn :=
  fun args => match arg 0 args with VNum x => VBool (n <? x)%Z | _ => VBool false end.

(** ** The variants of [map] and [filter] *)

(** What [y.concat(res)] appends to [y]. *)
Definition spreadable (res : Val) : list Val :=
  match res with
  | VArray items => items
  | _ => [res]
  end.

Definition isArrayVal (v : Val) : bool :=
  match v with VArray _ => true | _ => false end.

(** [x => [x, x]] *)
Definition twice : Fn := fun args => VArray [arg 0 args; arg 0 args].

(** What [fn(xi, i, x)] returns for the items of [x], in order. *)
Definition indexedPoints (fn : Fn) (x : Val) : list Val :=
  imap (fun i xi => fn [xi; VNum (Z.of_nat i); x]) (iterate x).

(** The items of [x] for which what [predicate(xi, i, x)] delivers is
    truthy, in their order. *)
Definition keptWithIndex (predicate : Fn) (x : Val) : list Val :=
  List.map snd
    (List.filter
       (fun ix => truthy (settled (predicate [snd ix; VNum (Z.of_nat (fst ix)); x])))
       (imap pair (iterate x))).

(** [(item, index, array) => item !== array[index + 1]] *)
Definition differsFromNext : Fn :=
  fun args =>
    match arg 1 args, arg 2 args with
    | VNum i, VArray items =>
        VBool (negb (bool_decide (arg 0 args = nth (Z.to_nat (i + 1)) items VUndefined)))
    | _, _ => VBool true
    end.

(** ** Quantifiers and connectives *)






(** ** [flatMap] *)

(** What one result contributes to the flattened array: its own elements
    when it is an array or another iterable (the characters of a string,
    the entries of a Map), and itself otherwise. *)
Definition flatItems (res : Val) : list Val :=
  match res with
  | VArray _ | VTyped _ | VSet _ | VMap _ | VIter _ | VStr _ => iterate res
  | _ => [res]
  end.

(** [x => [x]] *)
Definition wrap : Fn := fun args => VArray [arg 0 args].

(** ** Filtering the eager containers *)

(** Strings put one after the other. *)
Definition joined (parts : list string) : string :=
  fold_right String.append EmptyString parts.

(** The characters of a string that [keep] holds of. *)
Definition keepChars (keep : Val -> bool) (s : string) : string :=
  joined (List.filter (fun g => keep (VStr g)) (codePoints s)).





(** The container of the shape of [c] with the elements of [c] that [keep]
    holds of, in the order of [c]: for a Map [keep] is asked of the entry
    [[key, value]], for an object of the value of the property. *)
Definition kept (typedFrom : list Val -> list Val) (keep : Val -> bool) (c : Val) : Val :=
  match c with
  | VArray items => VArray (List.filter keep items)
  | VStr s => VStr (keepChars keep s)
  | VTyped items => VTyped (typedFrom (List.filter keep items))
  | VSet items => VSet (List.filter keep items)
  | VMap entries =>
      VMap (List.filter (fun kv => keep (VArray [fst kv; snd kv])) entries)
  | VObject props => VObject (List.filter (fun kv => keep (snd kv)) props)
  | _ => c
  end.


(** ** Folding *)

(** What the reducer returns step by step, each step being handed what
    the step before delivered; and what the last step delivers. *)
Fixpoint steps (f : Fn) (y : Val) (items : list Val) : list Val :=
  match items with
  | [] => []
  | xi :: rest => f [y; xi] :: steps f (settled (f [y; xi])) rest
  end.

Definition folded (f : Fn) (y : Val) (items : list Val) : Val :=
  fold_left (fun y xi => settled (f [y; xi])) items y.




(** ** Lazy sequences *)

(** What [k] pulls give on a sequence that yields [values] and then
    completes. *)
Definition pulled (k : nat) (values : list Val) : list Pull :=
  List.map Yield (firstn k values) ++ repeat Done (k - length values).

(** ** What the runs of [_setMapPoolAsync] collect *)

Section SetPoolOutput.
Import SetPool.
Variable concurrency : nat.
Variable f : Fn.
Variable source : Val.







End SetPoolOutput.

(** * Properties *)

(** ** Dispatch *)

Lemma map_route_firstMatch (x : Profile) :
  Index.map_route x = firstMatch precedence x.
Proof.
  unfold Index.map_route, precedence; cbn [firstMatch recognises].
  repeat match goal with |- context [if ?b then _ else _] => destruct b end;
    reflexivity.
Qed.

Lemma filter_route_firstMatch (x : Profile) :
  Index.filter_route x = firstMatch precedence x.
Proof.
  unfold Index.filter_route, precedence; cbn [firstMatch recognises].
  repeat match goal with |- context [if ?b then _ else _] => destruct b end;
    reflexivity.
Qed.

Lemma firstMatch_sound (order : list Shape) (x : Profile) (s : Shape) :
  firstMatch order x = To s -> recognises s x = true /\ In s order.
Proof.
  induction order as [|s' rest IH]; cbn [firstMatch]; [discriminate|].
  destruct (recognises s' x) eqn:E.
  - intros [= <-]. split; [exact E | now left].
  - intros H. destruct (IH H) as [? ?]. split; [assumption | now right].
Qed.

(** C1, as stated, at the front-end of [map.js]: the custom iterable is
    recognised as a synchronous iterable before it is recognised as a plain
    object, but [map.js] hands it to [objectMap]. *)
Lemma dispatch_precedence_fails_in_map_js :
  firstMatch precedence customIterable = To Iterable
  /\ MapJs.map_route customIterable = "objectMap"
  /\ MapJs.shapeOf (MapJs.map_route customIterable) <> firstMatch precedence customIterable.
Proof. repeat split; vm_compute; discriminate. Qed.

(** C1 (amended): the front-ends [map] and [filter] of [index.js] select
    the per-shape implementation by first match in the precedence order
    asynchronous-iterable, array, string, Set, Map, typed array,
    synchronous-iterable, plain object, plain function; and in [index.js]
    as well as in [map.js] and [filter.js] an array input is never routed
    to the generic-iterable path. *)
Theorem dispatch_precedence (x : Profile) :
  Index.map_route x = firstMatch precedence x
  /\ Index.filter_route x = firstMatch precedence x
  /\ (isArray x = true ->
      Index.map_route x <> To Iterable
      /\ Index.filter_route x <> To Iterable
      /\ MapJs.map_route x = "arrayMap"
      /\ FilterJs.filter_route x = "arrayFilter").
Proof.
  split; [apply map_route_firstMatch|].
  split; [apply filter_route_firstMatch|].
  unfold isArray. intros Harr.
  unfold Index.map_route, Index.filter_route, MapJs.map_route, FilterJs.filter_route, isArray.
  rewrite Harr.
  destruct (isAsyncIterable x); repeat split; congruence.
Qed.

Lemma dispatch_precedence_witness :
  isArray (profileVal (VArray [VNum 1])) = true
  /\ Index.map_route (profileVal (VArray [VNum 1])) <> To Iterable.
Proof.
  split; [reflexivity|].
  apply (dispatch_precedence (profileVal (VArray [VNum 1]))). reflexivity.
Defined.

(** ** Invalid operand *)






(** ** The unification helper *)

Lemma firstRejection_none (values : list Val) :
  Forall (fun v => rejects v = false) values -> firstRejection values = None.
Proof.
  induction 1 as [|v rest Hv _ IH]; cbn [firstRejection]; [reflexivity|].
  now rewrite IH, Hv.
Qed.

Lemma firstRejection_rejects (values : list Val) (r : Val) :
  firstRejection values = Some r -> rejects r = true /\ In r values.
Proof.
  revert r. induction values as [|v rest IH]; cbn [firstRejection]; [discriminate|].
  intros r. destruct (firstRejection rest) as [r'|].
  - destruct (IH r' eq_refl) as [Hr' Hin].
    destruct (rejects v) eqn:Hv; cbn [andb].
    + destruct (delayOf v <=? delayOf r'); intros [= <-]; split; auto; now (left + right).
    + intros [= <-]. split; [assumption | now right].
  - destruct (rejects v) eqn:Hv; [|discriminate].
    intros [= <-]. split; [assumption | now left].
Qed.

Lemma promiseAll_fulfils (values : list Val) :
  Forall (fun v => rejects v = false) values ->
  promiseAll values = VPromise (maxDelay values) true (VArray (List.map settled values)).
Proof. intros H. unfold promiseAll. now rewrite (firstRejection_none _ H). Qed.

Lemma promiseAll_is_promise (values : list Val) :
  exists t ok v, promiseAll values = VPromise t ok v.
Proof.
  unfold promiseAll. destruct (firstRejection values); eauto.
Qed.

Lemma existsb_isPromise_false (values : list Val) :
  Forall (fun v => isPromise v = false) values -> existsb isPromise values = false.
Proof.
  induction 1 as [|v rest Hv _ IH]; cbn [existsb]; [reflexivity|].
  now rewrite Hv, IH.
Qed.

Lemma existsb_isPromise_true (values : list Val) :
  Exists (fun v => isPromise v = true) values -> existsb isPromise values = true.
Proof.
  induction 1 as [v rest Hv|v rest _ IH]; cbn [existsb].
  - now rewrite Hv.
  - rewrite IH. apply orb_true_r.
Qed.

(** C8, as stated: two numbers, neither pending, do not come back as the
    array itself but inside a [SyncThenable], which the library's own
    [isPromise] takes for a pending result. *)
Lemma possiblePromiseAll_wraps_synchronous_values :
  possiblePromiseAll [VNum 1; VNum 2] = VSyncThenable (VArray [VNum 1; VNum 2])
  /\ possiblePromiseAll [VNum 1; VNum 2] <> VArray [VNum 1; VNum 2]
  /\ isPromise (possiblePromiseAll [VNum 1; VNum 2]) = true.
Proof. repeat split. discriminate. Qed.

(** C8 (amended): for every ordered sequence of values in which no element
    is a pending result, [possiblePromiseAll] returns a [SyncThenable] that
    holds the sequence itself: its [then(func)] applies [func] to the
    sequence at once and hands back the result of [func] as it is; if at
    least one element is pending it returns a single native promise, which
    fulfils with the ordered sequence of the resolved values when no
    element rejects. *)
Theorem possiblePromiseAll_duality (values : list Val) :
  (Forall (fun v => isPromise v = false) values ->
     possiblePromiseAll values = VSyncThenable (VArray values)
     /\ forall func, callThen (possiblePromiseAll values) func = func (VArray values))
  /\ (Exists (fun v => isPromise v = true) values ->
     (exists t ok v, possiblePromiseAll values = VPromise t ok v)
     /\ (Forall (fun v => rejects v = false) values ->
         possiblePromiseAll values
           = VPromise (maxDelay values) true (VArray (List.map settled values)))).
Proof.
  unfold possiblePromiseAll. split.
  - intros H. rewrite (existsb_isPromise_false _ H). split; reflexivity.
  - intros H. rewrite (existsb_isPromise_true _ H). split.
    + apply promiseAll_is_promise.
    + apply promiseAll_fulfils.
Qed.

Lemma possiblePromiseAll_duality_witness :
  possiblePromiseAll [VNum 1; VPromise 2 true (VNum 7)]
    = VPromise 2 true (VArray [VNum 1; VNum 7]).
Proof.
  apply (proj2 (possiblePromiseAll_duality [VNum 1; VPromise 2 true (VNum 7)])).
  - right. left. reflexivity.
  - repeat constructor.
Defined.

(** ** Reduce *)

(** C3, as stated, for an initial value that is a promise of [undefined]:
    it is neither a function nor [undefined], yet it is as good as none,
    and the fold over the empty array is rejected. *)
Lemma reduce_pending_initial_value_fails :
  VPromise 0 true VUndefined <> VUndefined
  /\ applyOp (Index.reduce (Func identity) (Data (VPromise 0 true VUndefined)))
       (Data (VArray []))
     = Returned (VPromise 0 false Index.emptyReduction)
  /\ applyOp (Index.reduce (Func identity) (Data (VPromise 0 true VUndefined)))
       (Data (VArray []))
     <> Returned (VPromise 0 true VUndefined).
Proof. repeat split; discriminate. Qed.

(** C3 (amended): for every reducer [f], [reduce(f)] applied to an empty
    container with no initial value supplied fails with the empty-reduction
    error (thrown for the synchronous containers, a rejection for an
    asynchronous iterable); and for every initial value [v] that is not a
    function, not [undefined] and not a pending result, [reduce(f, v)([])]
    succeeds and returns [v] unchanged. *)
Theorem reduce_empty (f : Fn) :
  (forall c, EmptyContainer c ->
     applyOp (Index.reduce (Func f) noInit) (Data c) = Thrown Index.emptyReduction)
  /\ applyOp (Index.reduce (Func f) noInit) (Data (VAsyncIter []))
     = Returned (VPromise 0 false Index.emptyReduction)
  /\ (forall v, isUndefined v = false -> isPromise v = false ->
      applyOp (Index.reduce (Func f) (Data v)) (Data (VArray [])) = Returned v).
Proof.
  split; [|split].
  - intros c Hc. destruct Hc; reflexivity.
  - reflexivity.
  - intros v Hu Hp. destruct v; try discriminate; reflexivity.
Qed.

Lemma reduce_empty_witness :
  applyOp (Index.reduce (Func identity) (Data (VNum 0))) (Data (VArray []))
  = Returned (VNum 0).
Proof.
  apply (proj2 (proj2 (reduce_empty identity)) (VNum 0)); reflexivity.
Defined.




(** ** Filtering a synchronous lazy sequence *)

Lemma next_filtering (predicate : Fn) (rest : list Val) :
  next (filtering predicate rest)
  = (fst (Index.filterIterable_resume predicate rest),
     mkGenerator (Index.filterIterable_resume predicate)
       (snd (Index.filterIterable_resume predicate rest))).
Proof.
  unfold next, filtering; cbn [state resume].
  now destruct (Index.filterIterable_resume predicate rest).
Qed.

Lemma filtering_skip (predicate : Fn) (xi : Val) (rest : list Val) (k : nat) :
  isPromise (predicate [xi]) = false ->
  truthy (predicate [xi]) = false ->
  fst (pulls k (filtering predicate (xi :: rest)))
  = fst (pulls k (filtering predicate rest)).
Proof.
  intros Hp Ht. destruct k as [|k]; [reflexivity|].
  cbn [pulls]. rewrite !next_filtering. cbn [Index.filterIterable_resume].
  now rewrite Hp, Ht.
Qed.

Lemma filtering_yield (predicate : Fn) (xi : Val) (rest : list Val) (k : nat) :
  isPromise (predicate [xi]) = false ->
  truthy (predicate [xi]) = true ->
  fst (pulls (S k) (filtering predicate (xi :: rest)))
  = Yield xi :: fst (pulls k (filtering predicate rest)).
Proof.
  intros Hp Ht.
  cbn [pulls]. rewrite next_filtering. cbn [Index.filterIterable_resume].
  rewrite Hp, Ht. cbn [fst snd]. fold (filtering predicate rest).
  now destruct (pulls k (filtering predicate rest)).
Qed.

Lemma filtering_raise (predicate : Fn) (xi : Val) (rest : list Val) :
  isPromise (predicate [xi]) = true ->
  fst (pulls 1 (filtering predicate (xi :: rest)))
  = [Raise (VError TypeError Index.filterIterable_message)].
Proof.
  intros Hp.
  cbn [pulls]. rewrite next_filtering. cbn [Index.filterIterable_resume].
  now rewrite Hp.
Qed.

(** C7: for every synchronous iterable target, filtering with a predicate
    that returns a pending result for some element does not fail when
    [filter] is applied: a lazy sequence is returned.  The elements pulled
    before the offending one are yielded normally (those the predicate
    accepts, in order), and the [TypeError] is raised by the pull that
    reaches the offending element. *)
Theorem filterIterable_fatal_at_pull
  (typedFrom : list Val -> list Val) (predicate : Fn)
  (before : list Val) (offending : Val) (after : list Val) :
  Forall (fun xi => isPromise (predicate [xi]) = false) before ->
  isPromise (predicate [offending]) = true ->
  let kept := List.filter (fun xi => truthy (predicate [xi])) before in
  exists g,
    applyOp (Index.filter typedFrom (Func predicate))
      (Data (VIter (before ++ offending :: after))) = ReturnedGenerator g
    /\ fst (pulls (length kept) g) = List.map Yield kept
    /\ fst (pulls (S (length kept)) g)
       = List.map Yield kept ++ [Raise (VError TypeError Index.filterIterable_message)].
Proof.
  intros Hsync Hbad kept.
  exists (filtering predicate (before ++ offending :: after)).
  split; [reflexivity|]. subst kept.
  induction Hsync as [|xi before Hxi _ IH]; cbn [List.filter app].
  - split; [reflexivity|]. now apply filtering_raise.
  - destruct IH as [IH0 IH1].
    destruct (truthy (predicate [xi])) eqn:Ht; cbn [length List.map app].
    + split; rewrite filtering_yield by assumption; now f_equal.
    + split; rewrite filtering_skip by assumption; assumption.
Qed.

Lemma filterIterable_fatal_at_pull_witness :
  exists g,
    applyOp (Index.filter (fun l => l) (Func pendingOnThree))
      (Data (VIter ([VNum 1; VNum 2] ++ VNum 3 :: [VNum 4]))) = ReturnedGenerator g
    /\ fst (pulls 2 g) = [Yield (VNum 1); Yield (VNum 2)]
    /\ fst (pulls 3 g)
       = [Yield (VNum 1); Yield (VNum 2);
          Raise (VError TypeError Index.filterIterable_message)].
Proof.
  apply (filterIterable_fatal_at_pull (fun l => l) pendingOnThree
           [VNum 1; VNum 2] (VNum 3) [VNum 4]).
  - repeat constructor.
  - reflexivity.
Defined.

(** ** Collecting results *)

Lemma collect_from (fn : Fn) (x : list Val) (isAsync : bool) (y : list Val) :
  fold_left
    (fun '(isAsync, y) xi =>
       let point := fn [xi] in
       ((if isPromise point then true else isAsync), y ++ [point]))
    x (isAsync, y)
  = (isAsync || existsb isPromise (List.map (fun xi => fn [xi]) x),
     y ++ List.map (fun xi => fn [xi]) x).
Proof.
  revert isAsync y. induction x as [|xi x IH]; intros isAsync y; cbn.
  - now rewrite orb_false_r, app_nil_r.
  - rewrite IH, <- app_assoc. cbn [app].
    destruct (isPromise (fn [xi])), isAsync; reflexivity.
Qed.

Lemma collect_spec (fn : Fn) (x : list Val) :
  Index.collect fn x
  = (existsb isPromise (List.map (fun xi => fn [xi]) x),
     List.map (fun xi => fn [xi]) x).
Proof. unfold Index.collect. now rewrite collect_from. Qed.

(** ** Transducers *)

Section Transducers.
Variable join : list Val -> string.
Variable typedFrom : list Val -> list Val.

Lemma composed_reducer (f p r : Fn) (y xi : Val) :
  synchronous f -> synchronous p ->
  Index.filterReducer p (Index.mapReducer f r) [y; xi]
  = if truthy (p [xi]) then r [y; f [xi]] else y.
Proof.
  intros Hf Hp. unfold Index.filterReducer, Index.mapReducer, possiblePromiseThen.
  cbn [arg nth]. rewrite Hp. cbn [valueOf].
  destruct (truthy (p [xi])); [|reflexivity].
  now rewrite Hf.
Qed.

Lemma reduceIterable_loop_sync (closes : bool) (fn : Fn) (iter : list Val) (y : Val) :
  synchronousReducer fn -> isPromise y = false ->
  Index.reduceIterable_loop closes fn y iter
  = Normal (fold_left (fun y xi => fn [y; xi]) iter y).
Proof.
  intros Hfn. revert y. induction iter as [|xi iter IH]; intros y Hy; cbn.
  - reflexivity.
  - rewrite (Hfn y xi Hy). apply IH. now apply Hfn.
Qed.

Lemma reduceIterable_sync (fn : Fn) (y0 x : Val) :
  synchronousReducer fn -> isUndefined y0 = false -> isPromise y0 = false ->
  Index.reduceIterable fn y0 x
  = Normal (fold_left (fun y xi => fn [y; xi]) (iterate x) y0).
Proof.
  intros Hfn Hu Hp. unfold Index.reduceIterable. rewrite Hu. cbv beta iota.
  rewrite Hu.
  destruct (iterate x) as [|value iter]; [reflexivity|].
  rewrite (Hfn y0 value Hp). cbn [fold_left].
  apply reduceIterable_loop_sync; [assumption | now apply Hfn].
Qed.

Lemma reduce_array_sync (fn : Fn) (items : list Val) :
  synchronousReducer fn ->
  applyOp (Index.reduce (Func fn) (Data (VArray []))) (Data (VArray items))
  = Returned (fold_left (fun y xi => fn [y; xi]) items (VArray [])).
Proof.
  intros Hfn.
  change (ofCompletion (Index.reduceIterable fn (VArray []) (VArray items))
          = Returned (fold_left (fun y xi => fn [y; xi]) items (VArray []))).
  now rewrite reduceIterable_sync.
Qed.

Lemma keepWhere_map (p : Fn) (x : list Val) :
  Index.keepWhere (List.map (fun xi => p [xi]) x) x
  = List.filter (fun xi => truthy (p [xi])) x.
Proof.
  induction x as [|xi x IH]; cbn; [reflexivity|].
  rewrite IH. reflexivity.
Qed.

Lemma filter_array_sync (p : Fn) (items : list Val) :
  synchronous p ->
  applyOp (Index.filter typedFrom (Func p)) (Data (VArray items))
  = Returned (VArray (List.filter (fun xi => truthy (p [xi])) items)).
Proof.
  intros Hp.
  change (applyOp (Index.filter typedFrom (Func p)) (Data (VArray items)))
    with (ofCompletion (Index.filterArray p (VArray items))).
  unfold Index.filterArray, Index.createFilterIndex.
  cbn [iterate]. rewrite collect_spec.
  rewrite existsb_isPromise_false by (apply Forall_map, Forall_forall; intros; apply Hp).
  unfold possiblePromiseThen; cbn [isPromise iterate ofCompletion].
  now rewrite keepWhere_map.
Qed.

Lemma map_array_sync (f : Fn) (items : list Val) :
  synchronous f ->
  applyOp (Index.map join typedFrom (Func f)) (Data (VArray items))
  = Returned (VArray (List.map (fun xi => f [xi]) items)).
Proof.
  intros Hf.
  change (applyOp (Index.map join typedFrom (Func f)) (Data (VArray items)))
    with (Returned (Index.mapArray f (VArray items))).
  unfold Index.mapArray. cbn [iterate]. rewrite collect_spec.
  now rewrite existsb_isPromise_false
    by (apply Forall_map, Forall_forall; intros; apply Hf).
Qed.

Lemma fold_composed (f p r : Fn) (items : list Val) (y : Val) :
  synchronous f -> synchronous p ->
  fold_left (fun y xi => Index.filterReducer p (Index.mapReducer f r) [y; xi]) items y
  = fold_left (fun y xi => r [y; xi])
      (List.map (fun xi => f [xi]) (List.filter (fun xi => truthy (p [xi])) items)) y.
Proof.
  intros Hf Hp. revert y. induction items as [|xi items IH]; intros y; cbn [fold_left].
  - reflexivity.
  - rewrite composed_reducer by assumption. cbn [List.filter].
    destruct (truthy (p [xi])); cbn [List.map fold_left]; apply IH.
Qed.

Lemma fold_pushReducer (items acc : list Val) :
  fold_left (fun y xi => pushReducer [y; xi]) items (VArray acc) = VArray (acc ++ items).
Proof.
  revert acc. induction items as [|xi items IH]; intros acc; cbn [fold_left].
  - now rewrite app_nil_r.
  - unfold pushReducer at 2. cbn [arg nth]. rewrite IH, <- app_assoc. reflexivity.
Qed.

Lemma synchronousReducer_composed (f p r : Fn) :
  synchronous f -> synchronous p -> synchronousReducer r ->
  synchronousReducer (Index.filterReducer p (Index.mapReducer f r)).
Proof.
  intros Hf Hp Hr y xi Hy. rewrite composed_reducer by assumption.
  destruct (truthy (p [xi])); [now apply Hr | assumption].
Qed.

Lemma synchronousReducer_push : synchronousReducer pushReducer.
Proof.
  intros y xi Hy. unfold pushReducer. cbn [arg nth].
  destruct y; try reflexivity; discriminate.
Qed.

End Transducers.

(** C6, as stated, fails in two ways.  For the reducer [(y, xi) => y],
    with the identity as mapper and an always-true predicate, the fold
    leaves the initial [[]] untouched, while the container-level
    composition is [[1,2,3,4,5]].  And for a predicate that answers with a
    promise for one element, with the identity as mapper and the appending
    reducer, the fold is a promise of [[1,2,3,4,5]], while the
    container-level composition throws: [filter(p)] hands a promise to
    [map(f)]. *)
Lemma transducer_equivalence_fails_as_stated :
  (transduced (fun _ => "") (fun l => l) identity (always (VBool true)) identity oneToFive
     = Returned (VArray [])
   /\ containerLevel (fun _ => "") (fun l => l) identity (always (VBool true)) oneToFive
     = Returned oneToFive
   /\ transduced (fun _ => "") (fun l => l) identity (always (VBool true)) identity oneToFive
      <> containerLevel (fun _ => "") (fun l => l) identity (always (VBool true)) oneToFive)
  /\ (transduced (fun _ => "") (fun l => l) identity pendingOnThree pushReducer oneToFive
       = Returned (VPromise 1 true oneToFive)
     /\ containerLevel (fun _ => "") (fun l => l) identity pendingOnThree oneToFive
       = Thrown (VError TypeError "map(...)(x); x invalid")).
Proof. repeat split. discriminate. Qed.

(** ** Facts about the single-pass loop *)

Section SinglePassFacts.
Context {K Y : Type}.
Variable commit : K -> Val -> Y -> Completion Y.
Variable wrap : Y -> Val.
Variable visit : K -> Val.
Variable c : K -> Val -> Y -> Y.

Lemma passStep_fold (keys : list K) (y : Y) (ps : list (nat * Event)) :
  Forall (commits commit visit c) keys ->
  fold_left (passStep commit visit) keys (Normal (y, ps))
  = Normal (fold_left (commitPair c) (syncPairs visit keys) y, ps ++ eventsOf visit keys).
Proof.
  intros H. revert y ps.
  induction H as [|k keys Hk _ IH]; intros y ps; cbn [fold_left].
  - cbn. now rewrite app_nil_r.
  - unfold syncPairs, eventsOf; cbn [flat_map].
    fold (syncPairs visit keys); fold (eventsOf visit keys).
    unfold passStep at 2; cbn [bindC]. unfold commits in Hk.
    destruct (visit k) as [| | | | | | | | | | | | |t [|] res|res];
      cbn [settled] in Hk; rewrite ?Hk; cbn [bindC app fold_left];
      rewrite IH; rewrite <- ?app_assoc; try rewrite app_nil_r; reflexivity.
Qed.

Lemma eventsOf_nil (keys : list K) :
  Forall (fun k => isPromise (visit k) = false) keys -> eventsOf visit keys = [].
Proof.
  induction 1 as [|k keys Hk _ IH]; [reflexivity|].
  unfold eventsOf; cbn [flat_map]. fold (eventsOf visit keys). rewrite IH.
  destruct (visit k) as [| | | | | | | | | | | | |t [|] res|res];
    try reflexivity; discriminate.
Qed.

Lemma eventsOf_cons (keys : list K) :
  Exists (fun k => isPromise (visit k) = true) keys ->
  exists ev rest, eventsOf visit keys = ev :: rest.
Proof.
  induction 1 as [k keys Hk|k keys _ IH];
    unfold eventsOf; cbn [flat_map]; fold (eventsOf visit keys).
  - destruct (visit k) as [| | | | | | | | | | | | |t [|] res|res];
      try discriminate; cbn [app]; eauto.
  - destruct IH as (ev & rest & ->).
    destruct (visit k) as [| | | | | | | | | | | | |t [|] res|res];
      cbn [app]; eauto.
Qed.

Lemma insertEvent_perm (e : nat * Event (K := K)) (l : list (nat * Event)) :
  Permutation (insertEvent e l) (e :: l).
Proof.
  induction l as [|h l IH]; cbn [insertEvent]; [reflexivity|].
  destruct (fst e <? fst h); [reflexivity|].
  rewrite IH. apply perm_swap.
Qed.

Lemma inSettleOrder_perm (l : list (nat * Event (K := K))) :
  Permutation (inSettleOrder l) l.
Proof.
  unfold inSettleOrder.
  enough (H : forall acc, Permutation
                (fold_left (fun acc e => insertEvent e acc) l acc) (acc ++ l)).
  { apply (H []). }
  induction l as [|e l IH]; intros acc; cbn [fold_left].
  - now rewrite app_nil_r.
  - rewrite IH, insertEvent_perm. apply Permutation_middle.
Qed.

Lemma settleAll_is_promise (events : list (nat * Event (K := K))) (t : nat) (y : Y) :
  exists t' ok v, settleAll commit wrap t y events = VPromise t' ok v.
Proof.
  revert t y. induction events as [|[t' ev] events IH]; intros t y; cbn [settleAll].
  - eauto.
  - destruct ev as [k res|e|]; eauto.
    destruct (commit k res y); eauto.
Qed.

Lemma settleAll_benign (events : list (nat * Event (K := K))) (t : nat) (y : Y) :
  Forall (benign commit c) events ->
  exists t',
    settleAll commit wrap t y events
    = VPromise t' true (wrap (fold_left (commitPair c) (commitsOf events) y)).
Proof.
  intros H. revert t y.
  induction H as [|[t' ev] events Hev _ IH]; intros t y; cbn [settleAll].
  - eauto.
  - unfold commitsOf; cbn [flat_map snd]; fold (commitsOf events).
    unfold benign in Hev; cbn [snd] in Hev.
    destruct ev as [k res|e|]; [|contradiction|].
    + rewrite Hev. cbn [app fold_left]. apply IH.
    + apply IH.
Qed.

Lemma eventsOf_benign (keys : list K) :
  Forall (commits commit visit c) keys ->
  Forall (fun k => rejects (visit k) = false) keys ->
  Forall (benign commit c) (eventsOf visit keys).
Proof.
  intros Hc Hr. induction Hc as [|k keys Hk _ IH]; [constructor|].
  inversion Hr as [|? ? Hrk Hr']; subst.
  unfold eventsOf; cbn [flat_map]; fold (eventsOf visit keys).
  apply Forall_app. split; [|now apply IH].
  unfold commits in Hk.
  destruct (visit k) as [| | | | | | | | | | | | |t [|] res|res];
    try discriminate; cbn [settled] in Hk; try (constructor; fail).
  - constructor; [exact Hk | constructor].
  - constructor; [exact I | constructor].
Qed.

Lemma committed_pairs (keys : list K) :
  Forall (fun k => rejects (visit k) = false) keys ->
  Permutation (syncPairs visit keys ++ commitsOf (eventsOf visit keys))
    (List.map (fun k => (k, settled (visit k))) keys).
Proof.
  induction 1 as [|k keys Hk _ IH]; [reflexivity|].
  unfold syncPairs, eventsOf; cbn [flat_map List.map].
  fold (syncPairs visit keys); fold (eventsOf visit keys).
  unfold commitsOf. rewrite flat_map_app. fold (commitsOf (eventsOf visit keys)).
  destruct (visit k) as [| | | | | | | | | | | | |t [|] res|res];
    try discriminate; cbn [app flat_map snd settled];
    try (apply perm_skip; exact IH).
  symmetry. apply Permutation_cons_app. symmetry. exact IH.
Qed.

(** When nothing rejects and every commit completes, the loop hands back
    the container with every key committed, each once, in some order: at
    once if no visit was pending, as a fulfilled promise otherwise. *)
Lemma singlePass_commits_all (keys : list K) (y0 : Y) :
  Forall (commits commit visit c) keys ->
  Forall (fun k => rejects (visit k) = false) keys ->
  exists order t,
    Permutation order (List.map (fun k => (k, settled (visit k))) keys)
    /\ singlePass commit wrap visit keys y0
       = Normal (if existsb isPromise (List.map visit keys)
                 then VPromise t true (wrap (fold_left (commitPair c) order y0))
                 else wrap (fold_left (commitPair c) order y0)).
Proof.
  intros Hc Hr. unfold singlePass. rewrite passStep_fold by assumption.
  cbn [bindC app].
  destruct (existsb isPromise (List.map visit keys)) eqn:Hex.
  - assert (Hben : Forall (benign commit c) (inSettleOrder (eventsOf visit keys))).
    { eapply Permutation_Forall; [symmetry; apply inSettleOrder_perm|].
      now apply eventsOf_benign. }
    destruct (settleAll_benign _ 0 (fold_left (commitPair c) (syncPairs visit keys) y0) Hben)
      as [t Ht].
    exists (syncPairs visit keys ++ commitsOf (inSettleOrder (eventsOf visit keys))), t. split.
    + rewrite <- (committed_pairs keys Hr). apply Permutation_app_head.
      unfold commitsOf. apply Permutation_flat_map, inSettleOrder_perm.
    + destruct (eventsOf_cons keys) as (ev & rest & E).
      { apply List.Exists_exists. apply List.existsb_exists in Hex as (v & Hin & Hv).
        apply List.in_map_iff in Hin as (k & <- & Hk). eauto. }
      rewrite E at 1. rewrite Ht, fold_left_app. reflexivity.
  - assert (Hnil : eventsOf visit keys = []).
    { apply eventsOf_nil, List.Forall_forall. intros k Hk.
      destruct (isPromise (visit k)) eqn:E; [|reflexivity].
      rewrite <- Hex. symmetry. apply List.existsb_exists.
      exists (visit k). split; [now apply List.in_map | assumption]. }
    exists (syncPairs visit keys), 0. split.
    + rewrite <- (committed_pairs keys Hr), Hnil. cbn. now rewrite app_nil_r.
    + now rewrite Hnil.
Qed.

(** With a visit pending, and every commit of the loop itself completing,
    what is handed back is a promise. *)
Lemma singlePass_pending (keys : list K) (y0 : Y) :
  Forall (commits commit visit c) keys ->
  Exists (fun k => isPromise (visit k) = true) keys ->
  exists t ok v, singlePass commit wrap visit keys y0 = Normal (VPromise t ok v).
Proof.
  intros Hc Hex. unfold singlePass. rewrite passStep_fold by assumption.
  cbn [bindC app].
  destruct (eventsOf_cons keys Hex) as (ev & rest & E).
  destruct (settleAll_is_promise (inSettleOrder (eventsOf visit keys)) 0
              (fold_left (commitPair c) (syncPairs visit keys) y0)) as (t & ok & v & Hs).
  exists t, ok, v. rewrite <- Hs. now rewrite E at 1.
Qed.

End SinglePassFacts.

(** ** Facts about the output containers *)

Lemma settled_not_promise (v : Val) : isPromise v = false -> settled v = v.
Proof. destruct v; try reflexivity; discriminate. Qed.

Lemma rejects_isPromise (v : Val) : isPromise v = false -> rejects v = false.
Proof. destruct v; try reflexivity; discriminate. Qed.




Lemma objGet_objSet_eq (k : string) (v : Val) (props : list (string * Val)) :
  objGet k (objSet k v props) = v.
Proof.
  induction props as [|[k' v'] props IH]; cbn [objSet objGet].
  - now rewrite bool_decide_eq_true_2.
  - case_bool_decide as E; cbn [objGet]; case_bool_decide; congruence.
Qed.

Lemma objGet_objSet_ne (k k' : string) (v : Val) (props : list (string * Val)) :
  k <> k' -> objGet k' (objSet k v props) = objGet k' props.
Proof.
  intros Hne. induction props as [|[k0 v0] props IH]; cbn [objSet objGet].
  - now rewrite bool_decide_eq_false_2 by congruence.
  - case_bool_decide as E; cbn [objGet].
    + subst k0. now rewrite !bool_decide_eq_false_2 by congruence.
    + case_bool_decide; [reflexivity | assumption].
Qed.

Lemma objSet_keys (k k' : string) (v : Val) (props : list (string * Val)) :
  k' ∈ List.map fst (objSet k v props) <-> k' = k \/ k' ∈ List.map fst props.
Proof.
  induction props as [|[k0 v0] props IH]; cbn [objSet List.map fst].
  - rewrite list_elem_of_singleton, elem_of_nil. tauto.
  - case_bool_decide as E; cbn [List.map fst]; rewrite !elem_of_cons.
    + subst. tauto.
    + rewrite IH. tauto.
Qed.

Lemma fold_objSet_keys (order props : list (string * Val)) (k : string) :
  k ∈ List.map fst (fold_left (commitPair objSet) order props)
  <-> k ∈ List.map fst props \/ k ∈ List.map fst order.
Proof.
  revert props. induction order as [|[k0 r0] order IH]; intros props;
    cbn [fold_left List.map fst].
  - rewrite elem_of_nil. tauto.
  - unfold commitPair at 2; cbn [fst snd]. rewrite IH, objSet_keys, elem_of_cons. tauto.
Qed.

Lemma fold_objSet_other (order props : list (string * Val)) (k : string) :
  k ∉ List.map fst order ->
  objGet k (fold_left (commitPair objSet) order props) = objGet k props.
Proof.
  revert props. induction order as [|[k0 r0] order IH]; intros props Hk;
    cbn [fold_left]; [reflexivity|].
  cbn [List.map fst] in Hk. apply not_elem_of_cons in Hk as [Hne Hk].
  unfold commitPair at 2; cbn [fst snd].
  rewrite IH by assumption. apply objGet_objSet_ne. congruence.
Qed.

Lemma fold_objSet_get (order props : list (string * Val)) (k : string) (r : Val) :
  NoDup (List.map fst order) -> (k, r) ∈ order ->
  objGet k (fold_left (commitPair objSet) order props) = r.
Proof.
  revert props. induction order as [|[k0 r0] order IH]; intros props Hnd Hin;
    cbn [fold_left].
  - now apply elem_of_nil in Hin.
  - cbn [List.map fst] in Hnd. apply NoDup_cons in Hnd as [Hk0 Hnd].
    unfold commitPair at 2; cbn [fst snd].
    apply elem_of_cons in Hin as [[= -> ->]|Hin].
    + rewrite fold_objSet_other by assumption. apply objGet_objSet_eq.
    + now apply IH.
Qed.




(** ** Duality of [map] *)

Lemma resolvedImage_not_promise join typedFrom f c v :
  resolvedImage join typedFrom f c v -> isPromise v = false.
Proof.
  destruct c; cbn [resolvedImage]; try contradiction;
    try (intros ->; reflexivity);
    intros (? & -> & _); reflexivity.
Qed.

Lemma resolveWith_plain (t : nat) (w : Val) :
  isPromise w = false -> resolveWith t (Normal w) = VPromise t true w.
Proof. destruct w; try reflexivity; discriminate. Qed.

Lemma map_settled_sync (points : list Val) :
  Forall (fun pt => isPromise pt = false) points -> List.map settled points = points.
Proof.
  induction 1 as [|pt points Hpt _ IH]; cbn [List.map]; [reflexivity|].
  now rewrite IH, settled_not_promise.
Qed.

(** The per-shape implementations built on [mapIterableToArray]. *)
Lemma collected_dual (points : list Val) (finish : list Val -> Val) :
  (forall l, isPromise (finish l) = false) ->
  dual
    (ofCompletion
       (possiblePromiseThen
          (if existsb isPromise points then promiseAll points else VArray points)
          (fun res => Normal (finish (iterate res)))))
    points (fun v => v = finish (List.map settled points)).
Proof.
  intros Hfinish. split.
  - intros Hsync. rewrite existsb_isPromise_false by assumption.
    unfold possiblePromiseThen; cbn [isPromise iterate ofCompletion isPending].
    rewrite map_settled_sync by assumption. eauto.
  - intros Hpending. rewrite existsb_isPromise_true by assumption.
    destruct (promiseAll_is_promise points) as (t & ok & v & E).
    unfold possiblePromiseThen. rewrite E. cbn [isPromise callThen].
    destruct ok.
    + rewrite resolveWith_plain by apply Hfinish. cbn [ofCompletion].
      eexists _, _, _. split; [reflexivity|]. intros Hnr.
      rewrite promiseAll_fulfils in E by assumption. injection E as _ <-.
      split; reflexivity.
    + cbn [ofCompletion]. eexists _, _, _. split; [reflexivity|]. intros Hnr.
      rewrite promiseAll_fulfils in E by assumption. discriminate.
Qed.


(** The per-shape implementations built on the single-pass loop. *)
Lemma singlePass_dual {K Y : Type}
  (commit : K -> Val -> Y -> Completion Y) (wrap : Y -> Val) (visit : K -> Val)
  (c : K -> Val -> Y -> Y) (keys : list K) (y0 : Y) (image : Val -> Prop) :
  (forall y, isPromise (wrap y) = false) ->
  Forall (commits commit visit c) keys ->
  (forall order,
      Permutation order (List.map (fun k => (k, settled (visit k))) keys) ->
      image (wrap (fold_left (commitPair c) order y0))) ->
  dual (ofCompletion (singlePass commit wrap visit keys y0))
    (List.map visit keys) image.
Proof.
  intros Hwrap Hc Himage. split.
  - intros Hsync.
    destruct (singlePass_commits_all commit wrap visit c keys y0 Hc)
      as (order & t & Hperm & E).
    { apply Forall_map in Hsync. eapply Forall_impl; [exact Hsync|].
      intros k Hk. now apply rejects_isPromise. }
    rewrite E, existsb_isPromise_false by assumption.
    cbn [ofCompletion isPending]. split; [apply Hwrap|]. eauto.
  - intros Hpending.
    destruct (singlePass_pending commit wrap visit c keys y0 Hc)
      as (t & ok & v & E).
    { now apply Exists_fmap in Hpending. }
    rewrite E. cbn [ofCompletion]. eexists _, _, _. split; [reflexivity|].
    intros Hnr.
    destruct (singlePass_commits_all commit wrap visit c keys y0 Hc)
      as (order & t' & Hperm & E').
    { now apply Forall_map in Hnr. }
    rewrite E', existsb_isPromise_true in E by assumption.
    injection E as _ <- <-. split; [reflexivity | now apply Himage].
Qed.

Lemma dual_impl (out : Out) (points : list Val) (image image' : Val -> Prop) :
  (forall v, image v -> image' v) -> dual out points image -> dual out points image'.
Proof.
  intros Himp [Hs Hp]. split.
  - intros H. destruct (Hs H) as (Hn & v & -> & Hv). eauto.
  - intros H. destruct (Hp H) as (t & ok & v & -> & Hv).
    eexists _, _, _. split; [reflexivity|]. intros Hnr.
    destruct (Hv Hnr). auto.
Qed.









Example mapSet_in_settle_order :
  applyOp (Index.map (fun _ => "") (fun l => l) (Func pendingDouble))
    (Data (VSet [VNum 3; VNum 1; VNum 2]))
  = Returned (VPromise 3 true (VSet [VNum 2; VNum 4; VNum 6])).
Proof. reflexivity. Qed.

Example map_doubles :
  applyOp (Index.map (fun _ => "") (fun l => l) (Func double))
    (Data (VArray [VNum 1; VNum 2; VNum 3]))
  = Returned (VArray [VNum 2; VNum 4; VNum 6]).
Proof. reflexivity. Qed.

Example filter_odd_properties :
  applyOp (Index.filter (fun l => l) (Func isOdd))
    (Data (VObject [("a", VNum 1); ("b", VNum 2); ("c", VNum 3)]))
  = Returned (VObject [("a", VNum 1); ("c", VNum 3)]).
Proof. reflexivity. Qed.

Example reduce_sums :
  applyOp (Index.reduce (Func add) (Data (VNum 0))) (Data oneToFive) = Returned (VNum 15)
  /\ applyOp (Index.reduce (Func add) noInit) (Data oneToFive) = Returned (VNum 15).
Proof. split; reflexivity. Qed.

(** ** Folds that may wait *)

Lemma totalDelay_cons (r : Val) (results : list Val) :
  totalDelay (r :: results) = delayOf r + totalDelay results.
Proof. reflexivity. Qed.

Lemma resolveWith_settles (t : nat) (v : Val) :
  settled (resolveWith t (Normal v)) = settled v
  /\ rejects (resolveWith t (Normal v)) = rejects v
  /\ delayOf (resolveWith t (Normal v)) = t + delayOf v.
Proof.
  destruct v as [| | | | | | | | | | | | |t' [|] w|w]; cbn; repeat split; lia.
Qed.

(** [possiblePromiseThen(v, k)] for a [k] that returns. *)
Lemma then_settles (v : Val) (k : Val -> Val) :
  rejects v = false ->
  settled (valueOf (possiblePromiseThen v (fun res => Normal (k res))))
  = settled (k (settled v))
  /\ rejects (valueOf (possiblePromiseThen v (fun res => Normal (k res))))
     = rejects (k (settled v))
  /\ delayOf (valueOf (possiblePromiseThen v (fun res => Normal (k res))))
     = delayOf v + delayOf (k (settled v))
  /\ (isPromise v = false ->
      valueOf (possiblePromiseThen v (fun res => Normal (k res))) = k v).
Proof.
  intros Hv. unfold possiblePromiseThen.
  destruct v as [| | | | | | | | | | | | |t [|] w|w];
    cbn [isPromise callThen valueOf settled delayOf]; try discriminate;
    try (repeat split; reflexivity).
  - destruct (resolveWith_settles t (k w)) as (H1 & H2 & H3).
    repeat split; try assumption. discriminate.
  - repeat split. discriminate.
Qed.

Lemma then_rejects (v : Val) (k : Val -> Val) :
  rejects v = true ->
  valueOf (possiblePromiseThen v (fun res => Normal (k res))) = v.
Proof.
  destruct v as [| | | | | | | | | | | | |t [|] w|w]; try discriminate. reflexivity.
Qed.

Lemma asyncFold_spec (f : Fn) (t : nat) (y : Val) (items : list Val) :
  exists t' v,
    Index.asyncFold f t y items
    = VPromise t' (negb (existsb rejects (steps f y items))) v
    /\ (Forall (fun r => rejects r = false) (steps f y items) ->
        t' = t + totalDelay (steps f y items) /\ v = folded f y items).
Proof.
  revert t y. induction items as [|xi items IH]; intros t y;
    cbn [Index.asyncFold steps existsb].
  - eexists _, _. split; [reflexivity|]. intros _. cbn. split; [lia | reflexivity].
  - destruct (rejects (f [y; xi])) eqn:Hr; cbn [orb negb].
    + eexists _, _. split; [reflexivity|]. intros Hok.
      apply Forall_cons_1 in Hok as [Hok _]. congruence.
    + destruct (IH (t + delayOf (f [y; xi])) (settled (f [y; xi]))) as (t' & v & E & Hok).
      exists t', v. split; [exact E|]. intros Hall.
      apply Forall_cons_1 in Hall as [_ Hall]. destruct (Hok Hall) as [-> ->].
      rewrite totalDelay_cons. split; [lia | reflexivity].
Qed.

(** The loop over an iterator that a [return] leaves as it is. *)
Lemma reduceIterable_loop_spec (fn : Fn) (y : Val) (iter : list Val) :
  isPromise y = false ->
  exists r,
    Index.reduceIterable_loop false fn y iter = Normal r
    /\ isPromise r = existsb isPromise (steps fn y iter)
    /\ rejects r = existsb rejects (steps fn y iter)
    /\ (Forall (fun s => rejects s = false) (steps fn y iter) ->
        settled r = folded fn y iter /\ delayOf r = totalDelay (steps fn y iter)).
Proof.
  revert y. induction iter as [|xi iter IH]; intros y Hy;
    cbn [Index.reduceIterable_loop steps existsb].
  - exists y. split; [reflexivity|]. split; [exact Hy|].
    split; [now apply rejects_isPromise|]. intros _.
    split; [now apply settled_not_promise|]. destruct y; try reflexivity; discriminate.
  - change (folded fn y (xi :: iter)) with (folded fn (settled (fn [y; xi])) iter).
    rewrite totalDelay_cons.
    destruct (fn [y; xi]) as [| | | | | | | | | | | | |t [|] w|w];
      cbn [isPromise rejects orb callThen settled delayOf];
      try (match goal with
           | |- context [Index.reduceIterable_loop false fn ?v iter] =>
               destruct (IH v eq_refl) as (r & E & H1 & H2 & H3)
           end;
           exists r; split; [exact E|]; split; [exact H1|]; split; [exact H2|];
           intros Hall; apply Forall_cons_1 in Hall as [_ Hall];
           destruct (H3 Hall) as [H4 H5]; rewrite H4, H5; split; reflexivity).
    + destruct (asyncFold_spec fn 0 w iter) as (t' & v & E & Hok).
      unfold Index.asyncReduceIterator. rewrite E. cbn [resolveWith].
      eexists. split; [reflexivity|]. cbn [isPromise rejects settled delayOf].
      split; [reflexivity|]. split; [now destruct (existsb rejects _)|].
      intros Hall. apply Forall_cons_1 in Hall as [_ Hall].
      destruct (Hok Hall) as [-> ->]. split; [reflexivity | lia].
    + eexists. split; [reflexivity|]. cbn [isPromise rejects].
      split; [reflexivity|]. split; [reflexivity|]. intros Hall.
      apply Forall_cons_1 in Hall as [Hall _]. discriminate.
    + destruct (asyncFold_spec fn 0 w iter) as (t' & v & E & Hok).
      unfold Index.asyncReduceIterator. rewrite E.
      eexists. split; [reflexivity|]. cbn [isPromise rejects settled delayOf].
      split; [reflexivity|]. split; [now destruct (existsb rejects _)|].
      intros Hall. apply Forall_cons_1 in Hall as [_ Hall].
      destruct (Hok Hall) as [-> ->]. split; [reflexivity | lia].
Qed.

Lemma reduceIterable_open (fn : Fn) (x0 x : Val) :
  isUndefined x0 = false -> Index.closesOnReturn x = false ->
  Index.reduceIterable fn x0 x = Index.reduceIterable_loop false fn x0 (iterate x).
Proof.
  intros Hu Hx. unfold Index.reduceIterable. rewrite Hu, Hx. cbv beta iota. rewrite Hu.
  destruct (iterate x); reflexivity.
Qed.

Lemma reduce_array_spec (fn : Fn) (x0 : Val) (items : list Val) :
  isUndefined x0 = false -> isPromise x0 = false ->
  exists r,
    applyOp (Index.reduce (Func fn) (Data x0)) (Data (VArray items)) = Returned r
    /\ isPromise r = existsb isPromise (steps fn x0 items)
    /\ rejects r = existsb rejects (steps fn x0 items)
    /\ (Forall (fun s => rejects s = false) (steps fn x0 items) ->
        settled r = folded fn x0 items /\ delayOf r = totalDelay (steps fn x0 items)).
Proof.
  intros Hu Hp.
  assert (HD : isFunction (profile (Data x0)) = false) by (destruct x0; reflexivity).
  unfold Index.reduce, applyOp.
  change (isFunction (profile (Func fn))) with true. cbn [negb].
  rewrite HD. cbn [operandVal operandFn]. unfold possiblePromiseThen. rewrite Hp.
  change (isIterable (profile (Data (VArray items)))) with true. cbv iota.
  rewrite (reduceIterable_open fn x0 (VArray items) Hu eq_refl). cbn [iterate].
  destruct (reduceIterable_loop_spec fn x0 items Hp) as (r & E & H).
  exists r. rewrite E. split; [reflexivity | exact H].
Qed.

Lemma promiseAll_rejects (values : list Val) :
  rejects (promiseAll values) = existsb rejects values.
Proof.
  unfold promiseAll. destruct (firstRejection values) as [r|] eqn:E.
  - apply firstRejection_rejects in E as [Hr Hin]. cbn [rejects]. symmetry.
    apply existsb_exists. eauto.
  - cbn [rejects]. symmetry. apply not_true_is_false. intros H.
    apply existsb_exists in H as (v & Hin & Hv).
    clear -E Hin Hv. induction values as [|w rest IH]; [contradiction|].
    cbn [firstRejection] in E. destruct (firstRejection rest) as [r|].
    + destruct (rejects w && (delayOf w <=? delayOf r)); discriminate.
    + destruct Hin as [->|Hin]; [now rewrite Hv in E | now apply IH].
Qed.

Lemma existsb_none {A : Type} (g : A -> bool) (l : list A) :
  Forall (fun a => g a = false) l <-> existsb g l = false.
Proof.
  induction l as [|a l IH]; cbn [existsb].
  - split; [reflexivity | constructor].
  - rewrite List.Forall_cons_iff, IH, orb_false_iff. reflexivity.
Qed.

Lemma existsb_rejects_sync (values : list Val) :
  Forall (fun v => isPromise v = false) values -> existsb rejects values = false.
Proof.
  induction 1 as [|v rest Hv _ IH]; cbn [existsb]; [reflexivity|].
  now rewrite (rejects_isPromise v Hv), IH.
Qed.

(** ** Transducers and promises *)

Section AsyncTransducers.
Variable join : list Val -> string.
Variable typedFrom : list Val -> list Val.

(** The composed reducer, whatever the predicate and the mapper answer
    with. *)
Lemma composed_step (f p r : Fn) (y xi : Val) :
  rejects (p [xi]) = false ->
  (truthy (settled (p [xi])) = false ->
   settled (Index.filterReducer p (Index.mapReducer f r) [y; xi]) = settled y
   /\ (isPromise (p [xi]) = false ->
       Index.filterReducer p (Index.mapReducer f r) [y; xi] = y))
  /\ (truthy (settled (p [xi])) = true ->
      (rejects (f [xi]) = false ->
       settled (Index.filterReducer p (Index.mapReducer f r) [y; xi])
       = settled (r [y; settled (f [xi])])
       /\ rejects (Index.filterReducer p (Index.mapReducer f r) [y; xi])
          = rejects (r [y; settled (f [xi])]))
      /\ (isPromise (p [xi]) = false ->
          Index.filterReducer p (Index.mapReducer f r) [y; xi]
          = Index.mapReducer f r [y; xi])
      /\ (isPromise (p [xi]) = false -> isPromise (f [xi]) = false ->
          Index.filterReducer p (Index.mapReducer f r) [y; xi] = r [y; f [xi]])).
Proof.
  intros Hp.
  change (Index.filterReducer p (Index.mapReducer f r) [y; xi])
    with (valueOf (possiblePromiseThen (p [xi])
                     (fun res => Normal (if truthy res
                                         then Index.mapReducer f r [y; xi] else y)))).
  destruct (then_settles (p [xi])
              (fun res => if truthy res then Index.mapReducer f r [y; xi] else y) Hp)
    as (H1 & H2 & _ & H4).
  assert (Hmap : rejects (f [xi]) = false ->
                 settled (Index.mapReducer f r [y; xi]) = settled (r [y; settled (f [xi])])
                 /\ rejects (Index.mapReducer f r [y; xi])
                    = rejects (r [y; settled (f [xi])])
                 /\ (isPromise (f [xi]) = false ->
                     Index.mapReducer f r [y; xi] = r [y; f [xi]])).
  { intros Hf. unfold Index.mapReducer. cbn [arg nth].
    destruct (then_settles (f [xi]) (fun res => r [y; res]) Hf) as (G1 & G2 & _ & G4).
    auto. }
  split.
  - intros Hfalse. rewrite H1, Hfalse. split; [reflexivity|].
    intros Hsync. rewrite (H4 Hsync).
    rewrite (settled_not_promise _ Hsync) in Hfalse. now rewrite Hfalse.
  - intros Htrue. split; [|split].
    + intros Hf. destruct (Hmap Hf) as (G1 & G2 & _).
      rewrite H1, H2, Htrue. auto.
    + intros Hsync. rewrite (H4 Hsync).
      rewrite (settled_not_promise _ Hsync) in Htrue. now rewrite Htrue.
    + intros Hsync Hfsync. rewrite (H4 Hsync).
      rewrite (settled_not_promise _ Hsync) in Htrue. rewrite Htrue.
      apply Hmap; [now apply rejects_isPromise | assumption].
Qed.

Lemma composed_fold (f p r : Fn) (items acc : list Val) :
  appends r ->
  Forall (fun xi => isPromise (p [xi]) = false) items ->
  let composed := Index.filterReducer p (Index.mapReducer f r) in
  let points :=
    List.map (fun xi => f [xi]) (List.filter (fun xi => truthy (p [xi])) items) in
  existsb rejects (steps composed (VArray acc) items) = existsb rejects points
  /\ (Forall (fun pt => rejects pt = false) points ->
      folded composed (VArray acc) items = VArray (acc ++ List.map settled points))
  /\ (Forall (fun pt => isPromise pt = false) points -> synchronousReducer r ->
      existsb isPromise (steps composed (VArray acc) items) = false).
Proof.
  intros Hr Hp. cbv zeta. revert acc.
  induction Hp as [|xi items Hxi _ IH]; intros acc.
  - cbn. rewrite app_nil_r. auto.
  - pose proof (rejects_isPromise _ Hxi) as Hnr.
    destruct (composed_step f p r (VArray acc) xi Hnr) as [Hskip Hkeep].
    rewrite (settled_not_promise _ Hxi) in Hskip, Hkeep.
    cbn [steps List.filter existsb].
    change (folded ?c (VArray acc) (xi :: items))
      with (folded c (settled (c [VArray acc; xi])) items).
    destruct (truthy (p [xi])) eqn:Ht.
    + destruct (Hkeep eq_refl) as (Hdeliv & Hmr & Hsync).
      cbn [List.map existsb].
      destruct (rejects (f [xi])) eqn:Hf.
      * assert (E : Index.filterReducer p (Index.mapReducer f r) [VArray acc; xi]
                    = f [xi]).
        { rewrite (Hmr Hxi). unfold Index.mapReducer. cbn [arg nth].
          now apply then_rejects. }
        rewrite E, Hf. cbn [orb]. split; [reflexivity|]. split.
        -- intros H. apply Forall_cons_1 in H as [H _]. congruence.
        -- intros H. apply Forall_cons_1 in H as [H _].
           rewrite (rejects_isPromise _ H) in Hf. discriminate.
      * destruct (Hdeliv eq_refl) as [Hs Hj].
        destruct (Hr acc (settled (f [xi]))) as [Happ Hnj].
        rewrite Hs, Hj, Happ, Hnj. cbn [orb].
        destruct (IH (acc ++ [settled (f [xi])])) as (I1 & I2 & I3).
        split; [exact I1|]. split.
        -- intros H. apply Forall_cons_1 in H as [_ H]. rewrite (I2 H).
           now rewrite <- app_assoc.
        -- intros H Hsr. apply Forall_cons_1 in H as [Hfx H].
           rewrite (Hsync Hxi Hfx).
           rewrite (Hsr (VArray acc) (f [xi]) eq_refl). cbn [orb].
           now apply I3.
    + destruct (Hskip eq_refl) as [_ E]. rewrite (E Hxi). cbn [rejects isPromise settled orb].
      apply IH.
Qed.

Lemma filter_array_points (p : Fn) (items : list Val) :
  Forall (fun xi => isPromise (p [xi]) = false) items ->
  applyOp (Index.filter typedFrom (Func p)) (Data (VArray items))
  = Returned (VArray (List.filter (fun xi => truthy (p [xi])) items)).
Proof.
  intros Hp.
  change (applyOp (Index.filter typedFrom (Func p)) (Data (VArray items)))
    with (ofCompletion (Index.filterArray p (VArray items))).
  unfold Index.filterArray, Index.createFilterIndex.
  cbn [iterate]. rewrite collect_spec.
  rewrite existsb_isPromise_false by now apply Forall_map.
  unfold possiblePromiseThen; cbn [isPromise iterate ofCompletion].
  now rewrite keepWhere_map.
Qed.

(** [filter(p)] hands back a promise as soon as [p] answers with one, and
    a promise is nothing [map(f)] goes through. *)
Lemma filter_array_pending (f p : Fn) (items : list Val) :
  Exists (fun xi => isPromise (p [xi]) = true) items ->
  (exists t ok v,
      applyOp (Index.filter typedFrom (Func p)) (Data (VArray items))
      = Returned (VPromise t ok v))
  /\ containerLevel join typedFrom f p (VArray items)
     = Thrown (VError TypeError "map(...)(x); x invalid").
Proof.
  intros Hp.
  assert (E : exists t ok v,
             applyOp (Index.filter typedFrom (Func p)) (Data (VArray items))
             = Returned (VPromise t ok v)).
  { change (applyOp (Index.filter typedFrom (Func p)) (Data (VArray items)))
      with (ofCompletion (Index.filterArray p (VArray items))).
    unfold Index.filterArray, Index.createFilterIndex.
    cbn [iterate]. rewrite collect_spec.
    rewrite existsb_isPromise_true by now apply Exists_fmap.
    destruct (promiseAll_is_promise (List.map (fun xi => p [xi]) items))
      as (t & [|] & v & ->); unfold possiblePromiseThen;
      cbn [isPromise callThen ofCompletion]; [|eauto].
    cbn [resolveWith]. eauto. }
  split; [exact E|]. destruct E as (t & ok & v & E).
  unfold containerLevel. rewrite E. reflexivity.
Qed.

Lemma map_array_points (f : Fn) (items : list Val) :
  let points := List.map (fun xi => f [xi]) items in
  exists v,
    applyOp (Index.map join typedFrom (Func f)) (Data (VArray items)) = Returned v
    /\ isPromise v = existsb isPromise points
    /\ rejects v = existsb rejects points
    /\ (Forall (fun pt => rejects pt = false) points ->
        settled v = VArray (List.map settled points))
    /\ (Forall (fun pt => isPromise pt = false) points -> v = VArray points).
Proof.
  cbv zeta.
  change (applyOp (Index.map join typedFrom (Func f)) (Data (VArray items)))
    with (Returned (Index.mapArray f (VArray items))).
  unfold Index.mapArray. cbn [iterate]. rewrite collect_spec.
  set (points := List.map (fun xi => f [xi]) items).
  eexists. split; [reflexivity|].
  destruct (existsb isPromise points) eqn:E.
  - destruct (promiseAll_is_promise points) as (t & ok & v & Hall).
    split; [now rewrite Hall|]. split; [apply promiseAll_rejects|]. split.
    + intros H. now rewrite promiseAll_fulfils.
    + intros H. now rewrite existsb_isPromise_false in E.
  - assert (Hsync : Forall (fun pt => isPromise pt = false) points).
    { apply List.Forall_forall. intros pt Hin. apply not_true_is_false. intros Hpt.
      assert (existsb isPromise points = true) by (apply existsb_exists; eauto).
      congruence. }
    split; [reflexivity|]. split; [now rewrite existsb_rejects_sync|]. split.
    + intros _. cbn [settled]. now rewrite map_settled_sync.
    + reflexivity.
Qed.

End AsyncTransducers.

(** C6 (amended): for every mapper [f], every predicate [p] that answers
    at once on the elements of the array, and every reducer [r] that
    appends its element to the accumulator, at once or through a promise:
    folding an array (in particular [[1,2,3,4,5]]) with the composed
    reducer [filter(p)(map(f)(r))] and initial value [[]] delivers what
    [map(f)(filter(p)(array))] delivers.  Both reject exactly when an
    application of [f] to an element that is kept rejects; otherwise both
    deliver the array of what [f] delivers for the elements that are kept,
    and when [f] and [r] answer at once both are that array itself.  When
    [p] answers with a promise for some element, [filter(p)(array)] is a
    promise and [map(f)] applied to it throws.  The composed reducer
    applies the predicate to the raw element, skips delegation when the
    predicate is falsy, and otherwise delegates to [r] with the mapped
    element, whatever [r] is. *)
Theorem transducer_equivalence
  (join : list Val -> string) (typedFrom : list Val -> list Val)
  (f p r : Fn) (items : list Val) :
  let composed :=
    operandFn
      (asOperand
         (applyOp (Index.filter typedFrom (Func p))
            (asOperand (applyOp (Index.map join typedFrom (Func f)) (Func r))))) in
  let points :=
    List.map (fun xi => f [xi]) (List.filter (fun xi => truthy (p [xi])) items) in
  (forall y xi,
      rejects (p [xi]) = false ->
      (truthy (settled (p [xi])) = false ->
       settled (composed [y; xi]) = settled y
       /\ (isPromise (p [xi]) = false -> composed [y; xi] = y))
      /\ (truthy (settled (p [xi])) = true ->
          (rejects (f [xi]) = false ->
           settled (composed [y; xi]) = settled (r [y; settled (f [xi])])
           /\ rejects (composed [y; xi]) = rejects (r [y; settled (f [xi])]))
          /\ (isPromise (p [xi]) = false -> isPromise (f [xi]) = false ->
              composed [y; xi] = r [y; f [xi]])))
  /\ (Forall (fun xi => isPromise (p [xi]) = false) items -> appends r ->
      exists folding mapping,
        transduced join typedFrom f p r (VArray items) = Returned folding
        /\ containerLevel join typedFrom f p (VArray items) = Returned mapping
        /\ rejects folding = existsb rejects points
        /\ rejects mapping = existsb rejects points
        /\ (Forall (fun pt => rejects pt = false) points ->
            settled folding = VArray (List.map settled points)
            /\ settled mapping = VArray (List.map settled points))
        /\ (Forall (fun pt => isPromise pt = false) points ->
            mapping = VArray points
            /\ (synchronousReducer r -> folding = mapping)))
  /\ (Exists (fun xi => isPromise (p [xi]) = true) items ->
      containerLevel join typedFrom f p (VArray items)
      = Thrown (VError TypeError "map(...)(x); x invalid")).
Proof.
  cbv zeta.
  change (operandFn
            (asOperand
               (applyOp (Index.filter typedFrom (Func p))
                  (asOperand (applyOp (Index.map join typedFrom (Func f)) (Func r))))))
    with (Index.filterReducer p (Index.mapReducer f r)).
  split; [|split].
  - intros y xi Hp. destruct (composed_step f p r y xi Hp) as [Hskip Hkeep].
    split; [exact Hskip|]. intros Ht. destruct (Hkeep Ht) as (H1 & _ & H3). auto.
  - intros Hp Hr.
    set (points := List.map (fun xi => f [xi])
                     (List.filter (fun xi => truthy (p [xi])) items)).
    destruct (composed_fold f p r items [] Hr Hp) as (F1 & F2 & F3).
    fold points in F1, F2, F3. cbn [app] in F2.
    destruct (reduce_array_spec (Index.filterReducer p (Index.mapReducer f r))
                (VArray []) items eq_refl eq_refl) as (folding & E & R1 & R2 & R3).
    destruct (map_array_points join typedFrom f
                (List.filter (fun xi => truthy (p [xi])) items))
      as (mapping & M & M1 & M2 & M3 & M4).
    fold points in M1, M2, M3, M4.
    exists folding, mapping. split; [exact E|]. split.
    { unfold containerLevel. rewrite (filter_array_points typedFrom p items Hp).
      exact M. }
    split; [now rewrite R2|]. split; [exact M2|]. split.
    + intros Hnr. split; [|now apply M3].
      destruct R3 as [R3 _]; [|now rewrite R3, F2].
      apply existsb_none. rewrite F1. now apply existsb_none.
    + intros Hsync. split; [now apply M4|]. intros Hsr.
      rewrite (M4 Hsync).
      assert (Hnr : Forall (fun pt => rejects pt = false) points).
      { eapply Forall_impl; [exact Hsync|]. intros pt. apply rejects_isPromise. }
      assert (Hplain : isPromise folding = false) by (rewrite R1; now apply F3).
      rewrite <- (settled_not_promise folding Hplain).
      destruct R3 as [-> _].
      * apply existsb_none. rewrite F1. now apply existsb_none.
      * rewrite (F2 Hnr). now rewrite map_settled_sync.
  - intros Hp. now apply filter_array_pending.
Qed.

Lemma transducer_equivalence_witness :
  transduced (fun _ => "") (fun l => l) double isOdd pushReducer oneToFive
  = containerLevel (fun _ => "") (fun l => l) double isOdd oneToFive.
Proof.
  unfold oneToFive.
  destruct (transducer_equivalence (fun _ => "") (fun l => l) double isOdd pushReducer
              [VNum 1; VNum 2; VNum 3; VNum 4; VNum 5])
    as (_ & H & _).
  specialize (H ltac:(repeat constructor) ltac:(intros acc v; split; reflexivity)).
  destruct H as (folding & mapping & Ef & Em & _ & _ & _ & Hsync).
  rewrite Ef, Em. f_equal.
  apply Hsync; [repeat constructor | apply synchronousReducer_push].
Defined.

(** ** The runs of the pool mapper *)

Section PoolFacts.
Import Pool.
Variable poolSize : nat.
Variable f : Fn.

Abbreviation step := (Pool.step poolSize f).
Abbreviation dispatch := (Pool.dispatch f).

(** What [dispatch] does, by what the mapper answered. *)
Lemma dispatch_cases (s : State) (xi : Val) (rest : list Val) :
  (exists d ok res,
      f [xi] = VPromise d ok res
      /\ dispatch s xi rest
         = mkState rest (y s ++ [Deferred (issued s) ok res])
             (promises s ∪ {[issued s]}) (rejected s) (removed s) (S (issued s))
             Running)
  \/ (exists v,
      f [xi] = VSyncThenable v
      /\ dispatch s xi rest
         = mkState rest (y s) (promises s) (rejected s) (removed s) (issued s)
             (Failed temporalDeadZone))
  \/ (isPromise (f [xi]) = false
      /\ dispatch s xi rest
         = mkState rest (y s ++ [Direct (f [xi])]) (promises s) (rejected s)
             (removed s) (issued s) Running).
Proof.
  unfold Pool.dispatch.
  destruct (f [xi]) eqn:E;
    first [ now (right; right; split)
          | now (left; eexists _, _, _; split)
          | now (right; left; eexists; split)
          | now (left; eexists _, _)
          | now (right; left)
          | now (right; right) ].
Qed.

(** *** The bound on the in-flight set *)

Lemma size_add (X : gset nat) (p : nat) : size (X ∪ {[p]}) <= S (size X).
Proof.
  rewrite size_union_alt.
  assert (Hle : size ({[p]} ∖ X) <= size ({[p]} : gset nat))
    by (apply subseteq_size; set_solver).
  rewrite size_singleton in Hle. lia.
Qed.

Lemma size_remove (X : gset nat) (p : nat) : p ∈ X -> S (size (X ∖ {[p]})) = size X.
Proof.
  intros Hp. rewrite size_difference by set_solver. rewrite size_singleton.
  assert (size X <> 0) by (apply size_non_empty_iff; set_solver). lia.
Qed.

Lemma bounded_dispatch (s : State) (xi : Val) (rest : list Val) :
  size (promises s) < poolSize -> bounded poolSize (dispatch s xi rest).
Proof.
  intros Hlt.
  destruct (dispatch_cases s xi rest)
    as [(d & ok & res & _ & ->)|[(v & _ & ->)|(_ & ->)]];
    constructor; cbn; try discriminate; try lia.
  pose proof (size_add (promises s) (issued s)). lia.
Qed.

Lemma bounded_step (s s' : State) : bounded poolSize s -> step s s' -> bounded poolSize s'.
Proof.
  intros [Hle Hwon Hfull] Hstep.
  destruct Hstep as [s xi rest _ _ Hlt|s xi rest _ _ Hge _|s xi rest p e _ _ _ _ _
                    |s p res _ Hp _ _|s p e _ _ _ _|s xi rest Hctl _
                    |s _ _ _|s p e _ _ _ _|s _ _].
  - now apply bounded_dispatch.
  - constructor; cbn; [assumption | discriminate | auto].
  - constructor; cbn; [assumption | discriminate | discriminate].
  - pose proof (size_remove (promises s) p Hp).
    constructor; cbn; [lia | intros _; lia |].
    destruct (ctl s); discriminate.
  - constructor; cbn; [assumption | |].
    + destruct (ctl s) as [|[|]| | |]; try discriminate. auto.
    + destruct (ctl s) as [|[|]| | |]; discriminate.
  - apply bounded_dispatch. auto.
  - constructor; cbn; [assumption | discriminate | discriminate].
  - constructor; cbn; [assumption | discriminate | discriminate].
  - constructor; cbn; [assumption | discriminate | discriminate].
Qed.

Lemma bounded_start (x : Val) : bounded poolSize (start x).
Proof. constructor; cbn; [rewrite size_empty; lia | discriminate | discriminate]. Qed.

(** Induction over the states of a run. *)
Lemma reachable_ind (x : Val) (P : State -> Prop) :
  P (start x) ->
  (forall s s', reachable poolSize f x s -> P s -> step s s' -> P s') ->
  forall s, reachable poolSize f x s -> P s.
Proof.
  intros Hstart Hstep. unfold reachable.
  apply (rtc_ind_r (fun s => P s)); [exact Hstart|].
  intros s s' Hs Hss' IH. eapply Hstep; eauto.
Qed.

Lemma bounded_reachable (x : Val) (s : State) : reachable poolSize f x s -> bounded poolSize s.
Proof.
  apply reachable_ind; [apply bounded_start|].
  intros s1 s2 _. apply bounded_step.
Qed.

(** *** Who is in the set, and who was removed *)

Lemma bookkeeping_dispatch (s : State) (xi : Val) (rest : list Val) :
  bookkeeping s -> bookkeeping (dispatch s xi rest).
Proof.
  intros [Hin Hnd Hlt Hout Hall Hrej Hy Hslot _].
  destruct (dispatch_cases s xi rest)
    as [(d & ok & res & _ & ->)|[(v & _ & ->)|(_ & ->)]];
    constructor; cbn [promises removed issued rejected y ctl]; try assumption;
    try discriminate.
  - intros p Hp. apply elem_of_union in Hp as [Hp|Hp].
    + specialize (Hin p Hp). lia.
    + apply elem_of_singleton in Hp. lia.
  - intros p Hp. specialize (Hlt p Hp). lia.
  - intros p Hp Hp'. apply elem_of_union in Hp' as [Hp'|Hp'].
    + exact (Hout p Hp Hp').
    + apply elem_of_singleton in Hp'. specialize (Hlt p Hp). lia.
  - intros p Hp. destruct (decide (p = issued s)) as [->|Hne].
    + left. set_solver.
    + destruct (Hall p ltac:(lia)); [left; set_solver | now right].
  - set_solver.
  - intros p ok' res' Hp. apply elem_of_app in Hp as [Hp|Hp].
    + specialize (Hy _ _ _ Hp). lia.
    + apply list_elem_of_singleton in Hp. injection Hp as -> _ _. lia.
  - intros p Hp. destruct (decide (p = issued s)) as [->|Hne].
    + exists ok, res. apply elem_of_app. right. now apply list_elem_of_singleton.
    + destruct (Hslot p ltac:(lia)) as (ok' & res' & Hp').
      exists ok', res'. apply elem_of_app. now left.
  - intros p ok res Hp. apply elem_of_app in Hp as [Hp|Hp]; [eauto|].
    now apply list_elem_of_singleton in Hp.
  - intros p Hp. destruct (Hslot p Hp) as (ok & res & Hp').
    exists ok, res. apply elem_of_app. now left.
Qed.

Lemma bookkeeping_step (s s' : State) : bookkeeping s -> step s s' -> bookkeeping s'.
Proof.
  intros Hb Hstep.
  destruct Hstep as [s xi rest _ _ _|s xi rest _ _ _ _|s xi rest p e _ _ _ _ _
                    |s p res Hwait Hp Hnr Hslotp|s p e Hwait Hp Hnr Hslotp|s xi rest _ _
                    |s _ _ _|s p e _ _ _ _|s _ Hdone];
    try (now apply bookkeeping_dispatch);
    destruct Hb as [Hin Hnd Hlt Hout Hall Hrej Hy Hslot _];
    constructor; cbn [promises removed issued rejected y ctl]; try assumption;
    try discriminate;
    try (intros result; destruct (ctl s) as [|[|]| | |]; discriminate).
  - (* the continuation of [p] *)
    intros q Hq. apply Hin. set_solver.
  - apply NoDup_app. repeat split; [assumption | | apply NoDup_singleton].
    intros q Hq Hq'. apply list_elem_of_singleton in Hq'. subst q.
    exact (Hout p Hq Hp).
  - intros q Hq. apply elem_of_app in Hq as [Hq|Hq]; [now apply Hlt|].
    apply list_elem_of_singleton in Hq. subst. now apply Hin.
  - intros q Hq. apply elem_of_app in Hq as [Hq|Hq].
    + specialize (Hout q Hq). set_solver.
    + apply list_elem_of_singleton in Hq. set_solver.
  - intros q Hq. destruct (decide (q = p)) as [->|Hne].
    + right. apply elem_of_app. right. now apply list_elem_of_singleton.
    + destruct (Hall q Hq) as [Hq'|Hq'];
        [left; set_solver | right; apply elem_of_app; now left].
  - set_solver.
  - (* [p] rejects *) set_solver.
  - (* every element of [y] has settled *)
    intros result _ p Hp. destruct (Hslot p Hp) as (ok & res & Hy'). eauto.
Qed.

Lemma bookkeeping_start (x : Val) : bookkeeping (start x).
Proof.
  constructor; cbn.
  - intros p Hp. set_solver.
  - apply NoDup_nil_2.
  - intros p Hp. now apply elem_of_nil in Hp.
  - intros p Hp. now apply elem_of_nil in Hp.
  - intros p Hp. lia.
  - set_solver.
  - intros p ok res Hp. now apply elem_of_nil in Hp.
  - intros p Hp. lia.
  - discriminate.
Qed.

Lemma bookkeeping_reachable (x : Val) (s : State) :
  reachable poolSize f x s -> bookkeeping s.
Proof.
  apply reachable_ind; [apply bookkeeping_start|].
  intros s1 s2 _. apply bookkeeping_step.
Qed.

(** *** The output array *)

Lemma output_dispatch (x : Val) (s : State) (xi : Val) (rest : list Val) :
  ctl s = Running \/ ctl s = Racing true ->
  todo s = xi :: rest -> output f x s -> output f x (dispatch s xi rest).
Proof.
  intros Hctl Htodo [Hvalues _ _ _].
  assert (Halive : forall e, ctl s <> Failed e)
    by (intros e He; destruct Hctl; congruence).
  specialize (Hvalues Halive). rewrite Htodo in Hvalues. cbn [List.map] in Hvalues.
  destruct (dispatch_cases s xi rest)
    as [(d & ok & res & E & ->)|[(v & E & ->)|(E & ->)]];
    constructor; cbn [ctl todo y]; try discriminate.
  - intros _. rewrite List.map_app, <- app_assoc. cbn [List.map app slotValue].
    rewrite <- Hvalues. unfold resolved at 2. now rewrite E.
  - intros Hno. now destruct (Hno temporalDeadZone).
  - intros _. rewrite List.map_app, <- app_assoc. cbn [List.map app slotValue].
    rewrite <- Hvalues. unfold resolved at 2. now rewrite settled_not_promise.
Qed.

Lemma output_step (x : Val) (s s' : State) : output f x s -> step s s' -> output f x s'.
Proof.
  intros Hout Hstep.
  destruct Hstep as [s xi rest Hctl Htodo _|s xi rest Hctl Htodo _ _
                    |s xi rest p e _ _ _ _ _
                    |s p res Hwait _ _ _|s p e Hwait _ _ _|s xi rest Hctl Htodo
                    |s Hctl Htodo _|s p e _ _ _ _|s Hctl _].
  - apply output_dispatch; auto.
  - destruct Hout as [Hvalues _ _ _].
    constructor; cbn [ctl todo y]; try discriminate.
    + intros _. apply Hvalues. congruence.
    + intros _ _. congruence.
  - constructor; cbn [ctl todo y]; try discriminate.
    intros Hno. now destruct (Hno e).
  - destruct Hout as [Hvalues Hracing Hjoining Hfulfilled].
    constructor; cbn [ctl todo y].
    + intros Hno. apply Hvalues. intros e' He'. rewrite He' in Hwait. discriminate.
    + intros won Hwon. destruct (ctl s) eqn:E; try discriminate. eauto.
    + intros Hj. destruct (ctl s) eqn:E; try discriminate. auto.
    + intros result Hr. destruct (ctl s) eqn:E; discriminate.
  - destruct Hout as [Hvalues Hracing Hjoining Hfulfilled].
    constructor; cbn [ctl todo y].
    + intros Hno. apply Hvalues. intros e' He'. rewrite He' in Hwait. discriminate.
    + intros won Hwon. destruct (ctl s) as [|[|]| | |] eqn:E; try discriminate. eauto.
    + intros Hj. destruct (ctl s) as [|[|]| | |] eqn:E; discriminate.
    + intros result Hr. destruct (ctl s) as [|[|]| | |] eqn:E; discriminate.
  - apply output_dispatch; auto.
  - destruct Hout as [Hvalues _ _ _].
    constructor; cbn [ctl todo y]; try discriminate; auto.
    intros _. rewrite <- Htodo. apply Hvalues. congruence.
  - constructor; cbn [ctl todo y]; try discriminate.
    intros Hno. now destruct (Hno e).
  - destruct Hout as [Hvalues _ Hjoining _].
    constructor; cbn [ctl todo y]; try discriminate.
    + intros _. apply Hvalues. congruence.
    + intros result [= <-]. auto.
Qed.

Lemma output_start (x : Val) : output f x (start x).
Proof. constructor; cbn; try discriminate. reflexivity. Qed.

Lemma output_reachable (x : Val) (s : State) :
  reachable poolSize f x s -> output f x s.
Proof.
  apply reachable_ind; [apply output_start|].
  intros s1 s2 _. apply output_step.
Qed.

(** *** Runs in which every application fulfils *)

Lemma healthy_dispatch (s : State) (xi : Val) (rest : list Val) :
  todo s = xi :: rest -> healthy f s -> healthy f (dispatch s xi rest).
Proof.
  intros Htodo [Hall Hslots Hrej _]. rewrite Htodo in Hall.
  apply Forall_cons in Hall as [Hxi Hrest].
  destruct (dispatch_cases s xi rest)
    as [(d & ok & res & E & ->)|[(v & E & ->)|(E & ->)]];
    rewrite ?E in Hxi; cbn [settlesWell] in Hxi; try discriminate;
    constructor; cbn [ctl todo y rejected]; try assumption; try discriminate.
  - intros p ok' res' Hp. apply elem_of_app in Hp as [Hp|Hp]; [eauto|].
    apply list_elem_of_singleton in Hp. congruence.
  - intros p ok' res' Hp. apply elem_of_app in Hp as [Hp|Hp]; [eauto|].
    now apply list_elem_of_singleton in Hp.
Qed.

Lemma healthy_step (s s' : State) : healthy f s -> step s s' -> healthy f s'.
Proof.
  intros Hh Hstep.
  destruct Hstep as [s xi rest _ Htodo _|s xi rest _ _ _ _|s xi rest p e _ _ _ _ Hslot
                    |s p res Hwait _ _ _|s p e _ _ _ Hslot|s xi rest _ Htodo
                    |s _ Htodo _|s p e _ _ _ Hslot|s _ _];
    try (now apply healthy_dispatch);
    destruct Hh as [Hall Hslots Hrej Halive];
    try (specialize (Hslots _ _ _ Hslot); discriminate);
    constructor; cbn [ctl todo y rejected]; try assumption; try discriminate.
  - intros e He. destruct (ctl s); discriminate.
  - constructor.
Qed.

Lemma healthy_start (x : Val) :
  Forall (fun xi => settlesWell (f [xi]) = true) (iterate x) -> healthy f (start x).
Proof.
  intros H. constructor; cbn; try assumption; try discriminate; try reflexivity.
  intros p ok res Hp. now apply elem_of_nil in Hp.
Qed.

Lemma measure_dispatch (s : State) (xi : Val) (rest : list Val) :
  todo s = xi :: rest -> 2 <= weight (ctl s) ->
  measure (dispatch s xi rest) < measure s.
Proof.
  intros Htodo Hw. unfold measure. rewrite Htodo. cbn [length].
  destruct (dispatch_cases s xi rest)
    as [(d & ok & res & _ & ->)|[(v & _ & ->)|(_ & ->)]];
    cbn [todo promises rejected ctl weight]; try lia.
  assert (size ((promises s ∪ {[issued s]}) ∖ rejected s)
          <= S (size (promises s ∖ rejected s))).
  { etransitivity; [|apply (size_add _ (issued s))].
    apply subseteq_size. set_solver. }
  lia.
Qed.

Lemma step_decreases (s s' : State) : step s s' -> measure s' < measure s.
Proof.
  intros Hstep.
  destruct Hstep as [s xi rest Hctl Htodo _|s xi rest Hctl _ _ _
                    |s xi rest p e Hctl _ _ _ _
                    |s p res Hwait Hp Hnr _|s p e Hwait Hp Hnr _|s xi rest Hctl Htodo
                    |s Hctl Htodo _|s p e Hctl Htodo _ _|s Hctl _].
  - apply measure_dispatch; [assumption | rewrite Hctl; cbn; lia].
  - unfold measure; cbn [todo promises rejected ctl]. rewrite Hctl. cbn. lia.
  - unfold measure; cbn [todo promises rejected ctl]. rewrite Hctl. cbn. lia.
  - unfold measure; cbn [todo promises rejected ctl].
    assert (Heq : promises s ∖ {[p]} ∖ rejected s = (promises s ∖ rejected s) ∖ {[p]})
      by set_solver.
    rewrite Heq.
    pose proof (size_remove (promises s ∖ rejected s) p ltac:(set_solver)).
    destruct (ctl s); cbn in *; try discriminate; lia.
  - unfold measure; cbn [todo promises rejected ctl].
    assert (Heq : promises s ∖ (rejected s ∪ {[p]}) = (promises s ∖ rejected s) ∖ {[p]})
      by set_solver.
    rewrite Heq.
    pose proof (size_remove (promises s ∖ rejected s) p ltac:(set_solver)).
    destruct (ctl s) as [|[|]| | |]; cbn in *; try discriminate; lia.
  - apply measure_dispatch; [assumption | rewrite Hctl; cbn; lia].
  - unfold measure; cbn [todo promises rejected ctl]. rewrite Hctl, Htodo. cbn. lia.
  - unfold measure; cbn [todo promises rejected ctl]. rewrite Hctl, Htodo. cbn. lia.
  - unfold measure; cbn [todo promises rejected ctl]. rewrite Hctl. cbn. lia.
Qed.

(** A run that has not fulfilled can go on. *)
Lemma progress (x : Val) (s : State) :
  1 <= poolSize ->
  bounded poolSize s -> bookkeeping s -> output f x s -> healthy f s ->
  (exists result, ctl s = Fulfilled result) \/ exists s', step s s'.
Proof.
  intros Hsize [_ _ Hfull] [Hin _ _ _ Hall _ Hylt Hslot _] [_ Hracing _ _]
    [_ Hok Hrej Halive].
  assert (Hfulfil : forall p, awaiting (ctl s) = true -> p ∈ promises s ->
                              exists s', step s s').
  { intros p Hwait Hp. destruct (Hslot p (Hin p Hp)) as (ok & res & Hy).
    pose proof (Hok _ _ _ Hy) as ->.
    eexists. apply (step_fulfil _ _ s p res); auto. rewrite Hrej. set_solver. }
  destruct (ctl s) as [|[|]| |result|e] eqn:Hctl.
  - right. destruct (todo s) as [|xi rest] eqn:Htodo.
    + eexists. now apply step_join.
    + destruct (decide (size (promises s) < poolSize)).
      * eexists. now apply (step_dispatch _ _ s xi rest).
      * eexists. apply (step_suspend _ _ s xi rest); auto. lia.
  - right. destruct (todo s) as [|xi rest] eqn:Htodo; [now destruct (Hracing true)|].
    eexists. now apply (step_resume _ _ s xi rest).
  - right. destruct (decide (promises s = ∅)) as [Hempty|Hne].
    + specialize (Hfull eq_refl). rewrite Hempty, size_empty in Hfull. lia.
    + apply set_choose_L in Hne as [p Hp]. now apply (Hfulfil p).
  - right. destruct (decide (promises s = ∅)) as [Hempty|Hne].
    + eexists. apply step_done; [assumption|].
      intros p ok res Hy. destruct (Hall p (Hylt _ _ _ Hy)) as [Hp|Hp]; [|assumption].
      rewrite Hempty in Hp. set_solver.
    + apply set_choose_L in Hne as [p Hp]. now apply (Hfulfil p).
  - left. eauto.
  - now destruct (Halive e).
Qed.

(** From wherever a run has got to, it can be brought to its end, and
    there is no other way for it to go. *)
Lemma completes (x : Val) (n : nat) (s : State) :
  1 <= poolSize ->
  measure s < n ->
  bounded poolSize s -> bookkeeping s -> output f x s -> healthy f s ->
  exists s' result, rtc step s s' /\ ctl s' = Fulfilled result.
Proof.
  intros Hsize. revert s.
  induction n as [|n IH]; intros s Hn Hb Hk Ho Hh; [lia|].
  destruct (progress x s Hsize Hb Hk Ho Hh) as [[result Hr]|[s1 Hstep]].
  - exists s, result. split; [reflexivity | assumption].
  - destruct (IH s1) as (s' & result & Hrun & Hr).
    + pose proof (step_decreases _ _ Hstep). lia.
    + eapply bounded_step; eauto.
    + eapply bookkeeping_step; eauto.
    + eapply output_step; eauto.
    + eapply healthy_step; eauto.
    + exists s', result. split; [|assumption]. eapply rtc_l; eauto.
Qed.

Lemma healthy_reachable (x : Val) (s : State) :
  Forall (fun xi => settlesWell (f [xi]) = true) (iterate x) ->
  reachable poolSize f x s -> healthy f s.
Proof.
  intros H. apply reachable_ind; [now apply healthy_start|].
  intros s1 s2 _. apply healthy_step.
Qed.

End PoolFacts.

(** C5: for every array input, concurrency limit [n >= 1] and mapper [f],
    whatever the order in which the pending results resolve, a run of
    [map.pool(n, f)(input)] that fulfils does so with an array of the length
    of the input whose element [i] is what [f(input[i])] delivers; and when
    every application of [f] answers with a value or with a promise that
    fulfils, every run, however far it has got, completes and fulfils. *)
Theorem pool_positions (n : Z) (f : Fn) (items : list Val) :
  (1 <= n)%Z ->
  exists unary,
    Pool.pool (VNum n) (Func f) = Normal unary
    /\ unary (Data (VArray items))
       = Pool.Pooling Array (Z.to_nat n) f (Pool.start (VArray items))
    /\ (forall s result,
          Pool.reachable (Z.to_nat n) f (VArray items) s ->
          Pool.ctl s = Pool.Fulfilled result ->
          Pool.poolResult Array result = Normal (VArray result)
          /\ length result = length items
          /\ forall i xi, items !! i = Some xi ->
                          result !! i = Some (settled (f [xi])))
    /\ (Forall (fun xi => settlesWell (f [xi]) = true) items ->
        forall s,
          Pool.reachable (Z.to_nat n) f (VArray items) s ->
          exists s' result,
            rtc (Pool.step (Z.to_nat n) f) s s' /\ Pool.ctl s' = Pool.Fulfilled result).
Proof.
  intros Hn. eexists. split.
  { unfold Pool.pool. rewrite (proj2 (Z.ltb_ge n 1)) by lia. reflexivity. }
  split; [reflexivity|]. split.
  - intros s result Hs Hr.
    destruct (output_reachable _ _ _ _ Hs) as [Hvalues _ _ Hfulfilled].
    destruct (Hfulfilled result Hr) as [-> Htodo].
    assert (Hmap : List.map Pool.slotValue (Pool.y s)
                   = List.map (resolved f) items).
    { specialize (Hvalues ltac:(congruence)). rewrite Htodo in Hvalues.
      cbn [List.map iterate] in Hvalues. now rewrite app_nil_r in Hvalues. }
    rewrite Hmap. split; [reflexivity|]. split; [apply length_map|].
    intros i xi Hi. change (List.map (resolved f) items) with (resolved f <$> items).
    rewrite list_lookup_fmap, Hi. reflexivity.
  - intros Hwell s Hs.
    apply (completes (Z.to_nat n) f (VArray items) (S (measure s))).
    + lia.
    + lia.
    + exact (bounded_reachable _ _ _ _ Hs).
    + exact (bookkeeping_reachable _ _ _ _ Hs).
    + exact (output_reachable _ _ _ _ Hs).
    + exact (healthy_reachable (Z.to_nat n) f (VArray items) s Hwell Hs).
Qed.

Lemma pool_positions_witness :
  exists unary,
    Pool.pool (VNum 2) (Func delayed) = Normal unary
    /\ unary (Data oneToFive)
       = Pool.Pooling Array 2 delayed (Pool.start oneToFive).
Proof.
  destruct (pool_positions 2 delayed [VNum 1; VNum 2; VNum 3; VNum 4; VNum 5])
    as (unary & H1 & H2 & _); [lia|].
  exists unary. split; assumption.
Defined.

(** What a step from a full pool, and from a pool suspended on the race,
    can be. *)
Lemma step_full (poolSize : nat) (f : Fn) (s s' : Pool.State) :
  Pool.ctl s = Pool.Running -> Pool.todo s <> [] ->
  poolSize <= size (Pool.promises s) ->
  Pool.step poolSize f s s' ->
  Pool.todo s' = Pool.todo s /\ Pool.y s' = Pool.y s
  /\ (Pool.ctl s' = Pool.Racing false \/ exists e, Pool.ctl s' = Pool.Failed e).
Proof.
  intros Hctl Htodo Hfull Hstep.
  destruct Hstep as [s xi rest _ _ Hlt|s xi rest _ _ _ _|s xi rest p e _ _ _ _ _
                    |s p res Hwait _ _ _|s p e Hwait _ _ _|s xi rest Hctl' _
                    |s _ Htodo' _|s p e _ Htodo' _ _|s Hctl' _];
    cbn; try lia; try congruence; eauto.
  all: rewrite Hctl in Hwait; discriminate.
Qed.

Lemma step_suspended (poolSize : nat) (f : Fn) (s s' : Pool.State) :
  Pool.ctl s = Pool.Racing false ->
  Pool.step poolSize f s s' ->
  Pool.todo s' = Pool.todo s /\ Pool.y s' = Pool.y s
  /\ ((exists p res,
         p ∈ Pool.promises s /\ Pool.Deferred p true res ∈ Pool.y s
         /\ Pool.promises s' = Pool.promises s ∖ {[p]}
         /\ Pool.ctl s' = Pool.Racing true)
      \/ exists e, Pool.ctl s' = Pool.Failed e).
Proof.
  intros Hctl Hstep.
  destruct Hstep as [s xi rest Hctl' _ _|s xi rest Hctl' _ _ _|s xi rest p e Hctl' _ _ _ _
                    |s p res Hwait Hp _ Hy|s p e Hwait _ _ _|s xi rest Hctl' _
                    |s Hctl' _ _|s p e Hctl' _ _ _|s Hctl' _];
    try congruence; cbn; rewrite Hctl; repeat split; eauto 10.
Qed.

(** Only its own continuation takes a promise out of the set. *)
Lemma step_removes (poolSize : nat) (f : Fn) (s s' : Pool.State) (p : nat) :
  Pool.step poolSize f s s' ->
  p ∈ Pool.promises s -> p ∉ Pool.promises s' ->
  Pool.removed s' = Pool.removed s ++ [p]
  /\ exists res, Pool.Deferred p true res ∈ Pool.y s.
Proof.
  intros Hstep Hp Hp'.
  destruct Hstep as [s xi rest _ _ _|s xi rest _ _ _ _|s xi rest q e _ _ _ _ _
                    |s q res _ Hq _ Hy|s q e _ _ _ _|s xi rest _ _
                    |s _ _ _|s q e _ _ _ _|s _ _];
    cbn [Pool.promises] in Hp'; try contradiction.
  - destruct (dispatch_cases f s xi rest)
      as [(d & ok & res & _ & E)|[(v & _ & E)|(_ & E)]];
      rewrite E in Hp'; cbn [Pool.promises] in Hp'; set_solver.
  - destruct (decide (p = q)) as [->|Hne].
    + cbn [Pool.removed Pool.y]. eauto.
    + exfalso. apply Hp'. apply elem_of_difference. split; [exact Hp|].
      now rewrite elem_of_singleton.
  - destruct (dispatch_cases f s xi rest)
      as [(d & ok & res & _ & E)|[(v & _ & E)|(_ & E)]];
      rewrite E in Hp'; cbn [Pool.promises] in Hp'; set_solver.
Qed.

Lemma step_applies (poolSize : nat) (f : Fn) (s s' : Pool.State) :
  Pool.step poolSize f s s' ->
  length (Pool.todo s') < length (Pool.todo s) ->
  (Pool.ctl s = Pool.Running /\ size (Pool.promises s) < poolSize)
  \/ Pool.ctl s = Pool.Racing true.
Proof.
  intros Hstep Hlen.
  destruct Hstep as [s xi rest Hctl _ Hlt|s xi rest _ _ _ _|s xi rest q e _ _ _ _ _
                    |s q res _ Hq _ Hy|s q e _ _ _ _|s xi rest Hctl _
                    |s _ Htodo _|s q e _ Htodo _ _|s _ _];
    cbn in Hlen; try lia; auto.
  all: rewrite Htodo in Hlen; cbn in Hlen; lia.
Qed.

(** ** The runs of [_setMapPoolAsync] *)

Section SetPoolFacts.
Import SetPool.
Variable concurrency : nat.
Variable f : Fn.
Variable source : Val.

Abbreviation sstep := (SetPool.step concurrency f source).
Abbreviation sdispatch := (SetPool.dispatch f source).

Lemma sdispatch_cases (s : State) (xi : Val) (rest : list Val) :
  (exists ok res,
      sdispatch s xi rest
      = mkState rest (result s) (<[issued s := (ok, res)]> (fates s))
          (promises s ∪ {[issued s]}) (rejected s) (removed s) (S (issued s))
          Running)
  \/ sdispatch s xi rest
     = mkState rest (result s) (fates s) (promises s) (rejected s) (removed s)
         (issued s) (Failed Pool.temporalDeadZone)
  \/ sdispatch s xi rest
     = mkState rest (setAdd (f [xi; xi; source]) (result s)) (fates s) (promises s)
         (rejected s) (removed s) (issued s) Running.
Proof.
  unfold SetPool.dispatch.
  destruct (f [xi; xi; source]) eqn:E;
    first [ now (right; right; split)
          | now (left; eexists _, _, _; split)
          | now (right; left; eexists; split)
          | now (left; eexists _, _)
          | now (right; left)
          | now (right; right) ].
Qed.

Lemma sbounded_dispatch (s : State) (xi : Val) (rest : list Val) :
  size (promises s) < concurrency -> sbounded concurrency (sdispatch s xi rest).
Proof.
  intros Hlt.
  destruct (sdispatch_cases s xi rest) as [(ok & res & ->)|[->| ->]];
    constructor; cbn; try discriminate; try lia.
  pose proof (size_add (promises s) (issued s)). lia.
Qed.

Lemma sbounded_step (s s' : State) :
  sbounded concurrency s -> sstep s s' -> sbounded concurrency s'.
Proof.
  intros [Hle Hwon] Hstep.
  destruct Hstep as [s xi rest _ _ Hlt|s xi rest _ _ _ _|s xi rest p e _ _ _ _ _
                    |s p res _ Hp _ _|s p e _ _ _ _|s xi rest Hctl _
                    |s _ _ _|s _ _ _ _|s p e _ _ _ _|s awaited _ _];
    try (constructor; cbn; [assumption | discriminate]).
  - now apply sbounded_dispatch.
  - pose proof (size_remove (promises s) p Hp).
    constructor; cbn; [lia | intros _; lia].
  - constructor; cbn; [assumption|].
    destruct (ctl s) as [|[|]| | |]; try discriminate. auto.
  - apply sbounded_dispatch. auto.
Qed.

Lemma sbookkeeping_dispatch (s : State) (xi : Val) (rest : list Val) :
  sbookkeeping s -> sbookkeeping (sdispatch s xi rest).
Proof.
  intros [Hin Hnd Hlt Hout Hall Hrej _ _].
  destruct (sdispatch_cases s xi rest) as [(ok & res & ->)|[->| ->]];
    constructor; cbn [promises removed issued rejected ctl]; try assumption;
    try discriminate.
  - intros p Hp. apply elem_of_union in Hp as [Hp|Hp].
    + specialize (Hin p Hp). lia.
    + apply elem_of_singleton in Hp. lia.
  - intros p Hp. specialize (Hlt p Hp). lia.
  - intros p Hp Hp'. apply elem_of_union in Hp' as [Hp'|Hp'].
    + exact (Hout p Hp Hp').
    + apply elem_of_singleton in Hp'. specialize (Hlt p Hp). lia.
  - intros p Hp. destruct (decide (p = issued s)) as [->|Hne].
    + left. set_solver.
    + destruct (Hall p ltac:(lia)); [left; set_solver | now right].
  - set_solver.
Qed.

Lemma sbookkeeping_step (s s' : State) :
  sbookkeeping s -> sstep s s' -> sbookkeeping s'.
Proof.
  intros Hb Hstep.
  destruct Hstep as [s xi rest _ _ _|s xi rest _ _ _ _|s xi rest p e _ _ _ _ _
                    |s p res Hwait Hp Hnr _|s p e Hwait Hp Hnr _|s xi rest _ _
                    |s _ _ Hempty|s _ _ _ _|s p e _ _ _ _|s awaited Hctl Hdone];
    try (now apply sbookkeeping_dispatch);
    destruct Hb as [Hin Hnd Hlt Hout Hall Hrej Hjoined _];
    constructor; cbn [promises removed issued rejected ctl]; try assumption;
    try discriminate.
  - (* the continuation of [p] *)
    intros q Hq. apply Hin. set_solver.
  - apply NoDup_app. repeat split; [assumption | | apply NoDup_singleton].
    intros q Hq Hq'. apply list_elem_of_singleton in Hq'. subst q.
    exact (Hout p Hq Hp).
  - intros q Hq. apply elem_of_app in Hq as [Hq|Hq]; [now apply Hlt|].
    apply list_elem_of_singleton in Hq. subst. now apply Hin.
  - intros q Hq. apply elem_of_app in Hq as [Hq|Hq].
    + specialize (Hout q Hq). set_solver.
    + apply list_elem_of_singleton in Hq. set_solver.
  - intros q Hq. destruct (decide (q = p)) as [->|Hne].
    + right. apply elem_of_app. right. now apply list_elem_of_singleton.
    + destruct (Hall q Hq) as [Hq'|Hq'];
        [left; set_solver | right; apply elem_of_app; now left].
  - set_solver.
  - intros awaited Hj. destruct (ctl s) as [|[|]|awaited'| |] eqn:E; try discriminate.
    injection Hj as <-. specialize (Hjoined _ eq_refl). set_solver.
  - intros res' Hf. destruct (ctl s) as [|[|]| | |]; discriminate.
  - (* [p] rejects *) set_solver.
  - intros awaited Hj. destruct (ctl s) as [|[|]| | |]; discriminate.
  - intros res' Hf. destruct (ctl s) as [|[|]| | |]; discriminate.
  - (* return result *)
    intros _ _ p Hp. destruct (Hall p Hp) as [Hp'|Hp']; [|assumption].
    rewrite Hempty in Hp'. set_solver.
  - (* await promiseAll(promises) *)
    intros awaited [= <-]. reflexivity.
  - (* promiseAll has fulfilled *)
    intros _ _ p Hp. destruct (Hall p Hp) as [Hp'|Hp']; [|assumption].
    apply Hdone. now apply (Hjoined awaited Hctl).
Qed.

(** The state in which [setMapPool] hands over to [_setMapPoolAsync]. *)
Lemma setMapPool_from_start (items acc : list Val) (s : State) :
  1 <= concurrency ->
  SetPool.setMapPool_from f source items acc = Async s ->
  sbounded concurrency s /\ sbookkeeping s.
Proof.
  intros Hsize. revert acc.
  induction items as [|xi rest IH]; intros acc; cbn [SetPool.setMapPool_from];
    [discriminate|].
  destruct (f [xi; xi; source]); try (apply IH); try discriminate.
  intros [= <-]. split; constructor; cbn; try discriminate.
  - rewrite size_singleton. lia.
  - intros p Hp. apply elem_of_singleton in Hp. lia.
  - apply NoDup_nil_2.
  - intros p Hp. now apply elem_of_nil in Hp.
  - intros p Hp. now apply elem_of_nil in Hp.
  - intros p Hp. left. apply elem_of_singleton. lia.
Qed.

Lemma setMapPool_invariants (s0 s : State) :
  sbounded concurrency s0 /\ sbookkeeping s0 -> rtc sstep s0 s ->
  sbounded concurrency s /\ sbookkeeping s.
Proof.
  intros H0 Hrun. induction Hrun as [|s1 s2 s3 Hstep _ IH]; [assumption|].
  apply IH. destruct H0. split.
  - eapply sbounded_step; eauto.
  - eapply sbookkeeping_step; eauto.
Qed.

End SetPoolFacts.

Lemma sstep_applies (concurrency : nat) (f : Fn) (source : Val)
  (s s' : SetPool.State) :
  SetPool.step concurrency f source s s' ->
  length (SetPool.todo s') < length (SetPool.todo s) ->
  (SetPool.ctl s = SetPool.Running /\ size (SetPool.promises s) < concurrency)
  \/ SetPool.ctl s = SetPool.Racing true.
Proof.
  intros Hstep Hlen.
  destruct Hstep as [s xi rest Hctl _ Hlt|s xi rest _ _ _ _|s xi rest q e _ _ _ _ _
                    |s q res _ Hq _ Hy|s q e _ _ _ _|s xi rest Hctl _
                    |s _ Htodo _|s _ Htodo _ _|s q e _ Htodo _ _|s awaited _ _];
    cbn in Hlen; try lia; auto.
  all: rewrite Htodo in Hlen; cbn in Hlen; lia.
Qed.

Lemma sstep_removes (concurrency : nat) (f : Fn) (source : Val)
  (s s' : SetPool.State) (p : nat) :
  SetPool.step concurrency f source s s' ->
  p ∈ SetPool.promises s -> p ∉ SetPool.promises s' ->
  SetPool.removed s' = SetPool.removed s ++ [p]
  /\ exists res, SetPool.fates s !! p = Some (true, res).
Proof.
  intros Hstep Hp Hp'.
  destruct Hstep as [s xi rest _ _ _|s xi rest _ _ _ _|s xi rest q e _ _ _ _ _
                    |s q res _ Hq _ Hy|s q e _ _ _ _|s xi rest _ _
                    |s _ _ _|s _ _ _ _|s q e _ _ _ _|s awaited _ _];
    cbn [SetPool.promises] in Hp'; try contradiction.
  - destruct (sdispatch_cases f source s xi rest) as [(ok & res & E)|[E|E]];
      rewrite E in Hp'; cbn [SetPool.promises] in Hp'; set_solver.
  - destruct (decide (p = q)) as [->|Hne].
    + cbn [SetPool.removed]. eauto.
    + exfalso. apply Hp'. apply elem_of_difference. split; [exact Hp|].
      now rewrite elem_of_singleton.
  - destruct (sdispatch_cases f source s xi rest) as [(ok & res & E)|[E|E]];
      rewrite E in Hp'; cbn [SetPool.promises] in Hp'; set_solver.
Qed.

(** ** What enters the set, and what never leaves it *)

(** The step that applies the mapper is [dispatch]. *)
Lemma step_dispatches (poolSize : nat) (f : Fn) (s s' : Pool.State) :
  Pool.step poolSize f s s' ->
  length (Pool.todo s') < length (Pool.todo s) ->
  exists xi rest, Pool.todo s = xi :: rest /\ s' = Pool.dispatch f s xi rest.
Proof.
  intros Hstep Hlen.
  destruct Hstep as [s xi rest _ Htodo _|s xi rest _ _ _ _|s xi rest q e _ _ _ _ _
                    |s q res _ Hq _ Hy|s q e _ _ _ _|s xi rest _ Htodo
                    |s _ Htodo _|s q e _ Htodo _ _|s _ _];
    cbn in Hlen; try lia; eauto.
  all: rewrite Htodo in Hlen; cbn in Hlen; lia.
Qed.

Lemma sstep_dispatches (concurrency : nat) (f : Fn) (source : Val)
  (s s' : SetPool.State) :
  SetPool.step concurrency f source s s' ->
  length (SetPool.todo s') < length (SetPool.todo s) ->
  exists xi rest,
    SetPool.todo s = xi :: rest /\ s' = SetPool.dispatch f source s xi rest.
Proof.
  intros Hstep Hlen.
  destruct Hstep as [s xi rest _ Htodo _|s xi rest _ _ _ _|s xi rest q e _ _ _ _ _
                    |s q res _ Hq _ Hy|s q e _ _ _ _|s xi rest _ Htodo
                    |s _ Htodo _|s _ Htodo _ _|s q e _ Htodo _ _|s awaited _ _];
    cbn in Hlen; try lia; eauto.
  all: rewrite Htodo in Hlen; cbn in Hlen; lia.
Qed.

(** A promise has one slot, and one that rejects stays in the set: only
    the continuation of a fulfilment deletes. *)
Lemma rejecting_stays (poolSize : nat) (f : Fn) (x : Val) (s : Pool.State) :
  Pool.reachable poolSize f x s ->
  (forall p ok res ok' res',
      Pool.Deferred p ok res ∈ Pool.y s -> Pool.Deferred p ok' res' ∈ Pool.y s ->
      ok = ok' /\ res = res')
  /\ (forall p e, Pool.Deferred p false e ∈ Pool.y s -> p ∈ Pool.promises s).
Proof.
  intros Hs.
  assert (Hk := bookkeeping_reachable poolSize f x).
  revert s Hs. apply reachable_ind.
  - split; intros *; cbn; intros H; now apply elem_of_nil in H.
  - intros s s' Hs [Huniq Hstay] Hstep.
    pose proof (bk_slot_lt _ (Hk s Hs)) as Hlt.
    assert (Hdispatch : forall xi rest,
               (forall p ok res ok' res',
                   Pool.Deferred p ok res ∈ Pool.y (Pool.dispatch f s xi rest) ->
                   Pool.Deferred p ok' res' ∈ Pool.y (Pool.dispatch f s xi rest) ->
                   ok = ok' /\ res = res')
               /\ (forall p e,
                      Pool.Deferred p false e ∈ Pool.y (Pool.dispatch f s xi rest) ->
                      p ∈ Pool.promises (Pool.dispatch f s xi rest))).
    { intros xi rest.
      destruct (dispatch_cases f s xi rest)
        as [(d & ok0 & res0 & _ & ->)|[(v & _ & ->)|(_ & ->)]];
        cbn [Pool.y Pool.promises]; [|auto|].
      - split.
        + intros p ok res ok' res' H1 H2.
          apply elem_of_app in H1 as [H1|H1], H2 as [H2|H2];
            rewrite ?list_elem_of_singleton in *.
          * eauto.
          * injection H2 as -> _ _. apply Hlt in H1. lia.
          * injection H1 as -> _ _. apply Hlt in H2. lia.
          * injection H1 as _ -> ->. injection H2 as _ -> ->. auto.
        + intros p e H. apply elem_of_app in H as [H|H].
          * apply elem_of_union. left. eauto.
          * apply list_elem_of_singleton in H. injection H as -> _ _.
            apply elem_of_union. right. now apply elem_of_singleton.
      - split.
        + intros p ok res ok' res' H1 H2.
          apply elem_of_app in H1 as [H1|H1], H2 as [H2|H2];
            rewrite ?list_elem_of_singleton in *; try discriminate. eauto.
        + intros p e H. apply elem_of_app in H as [H|H]; [eauto|].
          apply list_elem_of_singleton in H. discriminate. }
    destruct Hstep as [s xi rest _ _ _|s xi rest _ _ _ _|s xi rest q e _ _ _ _ _
                      |s q res _ Hq _ Hy|s q e _ _ _ _|s xi rest _ _
                      |s _ _ _|s q e _ _ _ _|s _ _];
      try apply Hdispatch; cbn [Pool.y Pool.promises]; try (split; assumption).
    split; [assumption|]. intros p e H.
    apply elem_of_difference. split; [eauto|].
    intros Hp. apply elem_of_singleton in Hp as ->.
    destruct (Huniq q false e true res H Hy). discriminate.
Qed.

Lemma srejecting_stays (concurrency : nat) (f : Fn) (source : Val)
  (s0 s : SetPool.State) :
  SetPool.setMapPool f source = SetPool.Async s0 ->
  rtc (SetPool.step concurrency f source) s0 s ->
  forall p e, SetPool.fates s !! p = Some (false, e) -> p ∈ SetPool.promises s.
Proof.
  intros Hstart Hrun. revert s Hrun.
  apply (rtc_ind_r (fun s => forall p e, SetPool.fates s !! p = Some (false, e) ->
                                         p ∈ SetPool.promises s)).
  - unfold SetPool.setMapPool in Hstart. revert Hstart.
    generalize (@nil Val) as acc.
    induction (iterate source) as [|xi rest IH]; intros acc;
      cbn [SetPool.setMapPool_from]; [discriminate|].
    destruct (f [xi; xi; source]); try discriminate; try apply IH.
    intros [= <-] p e. cbn [SetPool.fates SetPool.promises].
    intros H. apply lookup_singleton_Some in H as [<- _]. now apply elem_of_singleton.
  - intros s s' _ Hstep Hstay.
    assert (Hdispatch : forall xi rest p e,
               SetPool.fates (SetPool.dispatch f source s xi rest) !! p = Some (false, e) ->
               p ∈ SetPool.promises (SetPool.dispatch f source s xi rest)).
    { intros xi rest p e.
      destruct (sdispatch_cases f source s xi rest) as [(ok & res & ->)|[->| ->]];
        cbn [SetPool.fates SetPool.promises]; [|apply Hstay|apply Hstay].
      destruct (decide (p = SetPool.issued s)) as [->|Hne].
      - intros _. apply elem_of_union. right. now apply elem_of_singleton.
      - rewrite lookup_insert_ne by congruence. intros H.
        apply elem_of_union. left. eauto. }
    destruct Hstep as [s xi rest _ _ _|s xi rest _ _ _ _|s xi rest q e' _ _ _ _ _
                      |s q res _ Hq _ Hy|s q e' _ _ _ _|s xi rest _ _
                      |s _ _ _|s _ _ _ _|s q e' _ _ _ _|s awaited _ _];
      try apply Hdispatch; cbn [SetPool.fates SetPool.promises]; try assumption.
    intros p e H. apply elem_of_difference. split; [eauto|].
    intros Hp. apply elem_of_singleton in Hp as ->. congruence.
Qed.

Lemma sdispatch_results (f : Fn) (source : Val) (s : SetPool.State) (xi : Val)
  (rest : list Val) :
  (exists t ok res,
      f [xi; xi; source] = VPromise t ok res
      /\ SetPool.dispatch f source s xi rest
         = SetPool.mkState rest (SetPool.result s)
             (<[SetPool.issued s := (ok, res)]> (SetPool.fates s))
             (SetPool.promises s ∪ {[SetPool.issued s]}) (SetPool.rejected s)
             (SetPool.removed s) (S (SetPool.issued s)) SetPool.Running)
  \/ (exists w,
      f [xi; xi; source] = VSyncThenable w
      /\ SetPool.dispatch f source s xi rest
         = SetPool.mkState rest (SetPool.result s) (SetPool.fates s)
             (SetPool.promises s) (SetPool.rejected s) (SetPool.removed s)
             (SetPool.issued s) (SetPool.Failed Pool.temporalDeadZone))
  \/ (isPromise (f [xi; xi; source]) = false
      /\ SetPool.dispatch f source s xi rest
         = SetPool.mkState rest (setAdd (f [xi; xi; source]) (SetPool.result s))
             (SetPool.fates s) (SetPool.promises s) (SetPool.rejected s)
             (SetPool.removed s) (SetPool.issued s) SetPool.Running).
Proof.
  unfold SetPool.dispatch.
  destruct (f [xi; xi; source]) eqn:E;
    first [ now (right; right; split)
          | now (left; eexists _, _, _; split)
          | now (right; left; eexists; split)
          | now (left; eexists _, _)
          | now (right; left)
          | now (right; right) ].
Qed.

(** C4, as stated, for a mapper that answers with a promise that rejects:
    [map.pool(1, f)([1])] runs to its end, failed, with the entry still
    in the set and [promises.delete] never called.  There is a
    continuation for the fulfilment only. *)
Lemma pool_rejected_entry_is_never_removed :
  exists s,
    Pool.reachable 1 (always (VPromise 1 false (VStr "no"))) (VArray [VNum 1]) s
    /\ Pool.ctl s = Pool.Failed (VStr "no")
    /\ 0 ∈ Pool.promises s
    /\ Pool.removed s = []
    /\ forall s', ~ Pool.step 1 (always (VPromise 1 false (VStr "no"))) s s'.
Proof.
  eexists. split.
  { unfold Pool.reachable.
    eapply rtc_l.
    { apply (Pool.step_dispatch _ _ _ (VNum 1) []); [reflexivity | reflexivity|].
      cbn. rewrite size_empty. lia. }
    eapply rtc_l.
    { apply Pool.step_join; reflexivity. }
    eapply rtc_l.
    { apply (Pool.step_reject _ _ _ 0 (VStr "no")); cbn.
      - reflexivity.
      - set_solver.
      - set_solver.
      - apply list_elem_of_singleton. reflexivity. }
    apply rtc_refl. }
  cbn. split; [reflexivity|]. split; [set_solver|]. split; [reflexivity|].
  intros s' Hstep. inversion Hstep; cbn in *; discriminate.
Qed.

(** C4 (amended): for every run of [map.pool(n, f)(c)] with [n >= 1],
    whatever the order in which the pending results resolve: the in-flight
    set never holds more than [n] entries; [f] is applied to the next
    element only while fewer than [n] applications are outstanding, for
    with [n] outstanding the loop suspends, nothing is applied while it is
    suspended, and it is woken by the resolution of one of them; an
    application that answers with a promise enters the set as a new entry
    and one that answers at once does not; an entry leaves the set only
    through the continuation of its own fulfilment, which runs at most
    once, so that at any time an entry is either in the set or has been
    removed, once, and in a run that has fulfilled every entry has been
    removed.  An entry whose application rejects is never removed, and
    the run does not fulfil.  The same holds of the runs of
    [_setMapPoolAsync] that [setMapPool] starts. *)
Theorem pool_in_flight_bound (n : Z) (f : Fn) (x : Val) :
  (1 <= n)%Z ->
  (poolable x ->
   exists unary,
     Pool.pool (VNum n) (Func f) = Normal unary
     /\ unary (Data x)
        = Pool.Pooling (shapeOfPoolable x) (Z.to_nat n) f (Pool.start x))
  /\ (forall s,
      Pool.reachable (Z.to_nat n) f x s ->
      size (Pool.promises s) <= Z.to_nat n
      /\ (forall s', Pool.step (Z.to_nat n) f s s' ->
                     length (Pool.todo s') < length (Pool.todo s) ->
                     size (Pool.promises s) < Z.to_nat n)
      /\ (Pool.ctl s = Pool.Running -> Pool.todo s <> [] ->
          Z.to_nat n <= size (Pool.promises s) ->
          forall s', Pool.step (Z.to_nat n) f s s' ->
                     Pool.todo s' = Pool.todo s /\ Pool.y s' = Pool.y s
                     /\ (Pool.ctl s' = Pool.Racing false
                         \/ exists e, Pool.ctl s' = Pool.Failed e))
      /\ (Pool.ctl s = Pool.Racing false ->
          forall s', Pool.step (Z.to_nat n) f s s' ->
                     Pool.todo s' = Pool.todo s /\ Pool.y s' = Pool.y s
                     /\ ((exists p res,
                            p ∈ Pool.promises s
                            /\ Pool.Deferred p true res ∈ Pool.y s
                            /\ Pool.promises s' = Pool.promises s ∖ {[p]}
                            /\ Pool.ctl s' = Pool.Racing true)
                         \/ exists e, Pool.ctl s' = Pool.Failed e))
      /\ NoDup (Pool.removed s)
      /\ (forall p, p ∈ Pool.removed s -> p ∉ Pool.promises s)
      /\ (forall s' p, Pool.step (Z.to_nat n) f s s' ->
                       p ∈ Pool.promises s -> p ∉ Pool.promises s' ->
                       Pool.removed s' = Pool.removed s ++ [p]
                       /\ exists res, Pool.Deferred p true res ∈ Pool.y s)
      /\ (forall result, Pool.ctl s = Pool.Fulfilled result ->
                         forall p, p < Pool.issued s -> p ∈ Pool.removed s)
      /\ (forall p, p < Pool.issued s ->
                    (p ∈ Pool.promises s /\ p ∉ Pool.removed s)
                    \/ (p ∈ Pool.removed s /\ p ∉ Pool.promises s))
      /\ (forall s', Pool.step (Z.to_nat n) f s s' ->
                     length (Pool.todo s') < length (Pool.todo s) ->
                     exists xi rest,
                       Pool.todo s = xi :: rest /\ Pool.todo s' = rest
                       /\ (forall t ok res,
                              f [xi] = VPromise t ok res ->
                              (Pool.issued s ∉ Pool.promises s)
                              /\ Pool.promises s' = Pool.promises s ∪ {[Pool.issued s]}
                              /\ Pool.y s' = Pool.y s ++ [Pool.Deferred (Pool.issued s) ok res]
                              /\ Pool.issued s' = S (Pool.issued s))
                       /\ (isPromise (f [xi]) = false ->
                           Pool.promises s' = Pool.promises s
                           /\ Pool.y s' = Pool.y s ++ [Pool.Direct (f [xi])]))
      /\ (forall p e, Pool.Deferred p false e ∈ Pool.y s ->
                      p ∈ Pool.promises s /\ (p ∉ Pool.removed s)
                      /\ forall result, Pool.ctl s <> Pool.Fulfilled result))
  /\ (forall s0 s,
      SetPool.setMapPool f x = SetPool.Async s0 ->
      rtc (SetPool.step (Z.to_nat n) f x) s0 s ->
      size (SetPool.promises s) <= Z.to_nat n
      /\ (forall s', SetPool.step (Z.to_nat n) f x s s' ->
                     length (SetPool.todo s') < length (SetPool.todo s) ->
                     size (SetPool.promises s) < Z.to_nat n)
      /\ NoDup (SetPool.removed s)
      /\ (forall p, p ∈ SetPool.removed s -> p ∉ SetPool.promises s)
      /\ (forall s' p, SetPool.step (Z.to_nat n) f x s s' ->
                       p ∈ SetPool.promises s -> p ∉ SetPool.promises s' ->
                       SetPool.removed s' = SetPool.removed s ++ [p]
                       /\ exists res, SetPool.fates s !! p = Some (true, res))
      /\ (forall result, SetPool.ctl s = SetPool.Fulfilled result ->
                         forall p, p < SetPool.issued s -> p ∈ SetPool.removed s)
      /\ (forall p, p < SetPool.issued s ->
                    (p ∈ SetPool.promises s /\ p ∉ SetPool.removed s)
                    \/ (p ∈ SetPool.removed s /\ p ∉ SetPool.promises s))
      /\ (forall s', SetPool.step (Z.to_nat n) f x s s' ->
                     length (SetPool.todo s') < length (SetPool.todo s) ->
                     exists xi rest,
                       SetPool.todo s = xi :: rest /\ SetPool.todo s' = rest
                       /\ (forall t ok res,
                              f [xi; xi; x] = VPromise t ok res ->
                              (SetPool.issued s ∉ SetPool.promises s)
                              /\ SetPool.promises s'
                                 = SetPool.promises s ∪ {[SetPool.issued s]}
                              /\ SetPool.fates s' !! SetPool.issued s = Some (ok, res)
                              /\ SetPool.issued s' = S (SetPool.issued s))
                       /\ (isPromise (f [xi; xi; x]) = false ->
                           SetPool.promises s' = SetPool.promises s
                           /\ SetPool.result s'
                              = setAdd (f [xi; xi; x]) (SetPool.result s)))
      /\ (forall p e, SetPool.fates s !! p = Some (false, e) ->
                      p ∈ SetPool.promises s /\ (p ∉ SetPool.removed s)
                      /\ forall result, SetPool.ctl s <> SetPool.Fulfilled result)).
Proof.
  intros Hn. split; [|split].
  - intros Hx. eexists. split.
    { unfold Pool.pool. rewrite (proj2 (Z.ltb_ge n 1)) by lia. reflexivity. }
    destruct x; try contradiction; reflexivity.
  - intros s Hs.
    destruct (bounded_reachable _ _ _ _ Hs) as [Hle Hwon _].
    destruct (bookkeeping_reachable _ _ _ _ Hs) as [Hin Hnd Hrlt Hout Hall _ Hslt _ Hdone].
    destruct (rejecting_stays _ _ _ _ Hs) as [_ Hstay].
    split; [assumption|]. split.
    { intros s' Hstep Hlen.
      destruct (step_applies _ _ _ _ Hstep Hlen) as [[_ Hlt]|Hr]; auto. }
    split; [intros; eapply step_full; eauto|].
    split; [intros; eapply step_suspended; eauto|].
    split; [assumption|]. split; [assumption|].
    split; [intros; eapply step_removes; eauto|]. split; [assumption|].
    split; [|split].
    + intros p Hp. destruct (Hall p Hp) as [H|H]; [left | right]; split; auto.
      intros Hr. now apply (Hout p).
    + intros s' Hstep Hlen.
      destruct (step_dispatches _ _ _ _ Hstep Hlen) as (xi & rest & Htodo & ->).
      exists xi, rest. split; [assumption|].
      destruct (dispatch_cases f s xi rest)
        as [(d & ok0 & res0 & Hf & ->)|[(v & Hf & ->)|(Hf & ->)]];
        cbn [Pool.todo Pool.promises Pool.y Pool.issued];
        (split; [reflexivity|]); split.
      * intros t ok res E. rewrite Hf in E. injection E as _ <- <-.
        split; [|auto]. intros Hp. apply Hin in Hp. lia.
      * rewrite Hf. discriminate.
      * intros t ok res E. rewrite Hf in E. discriminate.
      * rewrite Hf. discriminate.
      * intros t ok res E. rewrite E in Hf. discriminate.
      * auto.
    + intros p e Hy. pose proof (Hstay p e Hy) as Hp.
      split; [assumption|]. split; [intros Hr; now apply (Hout p)|].
      intros result Hctl.
      apply (Hout p); [|assumption]. apply (Hdone result Hctl). eauto.
  - intros s0 s Hstart Hrun.
    destruct (setMapPool_invariants (Z.to_nat n) f x s0 s) as [[Hle Hwon] Hbk].
    { eapply setMapPool_from_start; [lia | exact Hstart]. }
    { assumption. }
    pose proof (srejecting_stays _ _ _ _ _ Hstart Hrun) as Hstay.
    destruct Hbk as [Hin Hnd Hrlt Hout Hall _ _ Hdone].
    split; [assumption|]. split.
    { intros s' Hstep Hlen.
      destruct (sstep_applies _ _ _ _ _ Hstep Hlen) as [[_ Hlt]|Hr]; auto. }
    split; [assumption|]. split; [assumption|].
    split; [intros; eapply sstep_removes; eauto|]. split; [assumption|].
    split; [|split].
    + intros p Hp. destruct (Hall p Hp) as [H|H]; [left | right]; split; auto.
      intros Hr. now apply (Hout p).
    + intros s' Hstep Hlen.
      destruct (sstep_dispatches _ _ _ _ _ Hstep Hlen) as (xi & rest & Htodo & ->).
      exists xi, rest. split; [assumption|].
      destruct (sdispatch_results f x s xi rest)
        as [(d & ok0 & res0 & Hf & ->)|[(v & Hf & ->)|(Hf & ->)]];
        cbn [SetPool.todo SetPool.promises SetPool.fates SetPool.issued SetPool.result];
        (split; [reflexivity|]); split.
      * intros t ok res E. rewrite Hf in E. injection E as _ <- <-.
        split; [|split; [reflexivity|split; [apply lookup_insert_eq | reflexivity]]].
        intros Hp. apply Hin in Hp. lia.
      * rewrite Hf. discriminate.
      * intros t ok res E. rewrite Hf in E. discriminate.
      * rewrite Hf. discriminate.
      * intros t ok res E. rewrite E in Hf. discriminate.
      * auto.
    + intros p e Hy. pose proof (Hstay p e Hy) as Hp.
      split; [assumption|]. split; [intros Hr; now apply (Hout p)|].
      intros result Hctl.
      apply (Hout p); [|assumption]. apply (Hdone result Hctl). now apply Hin.
Qed.

Lemma pool_in_flight_bound_witness :
  exists unary,
    Pool.pool (VNum 2) (Func delayed) = Normal unary
    /\ unary (Data oneToFive) = Pool.Pooling Array 2 delayed (Pool.start oneToFive).
Proof.
  apply (proj1 (pool_in_flight_bound 2 delayed oneToFive ltac:(lia))).
  exact I.
Defined.

(** * Further properties of the library *)

(** ** Pipes *)

Lemma stages_snoc (funcs : list Fn) (func : Fn) (v : Val) :
  stages (funcs ++ [func]) v = stages funcs v ++ [func [chain funcs v]].
Proof.
  revert v. induction funcs as [|g funcs IH]; intros v; cbn [stages app].
  - reflexivity.
  - rewrite IH. reflexivity.
Qed.

Lemma chain_snoc (funcs : list Fn) (func : Fn) (v : Val) :
  chain (funcs ++ [func]) v = settled (func [chain funcs v]).
Proof. unfold chain. now rewrite fold_left_app. Qed.

Lemma totalDelay_snoc (results : list Val) (r : Val) :
  totalDelay (results ++ [r]) = totalDelay results + delayOf r.
Proof.
  induction results as [|r0 results IH]; cbn [totalDelay app fold_right].
  - lia.
  - fold (totalDelay (results ++ [r])). fold (totalDelay results). lia.
Qed.

(** What [funcConcat] makes of what its first function returned. *)
Lemma funcConcat_data (funcAB funcBC : Fn) (args : list Val) :
  (rejects (funcAB args) = true -> Flow.funcConcat funcAB funcBC args = funcAB args)
  /\ (rejects (funcAB args) = false ->
      rejects (Flow.funcConcat funcAB funcBC args)
      = rejects (funcBC [settled (funcAB args)])
      /\ settled (Flow.funcConcat funcAB funcBC args)
         = settled (funcBC [settled (funcAB args)])
      /\ delayOf (Flow.funcConcat funcAB funcBC args)
         = delayOf (funcAB args) + delayOf (funcBC [settled (funcAB args)]))
  /\ (isPromise (funcAB args) = false ->
      Flow.funcConcat funcAB funcBC args = funcBC [funcAB args]).
Proof.
  unfold Flow.funcConcat. cbn [Flow.flowsIsPromise Flow.flowsThen Flow.flows_data].
  destruct (funcAB args) as [| | | | | | | | | | | | |t [|] w|w];
    cbn [isPromise rejects settled delayOf callThen valueOf];
    (split; [try discriminate; try reflexivity|]);
    (split; [|try discriminate; try reflexivity]);
    try (intros _; repeat split; reflexivity); try discriminate.
  intros _.
  destruct (funcBC [w]) as [| | | | | | | | | | | | |t' [|] u|u];
    cbn [resolveWith rejects settled delayOf]; repeat split; lia.
Qed.

Lemma pipeline_data (first : Fn) (rest : list Fn) (args : list Val) :
  let results := first args :: stages rest (settled (first args)) in
  let r := fold_left Flow.funcConcat rest first args in
  rejects r = existsb rejects results
  /\ (existsb rejects results = false ->
      settled r = chain rest (settled (first args))
      /\ delayOf r = totalDelay results).
Proof.
  induction rest as [|g rest IH] using rev_ind; cbn zeta.
  - cbn [fold_left stages existsb chain totalDelay fold_right].
    rewrite orb_false_r. split; [reflexivity|]. intros _. split; [reflexivity | lia].
  - cbn zeta in IH. destruct IH as [IHr IHs].
    rewrite fold_left_app. cbn [fold_left]. unfold Fn in *.
    rewrite stages_snoc, app_comm_cons, existsb_app.
    simpl (existsb rejects [_]). rewrite orb_false_r.
    match goal with
    | |- context [Flow.funcConcat ?prefix g args] =>
        destruct (funcConcat_data prefix g args) as (Hrej & Hok & _)
    end.
    destruct (existsb rejects (first args :: stages rest (settled (first args))))
      eqn:E.
    + rewrite (Hrej IHr). cbn [orb]. split; [exact IHr | discriminate].
    + destruct (IHs eq_refl) as [IHv IHd].
      destruct (Hok IHr) as (H1 & H2 & H3). rewrite IHv in H1, H2, H3.
      cbn [orb]. split; [exact H1|]. intros _.
      rewrite chain_snoc. split; [exact H2|].
      rewrite totalDelay_snoc. lia.
Qed.

Lemma pipeline_sync (first : Fn) (rest : list Fn) (args : list Val) :
  Forall (fun r => isPromise r = false) (first args :: stages rest (settled (first args))) ->
  fold_left Flow.funcConcat rest first args = chain rest (first args)
  /\ isPromise (chain rest (first args)) = false.
Proof.
  induction rest as [|g rest IH] using rev_ind; intros Hs.
  - cbn. now inversion Hs.
  - rewrite stages_snoc, app_comm_cons in Hs. apply Forall_app in Hs as [Hs Hg].
    destruct (IH Hs) as [IHr IHp].
    assert (Hfirst : settled (first args) = first args).
    { apply settled_not_promise. now inversion Hs. }
    assert (Hc : chain rest (settled (first args)) = chain rest (first args))
      by now rewrite Hfirst.
    apply Forall_cons_1 in Hg as [Hg _]. rewrite Hc in Hg.
    rewrite fold_left_app. cbn [fold_left]. unfold Fn in *.
    match goal with
    | |- context [Flow.funcConcat ?prefix g args] =>
        destruct (funcConcat_data prefix g args) as (_ & _ & Hsync)
    end.
    rewrite IHr in Hsync. rewrite (Hsync IHp), chain_snoc.
    rewrite (settled_not_promise _ Hg). now split.
Qed.

(** X1: [pipe(funcs)] applied to data calls the functions from left to
    right, each with what the one before delivered: the result rejects
    when one of them does, and otherwise delivers what the last function
    delivers, after the delays of all of them one after the other; when no
    function answers with a promise the result is there at once.  A pipe
    of no functions cannot be built. *)
Theorem pipe_runs_in_series (first : Fn) (rest : list Fn) (args : list Val) :
  let results := first args :: stages rest (settled (first args)) in
  Flow.pipe (V := Val) [] = Throw Flow.emptyReduce
  /\ exists pipeline,
      Flow.pipe (first :: rest) = Normal pipeline
      /\ rejects (pipeline args) = existsb rejects results
      /\ (Forall (fun r => rejects r = false) results ->
          settled (pipeline args) = chain rest (settled (first args))
          /\ delayOf (pipeline args) = totalDelay results)
      /\ (Forall (fun r => isPromise r = false) results ->
          pipeline args = chain rest (first args)).
Proof.
  cbn zeta. split; [reflexivity|].
  unfold Flow.pipe, Flow.reduceFuncs, Flow.reduceRightFuncs. cbn [bindC].
  unfold Fn in *.
  destruct (rev (first :: rest)) as [|last before] eqn:Erev.
  { apply (f_equal (@length _)) in Erev. rewrite length_rev in Erev. discriminate. }
  cbn [bindC]. eexists. split; [reflexivity|].
  assert (Hcall : forall arguments : list Val,
             match arguments with
             | firstArg :: _ =>
                 if Flow.flowsIsReducer firstArg
                 then fold_left Flow.funcConcat before last arguments
                 else fold_left Flow.funcConcat rest first arguments
             | [] => fold_left Flow.funcConcat rest first arguments
             end = fold_left Flow.funcConcat rest first arguments).
  { intros [|firstArg arguments]; reflexivity. }
  cbv beta. rewrite !(Hcall args).
  destruct (pipeline_data first rest args) as [Hr Hs]. cbn zeta in Hr, Hs.
  split; [exact Hr|]. split.
  - intros Hok. apply Hs.
    apply not_true_is_false. intros Hex. apply List.existsb_exists in Hex as (r & Hin & Hrej).
    rewrite List.Forall_forall in Hok. specialize (Hok r Hin). congruence.
  - intros Hsync. now apply pipeline_sync.
Qed.

Lemma pipe_runs_in_series_witness :
  exists pipeline,
    Flow.pipe [delayed; pendingDouble; double] = Normal pipeline
    /\ settled (pipeline [VNum 3]) = VNum 12
    /\ delayOf (pipeline [VNum 3]) = 10.
Proof.
  destruct (proj2 (pipe_runs_in_series delayed [pendingDouble; double] [VNum 3]))
    as (pipeline & Hp & _ & Hok & _).
  exists pipeline. split; [exact Hp|].
  apply Hok. repeat constructor.
Defined.

Lemma composition_reducers (funcs : list (list Fn -> Fn)) (last : list Fn -> Fn)
  (reducer : Fn) :
  fold_left Flow.funcConcat funcs last [reducer]
  = fold_left (fun r t => t [r]) funcs (last [reducer]).
Proof.
  revert last. induction funcs as [|t funcs IH]; intros last; cbn [fold_left].
  - reflexivity.
  - rewrite IH. reflexivity.
Qed.

(** X2: in transducer position, that is handed a reducer,
    [pipe([t1, ..., tn])] applies its functions from right to left: the
    reducer it hands back is [t1(t2(...tn(reducer)))].  So the composed
    reducer of [pipe([filter(p), map(f)])] tests the raw element with [p]
    first and hands the mapped element to [reducer], the stages being run
    in the order in which they are written. *)
Theorem pipe_composes_transducers
  (join : list Val -> string) (typedFrom : list Val -> list Val)
  (first : list Fn -> Fn) (rest : list (list Fn -> Fn)) (reducer : Fn) :
  (exists composition,
      Flow.pipe (first :: rest) = Normal composition
      /\ composition [reducer] = fold_right (fun t r => t [r]) reducer (first :: rest))
  /\ forall f p : Fn,
      synchronous f -> synchronous p ->
      exists composition,
        Flow.pipe [transducer (Index.filter typedFrom (Func p));
                   transducer (Index.map join typedFrom (Func f))]
        = Normal composition
        /\ forall y xi,
            composition [reducer] [y; xi]
            = if truthy (p [xi]) then reducer [y; f [xi]] else y.
Proof.
  assert (Hpipe : forall (first : list Fn -> Fn) (rest : list (list Fn -> Fn)),
            exists composition,
              Flow.pipe (first :: rest) = Normal composition
              /\ composition [reducer]
                 = fold_right (fun t r => t [r]) reducer (first :: rest)).
  { clear first rest. intros first rest.
    unfold Flow.pipe, Flow.reduceFuncs, Flow.reduceRightFuncs. cbn [bindC].
    destruct (rev (first :: rest)) as [|last before] eqn:Erev.
    { apply (f_equal (@length _)) in Erev. rewrite length_rev in Erev. discriminate. }
    cbn [bindC]. eexists. split; [reflexivity|].
    cbn [Flow.flowsIsReducer Flow.flows_reducers].
    rewrite composition_reducers.
    assert (Efuncs : first :: rest = rev before ++ [last]).
    { rewrite <- (rev_involutive (first :: rest)), Erev. reflexivity. }
    rewrite Efuncs, fold_right_app. cbn [fold_right].
    symmetry. apply (fold_left_rev_right (fun (t : list Fn -> Fn) (r : Fn) => t [r])). }
  split; [apply Hpipe|].
  intros f p Hf Hp.
  destruct (Hpipe (transducer (Index.filter typedFrom (Func p)))
              [transducer (Index.map join typedFrom (Func f))])
    as (composition & E & Hc).
  exists composition. split; [exact E|]. intros y xi. rewrite Hc.
  cbn [fold_right]. unfold transducer. cbn [nth].
  change (Index.filterReducer p (Index.mapReducer f reducer) [y; xi]
          = if truthy (p [xi]) then reducer [y; f [xi]] else y).
  now apply composed_reducer.
Qed.

Lemma pipe_composes_transducers_witness :
  exists composition,
    Flow.pipe [transducer (Index.filter (fun l => l) (Func isOdd));
               transducer (Index.map (fun _ => "") (fun l => l) (Func double))]
    = Normal composition
    /\ forall y xi,
        composition [add] [y; xi]
        = if truthy (isOdd [xi]) then add [y; double [xi]] else y.
Proof.
  apply (proj2 (pipe_composes_transducers (fun _ => "") (fun l => l)
                  (fun rs => nth 0 rs add) [] add) double isOdd).
  - intros args. unfold double. destruct (arg 0 args); reflexivity.
  - intros args. unfold isOdd. destruct (arg 0 args); reflexivity.
Defined.

(** ** Forks *)

Lemma collecting {A : Type} (g : A -> Val) (l : list A) (isAsync : bool) (y : list Val) :
  fold_left
    (fun '(isAsync, y) a =>
       let point := g a in
       ((if isPromise point then true else isAsync), y ++ [point]))
    l (isAsync, y)
  = (isAsync || existsb isPromise (List.map g l), y ++ List.map g l).
Proof.
  revert isAsync y. induction l as [|a l IH]; intros isAsync y; cbn.
  - now rewrite orb_false_r, app_nil_r.
  - rewrite IH, <- app_assoc. cbn [app].
    destruct (isPromise (g a)), isAsync; reflexivity.
Qed.

Lemma promised_dual (points : list Val) :
  dual (Returned (if existsb isPromise points then promiseAll points else VArray points))
    points (fun v => v = VArray (List.map settled points)).
Proof.
  split.
  - intros Hsync. rewrite existsb_isPromise_false by assumption.
    rewrite map_settled_sync by assumption. cbn. eauto.
  - intros Hpending. rewrite existsb_isPromise_true by assumption.
    destruct (promiseAll_is_promise points) as (t & ok & v & E). rewrite E.
    eexists _, _, _. split; [reflexivity|]. intros Hnr.
    rewrite promiseAll_fulfils in E by assumption. injection E as _ <- <-.
    split; reflexivity.
Qed.

Lemma funcAll_spec (funcs : list Fn) (args : list Val) :
  Flow.funcAll funcs args
  = if existsb isPromise (List.map (fun func => func args) funcs)
    then promiseAll (List.map (fun func => func args) funcs)
    else VArray (List.map (fun func => func args) funcs).
Proof.
  unfold Flow.funcAll.
  pose proof (collecting (fun func : Fn => func args) funcs false []) as E.
  cbn beta in E. unfold Fn in *. rewrite E. reflexivity.
Qed.

(** X3: [fork] of an array of functions hands back, position by
    position, what the functions return for the arguments: the array
    itself when no function answers with a promise, and otherwise a
    promise that, when no function rejects, fulfils with the array of what
    they deliver. *)
Theorem fork_array_positions (funcs : list Fn) (args : list Val) :
  dual (ofCompletion (Flow.fork (Flow.ArrayOfFuncs funcs) args))
    (List.map (fun func => func args) funcs)
    (fun v => v = VArray (List.map (fun func => settled (func args)) funcs)).
Proof.
  cbn [Flow.fork ofCompletion]. rewrite funcAll_spec.
  eapply dual_impl; [|apply promised_dual].
  intros v ->. now rewrite List.map_map.
Qed.

Lemma fork_array_positions_witness :
  exists t ok v,
    ofCompletion (Flow.fork (Flow.ArrayOfFuncs [double; pendingDouble; delayed]) [VNum 4])
    = Returned (VPromise t ok v)
    /\ (Forall (fun pt => rejects pt = false)
          (List.map (fun func : Fn => func [VNum 4]) [double; pendingDouble; delayed]) ->
        ok = true /\ v = VArray [VNum 8; VNum 8; VNum 4]).
Proof.
  apply (proj2 (fork_array_positions [double; pendingDouble; delayed] [VNum 4])).
  right. left. reflexivity.
Defined.

Lemma objSet_NoDup (k : string) (v : Val) (props : list (string * Val)) :
  NoDup (List.map fst props) -> NoDup (List.map fst (objSet k v props)).
Proof.
  induction props as [|[k' v'] props IH]; cbn [objSet List.map fst]; intros Hnd.
  - apply NoDup_singleton.
  - apply NoDup_cons in Hnd as [Hk' Hnd].
    case_bool_decide as E; cbn [List.map fst]; apply NoDup_cons.
    + subst. now split.
    + split; [|now apply IH]. rewrite objSet_keys. intros [?|?]; congruence.
Qed.

Lemma fold_objSet_NoDup (order props : list (string * Val)) :
  NoDup (List.map fst props) ->
  NoDup (List.map fst (fold_left (commitPair objSet) order props)).
Proof.
  revert props. induction order as [|[k r] order IH]; intros props Hnd; cbn [fold_left].
  - assumption.
  - apply IH. unfold commitPair; cbn [fst snd]. now apply objSet_NoDup.
Qed.

Lemma fold_commit_keys (order : list ((string * Fn) * Val)) (y : list (string * Val)) :
  fold_left (commitPair (fun (kf : string * Fn) res output => objSet (fst kf) res output))
    order y
  = fold_left (commitPair objSet) (List.map (fun p => (fst (fst p), snd p)) order) y.
Proof.
  revert y. induction order as [|[[k func] r] order IH]; intros y; cbn [fold_left List.map].
  - reflexivity.
  - rewrite IH. reflexivity.
Qed.

Lemma funcObjectAll_dual (funcs : list (string * Fn)) (args : list Val) :
  NoDup (List.map fst funcs) ->
  dual (ofCompletion (Flow.funcObjectAll funcs args)) (forkPoints funcs args)
    (forkImage funcs args).
Proof.
  intros Hnd. unfold Flow.funcObjectAll, forkPoints.
  apply (singlePass_dual _ VObject (fun kf : string * Fn => snd kf args)
           (fun kf res output => objSet (fst kf) res output)).
  - reflexivity.
  - apply List.Forall_forall. intros k _ y. reflexivity.
  - intros order Hperm. rewrite fold_commit_keys.
    set (order' := List.map (fun p : string * Fn * Val => (fst (fst p), snd p)) order).
    assert (Hkeys : Permutation (List.map fst order') (List.map fst funcs)).
    { unfold order'. rewrite Hperm, !List.map_map. reflexivity. }
    eexists. split; [reflexivity|]. split; [|split].
    + apply fold_objSet_NoDup. constructor.
    + intros k. rewrite fold_objSet_keys, Hkeys. cbn [List.map].
      rewrite elem_of_nil. tauto.
    + intros k func Hin. apply fold_objSet_get.
      * now rewrite Hkeys.
      * unfold order'. rewrite Hperm, List.map_map. cbn [fst snd].
        apply list_elem_of_fmap. exists (k, func). split; [reflexivity | assumption].
Qed.

(** X4: [fork] of an object of functions (with distinct property names)
    hands back the object that has the property names of [funcs] and holds
    under each what the function of that name delivers for the arguments:
    at once when no function answers with a promise, and otherwise as a
    promise, which fulfils with that object when no function rejects. *)
Theorem fork_object_properties (funcs : list (string * Fn)) (args : list Val) :
  NoDup (List.map fst funcs) ->
  dual (ofCompletion (Flow.fork (Flow.ObjectOfFuncs funcs) args))
    (forkPoints funcs args) (forkImage funcs args).
Proof. apply funcObjectAll_dual. Qed.

Lemma fork_object_properties_witness :
  exists t ok v,
    ofCompletion
      (Flow.fork (Flow.ObjectOfFuncs [("twice", pendingDouble); ("same", identity)])
         [VNum 4])
    = Returned (VPromise t ok v)
    /\ (Forall (fun pt => rejects pt = false)
          (forkPoints [("twice", pendingDouble); ("same", identity)] [VNum 4]) ->
        ok = true
        /\ forkImage [("twice", pendingDouble); ("same", identity)] [VNum 4] v).
Proof.
  apply (proj2 (fork_object_properties
                  [("twice", pendingDouble); ("same", identity)] [VNum 4]
                  ltac:(repeat constructor; set_solver))).
  left. reflexivity.
Defined.

(** ** Forks in series *)

Lemma asyncFuncAllSeries_spec (funcs : list Fn) (args : list Val) (t : nat)
  (output : list Val) :
  exists t' v,
    Flow.asyncFuncAllSeries funcs args t output
    = VPromise t' (negb (existsb rejects (List.map (fun func => func args) funcs))) v
    /\ (Forall (fun r => rejects r = false) (List.map (fun func => func args) funcs) ->
        t' = t + totalDelay (List.map (fun func => func args) funcs)
        /\ v = VArray (output ++ List.map settled
                                   (List.map (fun func => func args) funcs))).
Proof.
  revert t output. induction funcs as [|func funcs IH]; intros t output;
    cbn [Flow.asyncFuncAllSeries List.map existsb].
  - eexists _, _. split; [reflexivity|]. intros _.
    cbn [totalDelay fold_right]. rewrite app_nil_r. split; [lia | reflexivity].
  - destruct (rejects (func args)) eqn:Hr; cbn [orb negb].
    + eexists _, _. split; [reflexivity|]. intros Hok.
      apply Forall_cons_1 in Hok as [Hok _]. congruence.
    + destruct (IH (t + delayOf (func args)) (output ++ [settled (func args)]))
        as (t' & v & E & Hok).
      exists t', v. split; [exact E|]. intros Hall.
      apply Forall_cons_1 in Hall as [_ Hall]. destruct (Hok Hall) as [-> ->].
      rewrite totalDelay_cons, <- app_assoc. split; [lia | reflexivity].
Qed.

Lemma funcAllSeries_from_spec (funcs : list Fn) (args : list Val) (output : list Val) :
  let points := List.map (fun func => func args) funcs in
  isPromise (Flow.funcAllSeries_from funcs args output) = existsb isPromise points
  /\ rejects (Flow.funcAllSeries_from funcs args output) = existsb rejects points
  /\ (Forall (fun r => rejects r = false) points ->
      settled (Flow.funcAllSeries_from funcs args output)
      = VArray (output ++ List.map settled points)
      /\ delayOf (Flow.funcAllSeries_from funcs args output) = totalDelay points).
Proof.
  cbn zeta. revert output. induction funcs as [|func funcs IH]; intros output;
    cbn [Flow.funcAllSeries_from List.map existsb].
  - cbn. rewrite app_nil_r. repeat split; reflexivity.
  - destruct (func args) as [| | | | | | | | | | | | |t [|] res|res] eqn:Efunc;
      cbn [isPromise rejects orb callThen valueOf];
      try (destruct (IH (output ++ [func args])) as (H1 & H2 & H3);
           rewrite Efunc in H1, H2, H3; split; [exact H1|]; split; [exact H2|];
           intros Hall; apply Forall_cons_1 in Hall as [_ Hall];
           destruct (H3 Hall) as [H4 H5]; rewrite H4, H5, <- app_assoc;
           split; reflexivity).
    + destruct (asyncFuncAllSeries_spec funcs args 0 (output ++ [res]))
        as (t' & v & E & Hok).
      rewrite E. cbn [resolveWith isPromise rejects settled delayOf].
      split; [reflexivity|]. split; [now destruct (existsb rejects _)|]. intros Hall.
      apply Forall_cons_1 in Hall as [_ Hall]. destruct (Hok Hall) as [-> ->].
      rewrite totalDelay_cons, <- app_assoc. cbn [delayOf settled app].
      split; [reflexivity | lia].
    + split; [reflexivity|]. split; [reflexivity|]. intros Hall.
      apply Forall_cons_1 in Hall as [Hall _]. discriminate.
    + destruct (asyncFuncAllSeries_spec funcs args 0 (output ++ [res]))
        as (t' & v & E & Hok).
      rewrite E. cbn [isPromise rejects settled delayOf].
      split; [reflexivity|]. split; [now destruct (existsb rejects _)|]. intros Hall.
      apply Forall_cons_1 in Hall as [_ Hall]. destruct (Hok Hall) as [-> ->].
      rewrite totalDelay_cons, <- app_assoc. cbn [delayOf settled app].
      split; [reflexivity | lia].
Qed.

(** X5: [fork.series] calls its functions one after the other.  It hands
    back a promise exactly when one of them answers with a promise, and
    rejects exactly when one of them rejects; when none rejects it
    delivers the same array, position by position, as [fork] does, but
    after the sum of the delays of the functions, where [fork] takes the
    longest of them. *)
Theorem fork_series_adds_delays (funcs : list Fn) (args : list Val) :
  let points := List.map (fun func => func args) funcs in
  isPromise (Flow.funcAllSeries funcs args) = existsb isPromise points
  /\ rejects (Flow.funcAllSeries funcs args) = existsb rejects points
  /\ (Forall (fun r => rejects r = false) points ->
      settled (Flow.funcAllSeries funcs args) = VArray (List.map settled points)
      /\ settled (Flow.funcAll funcs args) = VArray (List.map settled points)
      /\ delayOf (Flow.funcAllSeries funcs args) = totalDelay points
      /\ delayOf (Flow.funcAll funcs args) = maxDelay points).
Proof.
  cbn zeta. unfold Flow.funcAllSeries.
  destruct (funcAllSeries_from_spec funcs args []) as (H1 & H2 & H3). cbn zeta in *.
  split; [exact H1|]. split; [exact H2|]. intros Hall.
  destruct (H3 Hall) as [H4 H5]. split; [exact H4|].
  rewrite funcAll_spec. unfold Fn in *.
  destruct (existsb isPromise (List.map (fun func : list Val -> Val => func args) funcs))
    eqn:Hex.
  - rewrite promiseAll_fulfils by assumption. cbn [settled delayOf]. auto.
  - assert (Hsync : Forall (fun v => isPromise v = false)
                      (List.map (fun func : Fn => func args) funcs)).
    { apply List.Forall_forall. intros v Hv.
      destruct (isPromise v) eqn:E; [|reflexivity].
      rewrite <- Hex. symmetry. apply List.existsb_exists. eauto. }
    unfold Fn in *. rewrite map_settled_sync by assumption. cbn [settled delayOf].
    split; [reflexivity|]. split; [exact H5|].
    clear - Hsync. induction Hsync as [|v l Hv _ IH]; [reflexivity|].
    cbn [maxDelay fold_right]. fold (maxDelay l). rewrite <- IH.
    destruct v; try reflexivity; discriminate.
Qed.

Lemma fork_series_adds_delays_witness :
  settled (Flow.funcAllSeries [delayed; pendingDouble] [VNum 4]) = VArray [VNum 4; VNum 8]
  /\ settled (Flow.funcAll [delayed; pendingDouble] [VNum 4]) = VArray [VNum 4; VNum 8]
  /\ delayOf (Flow.funcAllSeries [delayed; pendingDouble] [VNum 4]) = 10
  /\ delayOf (Flow.funcAll [delayed; pendingDouble] [VNum 4]) = 6.
Proof.
  apply (proj2 (proj2 (fork_series_adds_delays [delayed; pendingDouble] [VNum 4]))).
  repeat constructor.
Defined.

(** ** [assign] *)

Lemma copyInto_object (y props : list (string * Val)) :
  Flow.copyInto y (VObject props) = fold_left (commitPair objSet) props y.
Proof. reflexivity. Qed.

Lemma objectSpread_image (funcs : list (string * Fn)) (props : list (string * Val))
  (output : Val) :
  NoDup (List.map fst props) ->
  forkImage funcs [VObject props] output ->
  assignImage funcs props (Flow.objectSpread (VObject props) output).
Proof.
  intros Hnd (props1 & -> & Hnd1 & Hkeys & Hget).
  unfold Flow.objectSpread. rewrite !copyInto_object.
  eexists. split; [reflexivity|]. split; [|split].
  - intros k. rewrite !fold_objSet_keys, Hkeys. cbn [List.map].
    rewrite elem_of_nil. tauto.
  - intros k func Hin. rewrite <- (Hget k func Hin).
    assert (Hk : k ∈ List.map fst props1).
    { apply Hkeys. apply list_elem_of_fmap. exists (k, func). now split. }
    apply list_elem_of_fmap in Hk as ([k1 v1] & E & Hin1). cbn [fst] in E. subst k1.
    rewrite (fold_objSet_get props1 _ k v1 Hnd1 Hin1).
    clear - Hnd1 Hin1. induction props1 as [|[k0 v0] props1 IH]; [now apply elem_of_nil in Hin1|].
    cbn [List.map fst] in Hnd1. apply NoDup_cons in Hnd1 as [Hk0 Hnd1].
    cbn [objGet]. apply elem_of_cons in Hin1 as [[= -> ->]|Hin1].
    + now rewrite bool_decide_eq_true_2.
    + rewrite bool_decide_eq_false_2; [now apply IH|].
      intros ->. apply Hk0. apply list_elem_of_fmap. exists (k0, v1). now split.
  - intros k Hk. rewrite fold_objSet_other by (now rewrite Hkeys).
    destruct (decide (k ∈ List.map fst props)) as [Hin|Hout].
    + apply list_elem_of_fmap in Hin as ([k1 v1] & E & Hin1). cbn [fst] in E. subst k1.
      rewrite (fold_objSet_get props [] k v1 Hnd Hin1).
      clear - Hnd Hin1. induction props as [|[k0 v0] props IH]; [now apply elem_of_nil in Hin1|].
      cbn [List.map fst] in Hnd. apply NoDup_cons in Hnd as [Hk0 Hnd].
      cbn [objGet]. apply elem_of_cons in Hin1 as [[= -> ->]|Hin1].
      * now rewrite bool_decide_eq_true_2.
      * rewrite bool_decide_eq_false_2; [now apply IH|].
        intros ->. apply Hk0. apply list_elem_of_fmap. exists (k0, v1). now split.
    + rewrite fold_objSet_other by assumption. cbn [objGet].
      clear - Hout. induction props as [|[k0 v0] props IH]; [reflexivity|].
      cbn [List.map fst] in Hout. apply not_elem_of_cons in Hout as [Hne Hout].
      cbn [objGet]. rewrite bool_decide_eq_false_2 by assumption. now apply IH.
Qed.

(** X6: [assign(funcs)] applied to an object (the property names of the
    object and of [funcs] being distinct among themselves) hands back a
    new object with the properties of the input and of [funcs]: a property
    that [funcs] names holds what its function delivers for the input, any
    other property of the input is as it was.  The object comes at once
    when no function answers with a promise, and as a promise otherwise,
    which fulfils with it when no function rejects. *)
Theorem assign_extends_object (funcs : list (string * Fn)) (props : list (string * Val)) :
  NoDup (List.map fst props) ->
  NoDup (List.map fst funcs) ->
  dual (ofCompletion (Flow.assign funcs [VObject props]))
    (forkPoints funcs [VObject props]) (assignImage funcs props).
Proof.
  intros Hprops Hfuncs. unfold Flow.assign. cbn [arg nth].
  destruct (funcObjectAll_dual funcs [VObject props] Hfuncs) as [Hsync Hpending].
  split.
  - intros Hs. destruct (Hsync Hs) as (Hnp & v & E & Himage).
    destruct (Flow.funcObjectAll funcs [VObject props]) as [output|e]; [|discriminate].
    injection E as ->. cbn [isPending ofCompletion] in Hnp. cbn [bindC]. rewrite Hnp.
    cbn [ofCompletion isPending]. split; [reflexivity|].
    eexists. split; [reflexivity|]. now apply objectSpread_image.
  - intros Hp. destruct (Hpending Hp) as (t & ok & v & E & Himage).
    destruct (Flow.funcObjectAll funcs [VObject props]) as [output|e]; [|discriminate].
    injection E as ->. cbn [bindC isPromise callThen].
    destruct ok; cbn [ofCompletion resolveWith Flow.objectSpread].
    + eexists _, _, _. split; [reflexivity|]. intros Hnr.
      destruct (Himage Hnr) as [_ Hv]. split; [reflexivity|].
      now apply objectSpread_image.
    + eexists _, _, _. split; [reflexivity|]. intros Hnr.
      destruct (Himage Hnr) as [? _]. discriminate.
Qed.

Lemma assign_extends_object_witness :
  exists t ok v,
    ofCompletion (Flow.assign [("eight", always (VPromise 1 true (VNum 8)))] [VObject [("n", VNum 4)]])
    = Returned (VPromise t ok v)
    /\ (Forall (fun pt => rejects pt = false)
          (forkPoints [("eight", always (VPromise 1 true (VNum 8)))] [VObject [("n", VNum 4)]]) ->
        ok = true /\ assignImage [("eight", always (VPromise 1 true (VNum 8)))] [("n", VNum 4)] v).
Proof.
  apply (proj2 (assign_extends_object [("eight", always (VPromise 1 true (VNum 8)))] [("n", VNum 4)]
                  ltac:(repeat constructor; set_solver)
                  ltac:(repeat constructor; set_solver))).
  left. reflexivity.
Defined.

(** ** [tryCatch] *)

(** X7: [tryCatch(tryer, catcher)] hands on untouched what [tryer]
    returns or fulfils with; when [tryer] throws, or rejects, [catcher] is
    called with the error first and the arguments after it, and what it
    returns stands in for the result.  So with a [catcher] that neither
    throws nor rejects, the call neither throws nor rejects, whatever
    [tryer] does. *)
Theorem tryCatch_recovers (tryer catcher : Flow.Throwing) (args : list Val) :
  (forall output,
      tryer args = Normal output -> rejects output = false ->
      (forall v, output <> VSyncThenable v) ->
      Flow.tryCatch tryer catcher args = Normal output)
  /\ (forall err,
        tryer args = Throw err ->
        Flow.tryCatch tryer catcher args = catcher (err :: args))
  /\ (forall t err,
        tryer args = Normal (VPromise t false err) ->
        Flow.tryCatch tryer catcher args
        = Normal (resolveWith t (catcher (err :: args))))
  /\ ((forall err, exists v, catcher (err :: args) = Normal v /\ rejects v = false) ->
      exists r, Flow.tryCatch tryer catcher args = Normal r /\ rejects r = false).
Proof.
  unfold Flow.tryCatch. repeat split.
  - intros output -> Hr Hs.
    destruct output as [| | | | | | | | | | | | |t [|] w|w]; try reflexivity;
      [discriminate | now destruct (Hs w)].
  - now intros err ->.
  - now intros t err ->.
  - intros Hcatch.
    destruct (tryer args) as [output|err].
    + destruct output as [| | | | | | | | | | | | |t [|] w|w]; cbn [isPromise];
        try (eexists; split; reflexivity).
      * destruct (Hcatch w) as (v & -> & Hv). eexists. split; [reflexivity|].
        now rewrite (proj1 (proj2 (resolveWith_settles t v))).
      * apply Hcatch.
    + apply Hcatch.
Qed.

Lemma tryCatch_recovers_witness :
  exists r,
    Flow.tryCatch (failing (VStr "no")) (recovering (VNum 0)) [VNum 1] = Normal r
    /\ rejects r = false.
Proof.
  apply (proj2 (proj2 (proj2
           (tryCatch_recovers (failing (VStr "no")) (recovering (VNum 0)) [VNum 1])))).
  intros err. exists (VNum 0). split; reflexivity.
Defined.

(** ** [switchCase] *)

Lemma pairs_ind {A : Type} (P : list A -> Prop) :
  P [] -> (forall x, P [x]) -> (forall x y l, P l -> P (x :: y :: l)) ->
  forall l, P l.
Proof.
  intros H0 H1 H2 l.
  enough (H : P l /\ forall x, P (x :: l)) by apply H.
  induction l as [|y l [IH1 IH2]]; split; auto.
Qed.

Lemma asyncFuncSwitch_spec (funcs : list Fn) (args : list Val) (t : nat) :
  Forall (fun r => rejects r = false) (tried funcs args) ->
  exists t',
    Flow.asyncFuncSwitch funcs args t
    = match chosen funcs args with
      | Some v => resolveWith t' (Normal v)
      | None => VPromise t' false Flow.notAFunction
      end.
Proof.
  revert t. induction funcs as [|last|cond next rest IH] using pairs_ind; intros t Hok.
  - eexists. reflexivity.
  - eexists. reflexivity.
  - cbn [tried] in Hok. apply Forall_cons_1 in Hok as [Hc Hok].
    cbn [Flow.asyncFuncSwitch chosen]. rewrite Hc.
    destruct (truthy (settled (cond args))).
    + eexists. reflexivity.
    + apply IH, Hok.
Qed.

Lemma delivers_resolveWith (t : nat) (v : Val) :
  delivers (Normal (resolveWith t (Normal v))) v.
Proof.
  exists (resolveWith t (Normal v)). split; [reflexivity|].
  destruct (resolveWith_settles t v) as (H1 & H2 & _). now split.
Qed.

Lemma delivers_refl (v : Val) : delivers (Normal v) v.
Proof. exists v. repeat split. Qed.

(** X8: [switchCase([if1, do1, ..., ifn, don, else])] tries the
    conditions in order, each awaited, and hands back what the function
    after the first condition that holds returns, and what [else] returns
    when none holds (provided no condition that is tried rejects).  With
    conditions that answer at once the result is that of the selected
    function itself.  When no condition holds and there is no [else] (the
    array is empty or of even length), the call fails with a [TypeError]:
    thrown, or as a rejection when a condition was a promise. *)
Theorem switchCase_selects (funcs : list Fn) (args : list Val) :
  (Forall (fun r => rejects r = false) (tried funcs args) ->
   match chosen funcs args with
   | Some v => delivers (Flow.switchCase funcs args) v
   | None => fails (Flow.switchCase funcs args) Flow.notAFunction
   end)
  /\ (Forall (fun r => isPromise r = false) (tried funcs args) ->
      Flow.switchCase funcs args
      = match chosen funcs args with
        | Some v => Normal v
        | None => Throw Flow.notAFunction
        end)
  /\ (Nat.Even (length funcs) ->
      Forall (fun r => truthy (settled r) = false) (tried funcs args) ->
      chosen funcs args = None).
Proof.
  unfold Flow.switchCase. split; [|split].
  - induction funcs as [|last|cond next rest IH] using pairs_ind; intros Hok.
    + now left.
    + apply delivers_refl.
    + cbn [tried] in Hok. apply Forall_cons_1 in Hok as [Hc Hok].
      cbn [Flow.funcConditional chosen].
      destruct (cond args) as [| | | | | | | | | | | | |t [|] w|w] eqn:Econd;
        cbn [isPromise settled callThen] in *; try discriminate;
        try (destruct (truthy _); [apply delivers_refl | now apply IH]).
      * destruct (truthy w).
        -- apply delivers_resolveWith.
        -- destruct (asyncFuncSwitch_spec rest args 0 Hok) as [t' E]. rewrite E.
           destruct (chosen rest args) as [v|].
           ++ destruct (resolveWith_settles t' v) as (H1 & H2 & _).
              destruct (resolveWith_settles t (resolveWith t' (Normal v))) as (H3 & H4 & _).
              eexists. split; [reflexivity|]. split; congruence.
           ++ right. eexists. reflexivity.
      * destruct (truthy w).
        -- apply delivers_refl.
        -- destruct (asyncFuncSwitch_spec rest args 0 Hok) as [t' E]. rewrite E.
           destruct (chosen rest args) as [v|].
           ++ apply delivers_resolveWith.
           ++ right. eexists. reflexivity.
  - induction funcs as [|last|cond next rest IH] using pairs_ind; intros Hs.
    + reflexivity.
    + reflexivity.
    + cbn [tried] in Hs. apply Forall_cons_1 in Hs as [Hc Hs].
      cbn [Flow.funcConditional chosen]. rewrite Hc.
      rewrite (settled_not_promise _ Hc) in *.
      destruct (truthy (cond args)); [reflexivity | now apply IH].
  - induction funcs as [|last|cond next rest IH] using pairs_ind; intros Heven Hnone.
    + reflexivity.
    + destruct Heven as [k Hk]. cbn [length] in Hk. lia.
    + cbn [tried] in Hnone. apply Forall_cons_1 in Hnone as [Hc Hnone].
      cbn [chosen]. rewrite Hc in *. apply IH; [|assumption].
      destruct Heven as [k Hk]. cbn [length] in Hk. exists (k - 1). lia.
Qed.

Lemma switchCase_selects_witness :
  delivers
    (Flow.switchCase
       [greaterThan 5; always (VStr "big");
        always (VPromise 2 true (VBool true)); always (VStr "some");
        always (VStr "none")]
       [VNum 3])
    (VStr "some").
Proof.
  apply (proj1 (switchCase_selects
                  [greaterThan 5; always (VStr "big");
                   always (VPromise 2 true (VBool true)); always (VStr "some");
                   always (VStr "none")]
                  [VNum 3])).
  repeat constructor.
Defined.

(** ** [map.series] *)

Lemma mapSeriesArray_spec (f : Fn) (x : list Val) (y : list Val) :
  let points := List.map (fun xi => f [xi]) x in
  rejects (Variants.mapSeriesArray f x y) = existsb rejects points
  /\ (Forall (fun r => rejects r = false) points ->
      settled (Variants.mapSeriesArray f x y)
      = VArray (y ++ flat_map spreadable (List.map settled points))
      /\ delayOf (Variants.mapSeriesArray f x y) = totalDelay points).
Proof.
  cbn zeta. revert y. induction x as [|xi x IH]; intros y;
    cbn [Variants.mapSeriesArray List.map existsb flat_map].
  - rewrite app_nil_r. repeat split.
  - unfold possiblePromiseThen.
    assert (Hconcat : forall res, Variants.concat y res = y ++ spreadable res).
    { intros res. destruct res; cbn; reflexivity. }
    destruct (f [xi]) as [| | | | | | | | | | | | |t [|] w|w] eqn:Efx;
      cbn [isPromise callThen valueOf rejects orb settled];
      try (destruct (IH (Variants.concat y (f [xi]))) as [H1 H2];
           rewrite Efx in H1, H2; split; [exact H1|]; intros Hall;
           apply Forall_cons_1 in Hall as [_ Hall];
           destruct (H2 Hall) as [H3 H4]; rewrite H3, H4, Hconcat, <- app_assoc;
           split; reflexivity).
    + destruct (IH (Variants.concat y w)) as [H1 H2].
      destruct (resolveWith_settles t (Variants.mapSeriesArray f x (Variants.concat y w)))
        as (R1 & R2 & R3).
      split; [congruence|]. intros Hall. apply Forall_cons_1 in Hall as [_ Hall].
      destruct (H2 Hall) as [H3 H4].
      rewrite R1, R3, H3, H4, Hconcat, <- app_assoc, totalDelay_cons. split; reflexivity.
    + split; [reflexivity|]. intros Hall. apply Forall_cons_1 in Hall as [Hall _].
      discriminate.
    + destruct (IH (Variants.concat y w)) as [H1 H2].
      split; [exact H1|]. intros Hall. apply Forall_cons_1 in Hall as [_ Hall].
      destruct (H2 Hall) as [H3 H4].
      rewrite H3, H4, Hconcat, <- app_assoc. split; reflexivity.
Qed.

Lemma flat_map_spreadable (values : list Val) :
  Forall (fun v => isArrayVal v = false) values -> flat_map spreadable values = values.
Proof.
  induction 1 as [|v values Hv _ IH]; cbn [flat_map]; [reflexivity|].
  rewrite IH. destruct v; try reflexivity; discriminate.
Qed.

(** X9: [map.series(f)] applied to an array calls [f] on the elements one
    after the other, and only on arrays: a Set is refused.  The result
    rejects exactly when an application does; when none does it delivers,
    after the sum of the delays, the results appended with [concat]: a
    result that is an array is spread into the output, so that the output
    is the array of the results, as that of [map], only when no result is
    an array. *)
Theorem map_series_concatenates (f : Fn) (items : list Val) :
  let points := List.map (fun xi => f [xi]) items in
  applyOp (Variants.series (Func f)) (Data (VSet items))
  = Thrown (VError TypeError "map.series(...)(x); x invalid")
  /\ exists r,
      applyOp (Variants.series (Func f)) (Data (VArray items)) = Returned r
      /\ rejects r = existsb rejects points
      /\ (Forall (fun pt => rejects pt = false) points ->
          settled r = VArray (flat_map spreadable (List.map settled points))
          /\ delayOf r = totalDelay points
          /\ (Forall (fun pt => isArrayVal (settled pt) = false) points ->
              settled r = VArray (List.map settled points))).
Proof.
  cbn zeta. split; [reflexivity|].
  eexists. split; [reflexivity|]. cbn [operandFn operandVal iterate].
  destruct (mapSeriesArray_spec f items []) as [H1 H2]. cbn zeta in H1, H2.
  split; [exact H1|]. intros Hall. destruct (H2 Hall) as [H3 H4].
  cbn [app] in H3. split; [exact H3|]. split; [exact H4|].
  intros Hflat. rewrite H3, flat_map_spreadable; [reflexivity|].
  now apply Forall_map.
Qed.

Lemma map_series_concatenates_witness :
  exists r,
    applyOp (Variants.series (Func twice)) (Data (VArray [VNum 1; VNum 2])) = Returned r
    /\ settled r = VArray [VNum 1; VNum 1; VNum 2; VNum 2]
    /\ applyOp (Index.map (fun _ => "") (fun l => l) (Func twice))
         (Data (VArray [VNum 1; VNum 2]))
       = Returned (VArray [VArray [VNum 1; VNum 1]; VArray [VNum 2; VNum 2]]).
Proof.
  destruct (proj2 (map_series_concatenates twice [VNum 1; VNum 2]))
    as (r & Hr & _ & Hok).
  exists r. split; [exact Hr|]. split; [|reflexivity].
  apply Hok. repeat constructor.
Defined.

(** ** [map.withIndex] and [filter.withIndex] *)

Lemma collectingWithIndex (fn : Fn) (x : Val) (l : list Val) (isAsync : bool)
  (y : list Val) (i0 : nat) :
  fold_left
    (fun '(isAsync, y, i) xi =>
       let point := fn [xi; VNum i; x] in
       ((if isPromise point then true else isAsync), y ++ [point], (i + 1)%Z))
    l (isAsync, y, Z.of_nat i0)
  = (isAsync
     || existsb isPromise (imap (fun i xi => fn [xi; VNum (Z.of_nat (i0 + i)); x]) l),
     y ++ imap (fun i xi => fn [xi; VNum (Z.of_nat (i0 + i)); x]) l,
     Z.of_nat (i0 + length l)).
Proof.
  revert isAsync y i0. induction l as [|xi l IH]; intros isAsync y i0;
    cbn [fold_left imap length existsb].
  - now rewrite orb_false_r, app_nil_r, Nat.add_0_r.
  - assert (E0 : (Z.of_nat i0 + 1)%Z = Z.of_nat (S i0)) by lia.
    rewrite E0. clear E0.
    rewrite IH, <- app_assoc, Nat.add_0_r. cbn [app].
    replace (S i0 + length l) with (i0 + S (length l)) by lia.
    assert (E : imap (fun i xi0 => fn [xi0; VNum (Z.of_nat (S i0 + i)); x]) l
                = imap ((fun i xi0 => fn [xi0; VNum (Z.of_nat (i0 + i)); x]) ∘ S) l).
    { apply imap_ext. intros i xi0 _. unfold compose.
      now replace (S i0 + i) with (i0 + S i) by lia. }
    rewrite E.
    destruct (isPromise (fn [xi; VNum (Z.of_nat i0); x])), isAsync; reflexivity.
Qed.

Lemma collectWithIndex_spec (fn : Fn) (x : Val) :
  Variants.collectWithIndex fn x
  = (existsb isPromise (indexedPoints fn x), indexedPoints fn x).
Proof.
  unfold Variants.collectWithIndex.
  pose proof (collectingWithIndex fn x (iterate x) false [] 0) as E.
  change (Z.of_nat 0) with 0%Z in E. cbv zeta in E. rewrite E. reflexivity.
Qed.

(** X10: [map.withIndex(fn)] calls [fn] with each item, its position and
    the container, and hands back the results position by position: for
    an array the array of the results, for a string the results joined;
    at once when no call answers with a promise, as a promise otherwise,
    which fulfils with it when no call rejects.  It takes arrays and
    strings only: a Set, which [map] accepts, is refused. *)
Theorem map_withIndex_positions
  (join : list Val -> string) (fn : Fn) (items : list Val) (s : string) :
  dual (applyOp (Variants.mapWithIndex join (Func fn)) (Data (VArray items)))
    (indexedPoints fn (VArray items))
    (fun v => v = VArray (List.map settled (indexedPoints fn (VArray items))))
  /\ dual (applyOp (Variants.mapWithIndex join (Func fn)) (Data (VStr s)))
       (indexedPoints fn (VStr s))
       (fun v => v = VStr (join (List.map settled (indexedPoints fn (VStr s)))))
  /\ applyOp (Variants.mapWithIndex join (Func fn)) (Data (VSet items))
     = Thrown (VError TypeError "map.withIndex(...)(x); x invalid").
Proof.
  split; [|split; [|reflexivity]].
  - change (applyOp (Variants.mapWithIndex join (Func fn)) (Data (VArray items)))
      with (Returned (Variants.mapArrayWithIndex fn (VArray items))).
    unfold Variants.mapArrayWithIndex. rewrite collectWithIndex_spec.
    apply promised_dual.
  - change (applyOp (Variants.mapWithIndex join (Func fn)) (Data (VStr s)))
      with (ofCompletion (Variants.mapStringWithIndex join fn (VStr s))).
    unfold Variants.mapStringWithIndex, Variants.mapIterableWithIndexToArray.
    rewrite collectWithIndex_spec.
    apply (collected_dual _ (fun l => VStr (join l))). reflexivity.
Qed.

Lemma map_withIndex_positions_witness :
  isPending
    (applyOp (Variants.mapWithIndex (fun _ => "") (Func add))
       (Data (VArray [VNum 5; VNum 5; VNum 5]))) = false
  /\ exists v,
      applyOp (Variants.mapWithIndex (fun _ => "") (Func add))
        (Data (VArray [VNum 5; VNum 5; VNum 5])) = Returned v
      /\ v = VArray (List.map settled
                       (indexedPoints add (VArray [VNum 5; VNum 5; VNum 5]))).
Proof.
  apply (proj1 (proj1 (map_withIndex_positions (fun _ => "") add
                         [VNum 5; VNum 5; VNum 5] ""))).
  repeat constructor.
Defined.

Lemma keepWhere_from (g : nat -> Val -> Val) (items : list Val) (n : nat) :
  Index.keepWhere (List.map settled (imap (fun i => g (n + i)) items)) items
  = List.map snd
      (List.filter (fun ix => truthy (settled (g (fst ix) (snd ix))))
         (imap (fun i x => (n + i, x)) items)).
Proof.
  revert n. induction items as [|xi items IH]; intros n;
    cbn [imap List.map Index.keepWhere List.filter]; [reflexivity|].
  cbn [arg nth tl fst snd]. rewrite Nat.add_0_r.
  assert (E1 : imap ((fun i => g (n + i)) ∘ S) items = imap (fun i => g (S n + i)) items).
  { apply imap_ext. intros i x _. unfold compose.
    now replace (n + S i) with (S n + i) by lia. }
  assert (E2 : imap ((fun i (x : Val) => (n + i, x)) ∘ S) items
               = imap (fun i x => (S n + i, x)) items).
  { apply imap_ext. intros i x _. unfold compose.
    now replace (n + S i) with (S n + i) by lia. }
  rewrite E1, E2, (IH (S n)).
  destruct (truthy (settled (g n xi))); reflexivity.
Qed.

Lemma keepWhere_indexedPoints (predicate : Fn) (x : Val) :
  Index.keepWhere (List.map settled (indexedPoints predicate x)) (iterate x)
  = keptWithIndex predicate x.
Proof.
  unfold indexedPoints, keptWithIndex.
  apply (keepWhere_from (fun i xi => predicate [xi; VNum (Z.of_nat i); x]) (iterate x) 0).
Qed.

(** X11: [filter.withIndex(predicate)] applied to an array calls the
    predicate with each item, its position and the array, and keeps, in
    their order, the items for which what the predicate delivers is
    truthy: at once when no call answers with a promise, as a promise
    otherwise, which fulfils with them when no call rejects.  It takes
    arrays and strings only: a Set, which [filter] accepts, is refused. *)
Theorem filter_withIndex_keeps (predicate : Fn) (items : list Val) :
  dual (applyOp (Variants.filterWithIndex (Func predicate)) (Data (VArray items)))
    (indexedPoints predicate (VArray items))
    (fun v => v = VArray (keptWithIndex predicate (VArray items)))
  /\ applyOp (Variants.filterWithIndex (Func predicate)) (Data (VSet items))
     = Thrown (VError TypeError "filter.withIndex(...)(x); x invalid").
Proof.
  split; [|reflexivity].
  change (applyOp (Variants.filterWithIndex (Func predicate)) (Data (VArray items)))
    with (ofCompletion (Variants.filterArrayWithIndex predicate (VArray items))).
  unfold Variants.filterArrayWithIndex, Variants.createFilterWithIndexIndex.
  rewrite collectWithIndex_spec.
  eapply dual_impl;
    [|apply (collected_dual _ (fun res => VArray (Index.keepWhere res items)));
      reflexivity].
  intros v ->. cbn beta. f_equal. apply (keepWhere_indexedPoints predicate (VArray items)).
Qed.

Lemma filter_withIndex_keeps_witness :
  isPending
    (applyOp (Variants.filterWithIndex (Func differsFromNext))
       (Data (VArray [VNum 1; VNum 1; VNum 2; VNum 3; VNum 3]))) = false
  /\ exists v,
      applyOp (Variants.filterWithIndex (Func differsFromNext))
        (Data (VArray [VNum 1; VNum 1; VNum 2; VNum 3; VNum 3])) = Returned v
      /\ v = VArray (keptWithIndex differsFromNext
                       (VArray [VNum 1; VNum 1; VNum 2; VNum 3; VNum 3])).
Proof.
  apply (proj1 (proj1 (filter_withIndex_keeps differsFromNext
                         [VNum 1; VNum 1; VNum 2; VNum 3; VNum 3]))).
  repeat constructor.
Defined.

Example filter_withIndex_uniq :
  applyOp (Variants.filterWithIndex (Func differsFromNext))
    (Data (VArray [VNum 1; VNum 1; VNum 2; VNum 3; VNum 3]))
  = Returned (VArray [VNum 1; VNum 2; VNum 3]).
Proof. reflexivity. Qed.

(** ** Quantifiers and connectives *)





















(** ** [flatMap] *)

Lemma arrayFlatten_from (x y : list Val) :
  fold_left
    (fun y xi =>
       if isArray (profileVal xi) then y ++ iterate xi
       else if isIterable (profileVal xi) then y ++ iterate xi
       else y ++ [xi])
    x y
  = y ++ flat_map flatItems x.
Proof.
  revert y. induction x as [|xi x IH]; intros y; cbn [fold_left flat_map].
  - now rewrite app_nil_r.
  - rewrite IH.
    destruct xi; cbn [profileVal isArray isIterable arrayIsArray nullish iteratorIsFn
                        primitiveProfile objectProfile negb andb flatItems];
      now rewrite <- app_assoc.
Qed.

Lemma arrayFlatten_spec (x : list Val) : FlatMap.arrayFlatten x = flat_map flatItems x.
Proof. unfold FlatMap.arrayFlatten. now rewrite arrayFlatten_from. Qed.

Lemma flat_map_singletons (f : Fn) (g : Val -> Val) (items : list Val) :
  Forall (fun xi => settled (f [xi]) = VArray [g xi]) items ->
  flat_map flatItems (List.map settled (List.map (fun xi => f [xi]) items))
  = List.map g items.
Proof.
  induction 1 as [|xi items Hxi _ IH]; cbn [List.map flat_map]; [reflexivity|].
  rewrite IH, Hxi. reflexivity.
Qed.

(** X14: [flatMap(func)] applied to an array maps the elements and
    flattens the results by one level: the elements of a result that is an
    array, and the items of a result that is another iterable (so the
    characters of a string), take the place of the result, anything else
    stays as it is; at once when no application answers with a promise, as
    a promise otherwise, which fulfils with the flattened array when no
    application rejects.  In particular, when [func] wraps each element in
    a one-element array, [flatMap(func)] is [map] of what is wrapped. *)
Theorem flatMap_flattens_one_level (func : Fn) (items : list Val) :
  exists unary c,
    FlatMap.flatMap (Func func) = Normal unary
    /\ unary (Data (VArray items)) = FlatMap.FlatCompleted c
    /\ dual (ofCompletion c)
         (List.map (fun xi => func [xi]) items)
         (fun v =>
            v = VArray (flat_map flatItems
                          (List.map settled (List.map (fun xi => func [xi]) items)))
            /\ forall g : Val -> Val,
                Forall (fun xi => settled (func [xi]) = VArray [g xi]) items ->
                v = VArray (List.map g items)).
Proof.
  eexists _, _. split; [reflexivity|]. split; [reflexivity|].
  cbn [operandFn operandVal].
  unfold FlatMap.flatMapArray, Index.mapArray. cbn [iterate]. rewrite collect_spec.
  eapply dual_impl;
    [|apply (collected_dual _ (fun res => VArray (FlatMap.arrayFlatten res)));
      reflexivity].
  intros v ->. cbn beta. rewrite arrayFlatten_spec. split; [reflexivity|].
  intros g Hg. now rewrite (flat_map_singletons func g items Hg).
Qed.

Lemma flatMap_flattens_one_level_witness :
  exists unary c,
    FlatMap.flatMap (Func wrap) = Normal unary
    /\ unary (Data (VArray [VNum 1; VStr "ab"])) = FlatMap.FlatCompleted c
    /\ exists v,
        ofCompletion c = Returned v
        /\ v = VArray (flat_map flatItems
                         (List.map settled
                            (List.map (fun xi => wrap [xi]) [VNum 1; VStr "ab"]))).
Proof.
  destruct (flatMap_flattens_one_level wrap [VNum 1; VStr "ab"])
    as (unary & c & H1 & H2 & Hsync & _).
  exists unary, c. split; [exact H1|]. split; [exact H2|].
  destruct Hsync as (_ & v & Hv & Himage & _); [repeat constructor|].
  exists v. split; assumption.
Defined.

Example flatMap_splits_strings :
  FlatMap.flatMapArray identity
    (VArray [VStr "ab"; VNum 1; VArray [VNum 2; VArray [VNum 3]]])
  = Normal (VArray [VStr "a"; VStr "b"; VNum 1; VNum 2; VArray [VNum 3]]).
Proof. reflexivity. Qed.

(** With no initial value the first element of an array is the seed. *)
Lemma reduce_array_seed (f : Fn) (x0 : Val) (rest : list Val) :
  isUndefined x0 = false -> isPromise x0 = false ->
  applyOp (Index.reduce (Func f) noInit) (Data (VArray (x0 :: rest)))
  = applyOp (Index.reduce (Func f) (Data x0)) (Data (VArray rest)).
Proof.
  intros Hu Hp.
  assert (HD : isFunction (profile (Data x0)) = false) by (destruct x0; reflexivity).
  unfold Index.reduce, applyOp, noInit.
  change (isFunction (profile (Func f))) with true. cbn [negb].
  change (isFunction (profile (Data VUndefined))) with false. rewrite HD.
  change (isIterable (profile (Data (VArray (x0 :: rest))))) with true.
  change (isIterable (profile (Data (VArray rest)))) with true. cbv iota.
  cbn [operandVal operandFn]. unfold possiblePromiseThen. cbn [isPromise]. rewrite Hp.
  unfold Index.reduceIterable.
  cbn [isUndefined iterate Index.nextValue tl Index.closesOnReturn].
  rewrite !Hu. reflexivity.
Qed.

(** [flatMapReducer]: [reduce(reducer, aggregate)] applied to what [func]
    delivers, once it has. *)
Lemma flatMapReducer_spec (func reducer : Fn) (aggregate value res r0 : Val) :
  settled (func [value]) = res -> rejects (func [value]) = false ->
  (isPromise (func [value]) = false -> func [value] = res) ->
  applyOp (Index.reduce (Func reducer) (Data aggregate)) (Data res) = Returned r0 ->
  exists out,
    FlatMap.flatMapReducer func reducer [aggregate; value] = Normal out
    /\ settled out = settled r0
    /\ rejects out = rejects r0
    /\ delayOf out = delayOf (func [value]) + delayOf r0
    /\ (isPromise (func [value]) = false -> out = r0).
Proof.
  intros Hres Hnr Hplain E. subst res.
  unfold FlatMap.flatMapReducer. cbn [arg nth].
  change (Index.reduce (Func reducer) (Data aggregate))
    with (Normal (fun x => applyOp (Index.reduce (Func reducer) (Data aggregate)) x)).
  cbn [bindC]. unfold possiblePromiseThen.
  destruct (func [value]) as [ | |b|n|s|k m|l|l|l|l|l|l|l|t ok w|w] eqn:Ef;
    [..|destruct ok|];
    cbn [isPromise callThen settled rejects] in *; try discriminate;
    try (rewrite E; exists r0; repeat split; reflexivity).
  - rewrite E. cbn [delayOf].
    destruct (resolveWith_settles t r0) as (H1 & H2 & H3).
    eexists. split; [reflexivity|]. repeat split; try assumption. discriminate.
Qed.

(** X15: in transducer position [flatMap(func)] hands back a reducer that
    applies [reduce(reducer, aggregate)] to what [func] makes of the
    element.  So when [func] delivers an array, and the accumulator is
    neither [undefined] nor a promise, the given reducer is folded over
    the items of the array from the accumulator, call after call: the
    result rejects exactly when a call rejects, and otherwise delivers
    what the last call delivers, after the delay of [func] and the delays
    of the calls; with [func] and the calls answering at once it is the
    plain fold.  With an accumulator that is [undefined] the first item of
    the array takes its place, and an empty array makes the reducer throw.
    What [func] returns has to be something [reduce] can go through: a
    result that is a number, which [flatMap] on an array keeps as it is,
    makes the reducer throw. *)
Theorem flatMap_reducer_folds (func reducer : Fn) (aggregate value : Val) :
  exists unary r,
    FlatMap.flatMap (Func func) = Normal unary
    /\ unary (Func reducer) = FlatMap.FlatReducer r
    /\ (forall items,
          settled (func [value]) = VArray items -> rejects (func [value]) = false ->
          isUndefined aggregate = false -> isPromise aggregate = false ->
          exists out,
            r [aggregate; value] = Normal out
            /\ rejects out = existsb rejects (steps reducer aggregate items)
            /\ (Forall (fun s => rejects s = false) (steps reducer aggregate items) ->
                settled out = folded reducer aggregate items
                /\ delayOf out
                   = delayOf (func [value]) + totalDelay (steps reducer aggregate items))
            /\ (isPromise (func [value]) = false ->
                isPromise out = existsb isPromise (steps reducer aggregate items)
                /\ (Forall (fun s => isPromise s = false) (steps reducer aggregate items) ->
                    out = fold_left (fun y xi => reducer [y; xi]) items aggregate)))
    /\ (forall first rest,
          func [value] = VArray (first :: rest) ->
          isUndefined first = false -> isPromise first = false ->
          exists out,
            r [VUndefined; value] = Normal out
            /\ rejects out = existsb rejects (steps reducer first rest)
            /\ (Forall (fun s => rejects s = false) (steps reducer first rest) ->
                settled out = folded reducer first rest))
    /\ (func [value] = VArray [] ->
        r [VUndefined; value] = Throw Index.emptyReduction)
    /\ (forall n,
          func [value] = VNum n ->
          r [aggregate; value] = Throw (VError TypeError "reduce(...)(x); x invalid")).
Proof.
  eexists _, _. split; [reflexivity|]. split; [reflexivity|].
  cbn [operandFn]. split; [|split; [|split]].
  - intros items Hres Hnr Hu Hp.
    destruct (reduce_array_spec reducer aggregate items Hu Hp)
      as (r0 & E & R1 & R2 & R3).
    destruct (flatMapReducer_spec func reducer aggregate value (VArray items) r0
                Hres Hnr) as (out & Eout & O1 & O2 & O3 & O4); [|exact E|].
    { intros Hplain. now rewrite <- (settled_not_promise _ Hplain). }
    exists out. split; [exact Eout|]. split; [now rewrite O2|]. split.
    + intros Hall. destruct (R3 Hall) as [R4 R5]. rewrite O1, O3, R4, R5. auto.
    + intros Hplain. rewrite (O4 Hplain). split; [exact R1|].
      intros Hsync.
      assert (Hr0 : isPromise r0 = false)
        by (rewrite R1; now apply existsb_isPromise_false).
      rewrite <- (settled_not_promise _ Hr0).
      destruct R3 as [-> _].
      { eapply Forall_impl; [exact Hsync|]. intros s. apply rejects_isPromise. }
      clear -Hsync. revert aggregate Hsync.
      induction items as [|xi items IH]; intros aggregate Hsync; [reflexivity|].
      cbn [steps] in Hsync. apply Forall_cons_1 in Hsync as [Hs Hsync].
      change (folded reducer aggregate (xi :: items))
        with (folded reducer (settled (reducer [aggregate; xi])) items).
      rewrite (settled_not_promise _ Hs) in *. cbn [fold_left]. now apply IH.
  - intros first rest Ef Hu Hp.
    destruct (reduce_array_spec reducer first rest Hu Hp) as (r0 & E & R1 & R2 & R3).
    rewrite <- (reduce_array_seed reducer first rest Hu Hp) in E.
    destruct (flatMapReducer_spec func reducer VUndefined value (VArray (first :: rest))
                r0) as (out & Eout & O1 & O2 & _); try (now rewrite Ef); [exact E|].
    exists out. split; [exact Eout|]. split; [now rewrite O2|].
    intros Hall. destruct (R3 Hall) as [R4 _]. now rewrite O1.
  - intros Ef. unfold FlatMap.flatMapReducer. cbn [arg nth]. rewrite Ef. reflexivity.
  - intros n Ef. unfold FlatMap.flatMapReducer. cbn [arg nth]. rewrite Ef. reflexivity.
Qed.

Lemma flatMap_reducer_folds_witness :
  exists unary r,
    FlatMap.flatMap (Func twice) = Normal unary
    /\ unary (Func add) = FlatMap.FlatReducer r
    /\ r [VNum 10; VNum 1] = Normal (VNum 12).
Proof.
  destruct (flatMap_reducer_folds twice add (VNum 10) (VNum 1))
    as (unary & r & H1 & H2 & Hfold & _).
  exists unary, r. split; [exact H1|]. split; [exact H2|].
  destruct (Hfold [VNum 1; VNum 1]) as (out & -> & _ & _ & Hplain); try reflexivity.
  f_equal. apply Hplain; [reflexivity|]. repeat constructor.
Defined.

(** ** Filtering the eager containers *)















(** ** Characters and code units *)
















Example filter_cuts_astral_strings :
  Index.filterStringFromIndex [VBool true; VBool true] "😀b" = "😀".
Proof. reflexivity. Qed.









Lemma keepChars_ext (keep keep' : Val -> bool) (s : string) :
  (forall xi, keep xi = keep' xi) -> keepChars keep s = keepChars keep' s.
Proof.
  intros H. unfold keepChars. f_equal. apply List.filter_ext. intros g. apply H.
Qed.

Lemma kept_ext (typedFrom : list Val -> list Val) (keep keep' : Val -> bool) (c : Val) :
  (forall xi, keep xi = keep' xi) -> kept typedFrom keep c = kept typedFrom keep' c.
Proof.
  intros H. destruct c; cbn [kept]; try reflexivity.
  - now rewrite (keepChars_ext keep keep' s H).
  - now rewrite (List.filter_ext keep keep' H).
  - now rewrite (List.filter_ext keep keep' H).
  - now rewrite (List.filter_ext keep keep' H).
  - now rewrite (List.filter_ext _ (fun kv => keep' (VArray [fst kv; snd kv]))
                   (fun kv => H _)).
  - now rewrite (List.filter_ext _ (fun kv => keep' (snd kv)) (fun kv => H _)).
Qed.







(** ** Folding *)









(** ** Lazy sequences *)

Lemma pulls_finished (k : nat) (body : list Val -> Pull * GenState) :
  fst (pulls k (mkGenerator body Finished)) = repeat Done k.
Proof.
  induction k as [|k IH]; [reflexivity|].
  cbn [pulls next state]. cbn [pulls] in IH.
  destruct (pulls k (mkGenerator body Finished)) as [rs g'] eqn:E.
  cbn [fst] in *. now rewrite IH.
Qed.

Lemma pulls_step (k : nat) (body : list Val -> Pull * GenState) (rest : list Val) :
  fst (pulls (S k) (mkGenerator body (Suspended rest)))
  = fst (body rest) :: fst (pulls k (mkGenerator body (snd (body rest)))).
Proof.
  cbn [pulls next state resume]. destruct (body rest) as [r st]. cbn [fst snd].
  now destruct (pulls k (mkGenerator body st)).
Qed.

Lemma pulled_nil (k : nat) : pulled k [] = repeat Done k.
Proof. unfold pulled. rewrite firstn_nil. cbn. now rewrite Nat.sub_0_r. Qed.

Lemma pulled_cons (k : nat) (v : Val) (values : list Val) :
  pulled (S k) (v :: values) = Yield v :: pulled k values.
Proof. reflexivity. Qed.

Lemma mapIterable_pulls (fn : Fn) (rest : list Val) (k : nat) :
  fst (pulls k (mkGenerator (resume (Index.mapIterable fn VUndefined)) (Suspended rest)))
  = pulled k (List.map (fun xi => fn [xi]) rest).
Proof.
  revert rest. induction k as [|k IH]; intros rest; [reflexivity|].
  rewrite pulls_step. cbn [Index.mapIterable resume].
  destruct rest as [|xi rest]; cbn [fst snd List.map].
  - now rewrite pulls_finished, pulled_nil.
  - rewrite pulled_cons. f_equal. apply IH.
Qed.

Lemma mapAsyncIterable_pulls (fn : Fn) (rest : list Val) (k : nat) :
  Forall (fun xi => rejects (fn [xi]) = false) (firstn k rest) ->
  fst (pulls k (mkGenerator (resume (Index.mapAsyncIterable fn VUndefined))
                  (Suspended rest)))
  = pulled k (List.map (fun xi => settled (fn [xi])) rest).
Proof.
  revert rest. induction k as [|k IH]; intros rest Hok; [reflexivity|].
  rewrite pulls_step. cbn [Index.mapAsyncIterable resume].
  destruct rest as [|xi rest]; cbn [fst snd List.map].
  - now rewrite pulls_finished, pulled_nil.
  - cbn [firstn] in Hok. apply Forall_cons_1 in Hok as [Hxi Hok]. rewrite Hxi.
    cbn [fst snd]. rewrite pulled_cons. f_equal. now apply IH.
Qed.

(** X19: [map(f)] applied to a generator object or to an asynchronous
    one hands back a lazy sequence at once, without calling [f]: the
    [k]-th pull yields what [f] returns for the [k]-th element (what it
    delivers, for an asynchronous sequence, as long as no application
    rejects), and once the source is exhausted every pull reports
    completion.  What [k] pulls give depends on the first [k] elements
    only. *)
Theorem map_sequence_is_lazy
  (join : list Val -> string) (typedFrom : list Val -> list Val)
  (f : Fn) (items : list Val) :
  (exists g,
      applyOp (Index.map join typedFrom (Func f)) (Data (VIter items))
      = ReturnedGenerator g
      /\ forall k,
          fst (pulls k g) = pulled k (List.map (fun xi => f [xi]) items))
  /\ (exists g,
        applyOp (Index.map join typedFrom (Func f)) (Data (VAsyncIter items))
        = ReturnedAsyncGenerator g
        /\ forall k,
            Forall (fun xi => rejects (f [xi]) = false) (firstn k items) ->
            fst (pulls k g) = pulled k (List.map (fun xi => settled (f [xi])) items))
  /\ forall more more' g g',
      applyOp (Index.map join typedFrom (Func f)) (Data (VIter (items ++ more)))
      = ReturnedGenerator g ->
      applyOp (Index.map join typedFrom (Func f)) (Data (VIter (items ++ more')))
      = ReturnedGenerator g' ->
      fst (pulls (length items) g) = fst (pulls (length items) g').
Proof.
  split; [|split].
  - eexists. split; [reflexivity|]. intros k. apply mapIterable_pulls.
  - eexists. split; [reflexivity|]. intros k. apply mapAsyncIterable_pulls.
  - intros more more' g g' [= <-] [= <-].
    change (Index.mapIterable f (VIter (items ++ more)))
      with (mkGenerator (resume (Index.mapIterable f VUndefined))
              (Suspended (items ++ more))).
    change (Index.mapIterable f (VIter (items ++ more')))
      with (mkGenerator (resume (Index.mapIterable f VUndefined))
              (Suspended (items ++ more'))).
    rewrite !mapIterable_pulls. unfold pulled.
    rewrite !List.map_app, !firstn_app, !length_map, Nat.sub_diag.
    rewrite !firstn_O, !length_app, !length_map.
    replace (length items - (length items + length more)) with 0 by lia.
    now replace (length items - (length items + length more')) with 0 by lia.
Qed.

Lemma map_sequence_is_lazy_witness :
  exists g,
    applyOp (Index.map (fun _ => "") (fun l => l) (Func pendingDouble))
      (Data (VAsyncIter [VNum 1; VNum 2; VNum 3]))
    = ReturnedAsyncGenerator g
    /\ fst (pulls 4 g) = [Yield (VNum 2); Yield (VNum 4); Yield (VNum 6); Done].
Proof.
  destruct (proj1 (proj2 (map_sequence_is_lazy (fun _ => "") (fun l => l) pendingDouble
                            [VNum 1; VNum 2; VNum 3])))
    as (g & Hg & Hpulls).
  exists g. split; [exact Hg|].
  apply (Hpulls 4). repeat constructor.
Defined.

Lemma filterAsyncIterable_pulls (predicate : Fn) (rest : list Val) (k : nat) :
  Forall (fun xi => rejects (predicate [xi]) = false) rest ->
  fst (pulls k (mkGenerator (Index.filterAsyncIterable_resume predicate)
                  (Suspended rest)))
  = pulled k (List.filter (fun xi => truthy (settled (predicate [xi]))) rest).
Proof.
  intros Hok. revert k. induction Hok as [|xi rest Hxi _ IH]; intros k.
  - destruct k as [|k]; [reflexivity|]. rewrite pulls_step.
    cbn [Index.filterAsyncIterable_resume fst snd List.filter].
    now rewrite pulls_finished, pulled_nil.
  - destruct k as [|k]; [reflexivity|].
    rewrite pulls_step. cbn [Index.filterAsyncIterable_resume List.filter].
    rewrite Hxi. destruct (truthy (settled (predicate [xi]))).
    + cbn [fst snd]. rewrite pulled_cons. f_equal. apply IH.
    + rewrite <- pulls_step. apply IH.
Qed.

(** X20: [filter(predicate)] applied to an asynchronous generator object
    hands back a lazy sequence that awaits the predicate: when no
    application rejects, the pulls yield, in their order, the elements for
    which what the predicate delivers is truthy, and then report
    completion: a predicate that answers with a promise is awaited. *)
Theorem filter_async_sequence_awaits
  (typedFrom : list Val -> list Val) (predicate : Fn) (items : list Val) :
  Forall (fun xi => rejects (predicate [xi]) = false) items ->
  exists g,
    applyOp (Index.filter typedFrom (Func predicate)) (Data (VAsyncIter items))
    = ReturnedAsyncGenerator g
    /\ forall k,
        fst (pulls k g)
        = pulled k (List.filter (fun xi => truthy (settled (predicate [xi]))) items).
Proof.
  intros Hok. eexists. split; [reflexivity|]. intros k.
  now apply filterAsyncIterable_pulls.
Qed.

Lemma filter_async_sequence_awaits_witness :
  exists g,
    applyOp (Index.filter (fun l => l) (Func pendingOnThree))
      (Data (VAsyncIter [VNum 2; VNum 3]))
    = ReturnedAsyncGenerator g
    /\ forall k,
        fst (pulls k g)
        = pulled k (List.filter (fun xi => truthy (settled (pendingOnThree [xi])))
                      [VNum 2; VNum 3]).
Proof.
  apply (filter_async_sequence_awaits (fun l => l) pendingOnThree [VNum 2; VNum 3]).
  repeat constructor.
Defined.

(** ** The pool mapper on Sets and Maps *)






(** ** [tap] *)

Lemma tap_spec (func : Fn) (x : Val) :
  (rejects (func [x]) = true -> Flow.tap func [x] = func [x])
  /\ (rejects (func [x]) = false ->
      settled (Flow.tap func [x]) = settled x
      /\ rejects (Flow.tap func [x]) = rejects x
      /\ delayOf (Flow.tap func [x]) = delayOf (func [x]) + delayOf x).
Proof.
  unfold Flow.tap. cbn [arg nth].
  destruct (func [x]) as [| | | | | | | | | | | | |t [|] w|w];
    cbn [isPromise rejects callThen valueOf delayOf];
    (split; [try discriminate; try reflexivity|]); try discriminate;
    try (intros _; repeat split; reflexivity).
  intros _. destruct (resolveWith_settles t x) as (H1 & H2 & H3). now rewrite H1, H2, H3.
Qed.

(** X22: [tap(func)] hands its input on and drops what [func] returns:
    in [pipe([tap(func), next])], applied to a value that is no promise,
    [next] is called with the input itself, once [func] has settled.  The
    pipe delivers what [next] delivers for the input, after the delays of
    both, and when [func] rejects the pipe rejects as [func] does. *)
Theorem tap_in_pipe (func next : Fn) (x : Val) :
  isPromise x = false ->
  exists pipeline,
    Flow.pipe [Flow.tap func; next] = Normal pipeline
    /\ (rejects (func [x]) = true -> pipeline [x] = func [x])
    /\ (rejects (func [x]) = false ->
        settled (pipeline [x]) = settled (next [x])
        /\ rejects (pipeline [x]) = rejects (next [x])
        /\ delayOf (pipeline [x]) = delayOf (func [x]) + delayOf (next [x])).
Proof.
  intros Hx. eexists. split; [reflexivity|].
  cbn [Flow.flowsIsReducer Flow.flows_data rev app fold_left].
  destruct (tap_spec func x) as [Hrej Hok].
  destruct (funcConcat_data (Flow.tap func) next [x]) as (Hcrej & Hcok & _).
  split.
  - intros Hr. rewrite Hcrej by (rewrite (Hrej Hr); exact Hr). now apply Hrej.
  - intros Hr. destruct (Hok Hr) as (H1 & H2 & H3).
    rewrite (settled_not_promise x Hx) in H1.
    rewrite (rejects_isPromise x Hx) in H2.
    destruct (Hcok H2) as (H4 & H5 & H6). rewrite H1 in H4, H5, H6.
    split; [exact H5|]. split; [exact H4|]. rewrite H6, H3.
    assert (delayOf x = 0) by (destruct x; try reflexivity; discriminate). lia.
Qed.

Lemma tap_in_pipe_witness :
  exists pipeline,
    Flow.pipe [Flow.tap delayed; double] = Normal pipeline
    /\ settled (pipeline [VNum 4]) = VNum 8
    /\ rejects (pipeline [VNum 4]) = false
    /\ delayOf (pipeline [VNum 4]) = 6.
Proof.
  destruct (tap_in_pipe delayed double (VNum 4) eq_refl) as (pipeline & Hp & _ & Hok).
  exists pipeline. split; [exact Hp|]. apply Hok. reflexivity.
Defined.

(** ** Folding an asynchronous sequence *)

(** X23: [reduce(f, x0)] applied to an asynchronous generator object,
    with an initial value that is neither [undefined] nor a promise,
    always hands back a promise, also when every call of the reducer
    answers at once.  The promise rejects exactly when some call rejects;
    when none does it fulfils with what the last call delivers, the calls
    having been made one after the other, after the sum of their
    delays. *)
Theorem reduce_async_sequence (f : Fn) (x0 : Val) (items : list Val) :
  isUndefined x0 = false -> isPromise x0 = false ->
  exists t ok v,
    applyOp (Index.reduce (Func f) (Data x0)) (Data (VAsyncIter items))
    = Returned (VPromise t ok v)
    /\ ok = negb (existsb rejects (steps f x0 items))
    /\ (Forall (fun s => rejects s = false) (steps f x0 items) ->
        v = folded f x0 items /\ t = totalDelay (steps f x0 items)).
Proof.
  intros Hu Hp.
  assert (HD : isFunction (profile (Data x0)) = false) by (destruct x0; reflexivity).
  unfold Index.reduce, applyOp.
  change (isFunction (profile (Func f))) with true. cbn [negb].
  rewrite HD. cbn [operandVal operandFn].
  change (isIterable (profile (Data (VAsyncIter items)))) with false.
  change (isAsyncIterable (profile (Data (VAsyncIter items)))) with true. cbv iota.
  unfold possiblePromiseThen. rewrite Hp. cbn [ofCompletion].
  unfold Index.reduceAsyncIterable. cbn [iterateAsync]. rewrite Hu. cbv beta iota.
  rewrite Hu.
  destruct (asyncFold_spec f 0 x0 items) as (t & v & E & Hok).
  rewrite E. eexists _, _, _. split; [reflexivity|]. split; [reflexivity|].
  intros Hall. destruct (Hok Hall) as [-> ->]. split; reflexivity.
Qed.

Lemma reduce_async_sequence_witness :
  exists t ok v,
    applyOp (Index.reduce (Func add) (Data (VNum 0)))
      (Data (VAsyncIter [VNum 1; VNum 2]))
    = Returned (VPromise t ok v)
    /\ ok = true
    /\ (Forall (fun s => rejects s = false) (steps add (VNum 0) [VNum 1; VNum 2]) ->
        v = VNum 3 /\ t = 0).
Proof.
  apply (reduce_async_sequence add (VNum 0) [VNum 1; VNum 2]); reflexivity.
Defined.

(** ** What [setMapPool] collects *)

Section SetPoolOutputFacts.
Import SetPool.
Variable concurrency : nat.
Variable f : Fn.
Variable source : Val.

Abbreviation ostep := (SetPool.step concurrency f source).
Abbreviation odispatch := (SetPool.dispatch f source).




















End SetPoolOutputFacts.


